(** * porespy.metrics: chord generation, chord lengths, two-point correlation

    A shallow embedding of [porespy/metrics/__funcs__.py] together with the
    parts of NumPy, SciPy and scikit-image the module calls, followed by the
    properties of the module that are proved about it.

    An n-dimensional array is its shape together with the function from
    multi-indices to cells; the array operations of NumPy used by the module
    ([moveaxis], [atleast_3d], [squeeze], slice assignment, elementwise
    product) are written out on that representation.  Python exceptions are
    the [Raise] branch of [result]. *)

From Stdlib Require Import String.
From Stdlib Require Import List ZArith QArith Bool Lia Arith PeanoNat FinFun Sorted.
Import ListNotations.

Set Implicit Arguments.
Local Open Scope nat_scope.
Local Open Scope list_scope.

(** ** Exceptions *)

Module Py.

(** The exceptions are told apart by the place that raises them.  NumPy's
    AxisError is a subclass of both ValueError and IndexError; it is kept
    apart from the two, so that [IndexError] is only the error of an item
    access. *)
Inductive exn : Type :=
| Exception (msg : string)   (* [raise Exception(msg)] of the module itself *)
| IndexError                 (* [a[i] = v], [a[i]]: index out of bounds, or not an integer *)
| AxisError                  (* numpy.AxisError: no such axis in the array *)
| ValueError                 (* range() step 0, repeated axis, empty image *)
| TypeError                  (* iteration over None *)
| UnboundLocalError          (* a local variable read before assignment *)
| NotImplementedError.       (* skimage.measure.label: not 1, 2 or 3 dimensions *)

Inductive result (A : Type) : Type :=
| Ok (a : A)
| Raise (e : exn).

Arguments Ok {A} a.
Arguments Raise {A} e.

Definition bind {A B} (c : result A) (k : A -> result B) : result B :=
  match c with
  | Ok a => k a
  | Raise e => Raise e
  end.

Definition is_ok {A} (c : result A) : bool :=
  match c with Ok _ => true | Raise _ => false end.

End Py.
Import Py.

Notation "x <- c ;; k" := (bind c (fun x => k))
  (at level 61, c at next level, right associativity).

Fixpoint mapM {A B} (f : A -> result B) (l : list A) : result (list B) :=
  match l with
  | [] => Ok []
  | x :: xs => y <- f x ;; ys <- mapM f xs ;; Ok (y :: ys)
  end.

(** ** Multi-indices and arrays *)

Definition index := list nat.

Fixpoint index_eqb (p q : index) : bool :=
  match p, q with
  | [], [] => true
  | a :: p', b :: q' => (a =? b) && index_eqb p' q'
  | _, _ => false
  end.

(** [in_bounds p shape]: [p] has one coordinate per axis, each below the
    extent of its axis. *)
Fixpoint in_bounds (p : index) (shape : list nat) : bool :=
  match p, shape with
  | [], [] => true
  | c :: p', n :: shape' => (c <? n) && in_bounds p' shape'
  | _, _ => false
  end.

(** All multi-indices of a shape, in C (row-major, raster) order. *)
Fixpoint indices (shape : list nat) : list index :=
  match shape with
  | [] => [[]]
  | n :: rest => flat_map (fun i => map (cons i) (indices rest)) (seq 0 n)
  end.

Record ndarray (A : Type) : Type := mk_ndarray {
  shape : list nat;
  data : index -> A
}.

Definition ndim {A} (a : ndarray A) : nat := length (shape a).

(** [a.size] *)
Definition size {A} (a : ndarray A) : nat := fold_right Nat.mul 1 (shape a).

(** [a.flatten()]: the cells in C order. *)
Definition flatten {A} (a : ndarray A) : list A := map (data a) (indices (shape a)).

(** [np.zeros_like(a, dtype=...)], and more generally an array of the shape
    of [a] filled with [v]. *)
Definition full_like {A B} (a : ndarray A) (v : B) : ndarray B :=
  {| shape := shape a; data := fun _ => v |}.

(** Elementwise unary and binary operations.  Every binary operation of the
    module is applied to two arrays of one and the same shape (the second is
    built from the first by [zeros_like] or [label]), so NumPy's broadcasting
    is the identity and the result has the shape of the operands. *)
Definition amap {A B} (f : A -> B) (a : ndarray A) : ndarray B :=
  {| shape := shape a; data := fun p => f (data a p) |}.

Definition amap2 {A B C} (f : A -> B -> C) (a : ndarray A) (b : ndarray B) : ndarray C :=
  {| shape := shape a; data := fun p => f (data a p) (data b p) |}.

(** Truth value of a cell: [True] for booleans, non-zero for integers. *)
Class Truthy (A : Type) : Type := truthy : A -> bool.
#[export] Instance Truthy_bool : Truthy bool := fun b => b.
#[export] Instance Truthy_nat : Truthy nat := fun n => negb (n =? 0).
#[export] Instance Truthy_Z : Truthy Z := fun z => negb (z =? 0)%Z.

(** ** Integer vectors ([np.arange], item assignment) *)

Definition arange (n : nat) : list Z := map Z.of_nat (seq 0 n).

Fixpoint replace_nth {A} (n : nat) (v : A) (l : list A) : list A :=
  match l, n with
  | [], _ => []
  | _ :: xs, 0 => v :: xs
  | x :: xs, S n' => x :: replace_nth n' v xs
  end.

(** [l[i] = v] on a one-dimensional array: a negative [i] counts from the
    end, anything outside [-len, len) raises IndexError. *)
Definition setitem (l : list Z) (i : Z) (v : Z) : result (list Z) :=
  let n := Z.of_nat (length l) in
  if ((- n <=? i) && (i <? n))%Z
  then Ok (replace_nth (Z.to_nat (if (i <? 0)%Z then i + n else i)%Z) v l)
  else Raise IndexError.

(** ** [np.moveaxis] and [ndarray.transpose] *)

Definition normalize_axis_index (nd : nat) (ax : Z) : result nat :=
  let n := Z.of_nat nd in
  if ((- n <=? ax) && (ax <? n))%Z
  then Ok (Z.to_nat (if (ax <? 0)%Z then ax + n else ax)%Z)
  else Raise AxisError.

Fixpoint mem (n : nat) (l : list nat) : bool :=
  match l with
  | [] => false
  | x :: xs => (n =? x) || mem n xs
  end.

Fixpoint has_dup (l : list nat) : bool :=
  match l with
  | [] => false
  | x :: xs => mem x xs || has_dup xs
  end.

Definition normalize_axis_tuple (nd : nat) (axes : list Z) : result (list nat) :=
  l <- mapM (normalize_axis_index nd) axes ;;
  if has_dup l then Raise ValueError else Ok l.

(** [sorted(zip(destination, source))]: pairs in lexicographic order. *)
Definition pair_leb (a b : nat * nat) : bool :=
  (fst a <? fst b) || ((fst a =? fst b) && (snd a <=? snd b)).

Fixpoint insert_sorted (x : nat * nat) (l : list (nat * nat)) : list (nat * nat) :=
  match l with
  | [] => [x]
  | y :: ys => if pair_leb x y then x :: l else y :: insert_sorted x ys
  end.

Definition sorted (l : list (nat * nat)) : list (nat * nat) :=
  fold_right insert_sorted [] l.

(** [list.insert(i, x)] for [i >= 0]: past the end it appends. *)
Fixpoint list_insert {A} (i : nat) (x : A) (l : list A) : list A :=
  match i, l with
  | 0, _ => x :: l
  | S i', [] => [x]
  | S i', y :: ys => y :: list_insert i' x ys
  end.

Fixpoint index_of (n : nat) (l : list nat) : nat :=
  match l with
  | [] => 0
  | x :: xs => if n =? x then 0 else S (index_of n xs)
  end.

(** [a.transpose(order)]: axis [i] of the result is axis [order[i]] of [a];
    [order] must be a permutation of the axes of [a]. *)
Definition transpose {A} (a : ndarray A) (order : list nat) : result (ndarray A) :=
  if (length order =? ndim a) && forallb (fun n => mem n order) (seq 0 (ndim a))
  then Ok {| shape := map (fun ax => nth ax (shape a) 0) order;
             data := fun p => data a (map (fun n => nth (index_of n order) p 0)
                                          (seq 0 (ndim a))) |}
  else Raise ValueError.

Definition moveaxis {A} (a : ndarray A) (source destination : list Z)
  : result (ndarray A) :=
  src <- normalize_axis_tuple (ndim a) source ;;
  dst <- normalize_axis_tuple (ndim a) destination ;;
  if negb (length src =? length dst) then Raise ValueError else
  let order := filter (fun n => negb (mem n src)) (seq 0 (ndim a)) in
  let order := fold_left (fun o ds => list_insert (fst ds) (snd ds) o)
                         (sorted (combine dst src)) order in
  transpose a order.

(** ** [np.atleast_3d] and [np.squeeze] *)

Definition atleast_3d {A} (a : ndarray A) : ndarray A :=
  match shape a with
  | [] => {| shape := [1; 1; 1]; data := fun _ => data a [] |}
  | [n] => {| shape := [1; n; 1]; data := fun p => data a [nth 1 p 0] |}
  | [m; n] => {| shape := [m; n; 1]; data := fun p => data a [nth 0 p 0; nth 1 p 0] |}
  | _ => a
  end.

(** The index of [a] that an index of [squeeze a] stands for: coordinate 0
    on every axis of extent 1. *)
Fixpoint unsqueeze (sh : list nat) (p : index) : index :=
  match sh with
  | [] => []
  | n :: sh' =>
      if n =? 1 then 0 :: unsqueeze sh' p
      else match p with
           | [] => 0 :: unsqueeze sh' []
           | c :: p' => c :: unsqueeze sh' p'
           end
  end.

(** [np.squeeze(a)]: every axis of extent 1 is removed. *)
Definition squeeze {A} (a : ndarray A) : ndarray A :=
  {| shape := filter (fun n => negb (n =? 1)) (shape a);
     data := fun p => data a (unsqueeze (shape a) p) |}.

(** ** Slice assignment

    The module only writes the slices [:], [::step] and [2::step], with
    [step = 4 + 2*spacing >= 4]: a slice is its start and its step, its stop
    is the end of the axis. *)

Record slice : Type := mk_slice { start : nat; step : nat }.

Definition sl_all : slice := mk_slice 0 1.

Definition in_slice (s : slice) (c : nat) : bool :=
  (start s <=? c) && ((c - start s) mod step s =? 0).

(** [p] is selected by [a[s0, s1, ...]]: axes past the last slice are taken
    whole. *)
Fixpoint selected (sl : list slice) (p : index) : bool :=
  match sl, p with
  | [], _ => true
  | s :: sl', c :: p' => in_slice s c && selected sl' p'
  | _ :: _, [] => false
  end.

(** [a[s0, s1, ...] = v] *)
Definition assign {A} (a : ndarray A) (sl : list slice) (v : A) : ndarray A :=
  {| shape := shape a; data := fun p => if selected sl p then v else data a p |}.

(** ** [scipy.ndimage.label], [skimage.segmentation.clear_border],
       [scipy.ndimage.find_objects]

    [label] numbers the face-connected components of the non-zero cells
    (SciPy's default structuring element is the cross: neighbours differ by
    one step along one axis), in the order in which a raster scan meets their
    first cell.  It is written as that scan with a flood fill from every cell
    met unlabelled. *)

(** The face neighbours of a cell (those below 0 left out; those past the end
    of an axis are discarded by the bounds test of the fill). *)
Fixpoint neighbours (p : index) : list index :=
  match p with
  | [] => []
  | c :: rest =>
      (match c with 0 => [] | S c' => [c' :: rest] end)
        ++ [S c :: rest] ++ map (cons c) (neighbours rest)
  end.

Definition upd (lab : index -> nat) (p : index) (l : nat) : index -> nat :=
  fun q => if index_eqb q p then l else lab q.

(** Flood fill with label [l] from the cells of [stack]. *)
Fixpoint fill (fuel : nat) (fg : index -> bool) (sh : list nat) (l : nat)
         (stack : list index) (lab : index -> nat) : index -> nat :=
  match fuel with
  | 0 => lab
  | S fuel' =>
      match stack with
      | [] => lab
      | p :: st =>
          if in_bounds p sh && fg p && (lab p =? 0)
          then fill fuel' fg sh l (neighbours p ++ st) (upd lab p l)
          else fill fuel' fg sh l st lab
      end
  end.

(** Every cell is labelled once and puts at most two neighbours per axis on
    the stack, which bounds the number of steps of one fill. *)
Definition fill_fuel (sh : list nat) : nat :=
  S (2 * length sh * fold_right Nat.mul 1 sh).

Definition label_step (fg : index -> bool) (sh : list nat)
           (st : (index -> nat) * nat) (p : index) : (index -> nat) * nat :=
  if fg p && (fst st p =? 0)
  then (fill (fill_fuel sh) fg sh (S (snd st)) [p] (fst st), S (snd st))
  else st.

Definition label_table (fg : index -> bool) (sh : list nat) : (index -> nat) * nat :=
  fold_left (label_step fg sh) (indices sh) (fun _ => 0, 0).

(** [scipy.ndimage.label(a)]: the labelled array and the number of
    components. *)
Definition label {A} `{Truthy A} (a : ndarray A) : ndarray nat * nat :=
  let t := label_table (fun p => truthy (data a p)) (shape a) in
  ({| shape := shape a; data := fst t |}, snd t).

(** A cell lies on the border when one of its coordinates is the first or
    the last of its axis. *)
Fixpoint on_border (p : index) (sh : list nat) : bool :=
  match p, sh with
  | c :: p', n :: sh' => (c =? 0) || (S c =? n) || on_border p' sh'
  | _, _ => false
  end.

(** [clear_border(labels)] on a label image (default [buffer_size=0],
    [bgval=0]): every label that occurs on the border is set to 0.  An axis
    of extent 0 is refused first ([buffer_size >= s]).  The image is then
    relabelled with [skimage.measure.label], which takes images of one, two
    or three dimensions only and raises NotImplementedError for any other.
    On the labels of [scipy.ndimage.label] the relabelling changes nothing:
    every label is one face-connected region, and two regions never hold
    the same label, so no two of them are joined. *)
Definition clear_border (labels : ndarray nat) : result (ndarray nat) :=
  if existsb (fun s => s =? 0) (shape labels) then Raise ValueError else
  if (ndim labels =? 0) || (3 <? ndim labels) then Raise NotImplementedError else
  let border_labels :=
    map (data labels) (filter (fun p => on_border p (shape labels))
                              (indices (shape labels))) in
  Ok {| shape := shape labels;
        data := fun p => if mem (data labels p) border_labels then 0
                         else data labels p |}.

(** A bounding box: per axis, the slice [lo:hi]. *)
Definition box := list (nat * nat).

Fixpoint box_add (b : box) (p : index) : box :=
  match b, p with
  | (lo, hi) :: b', c :: p' => (Nat.min lo c, Nat.max hi (S c)) :: box_add b' p'
  | _, _ => []
  end.

Definition box_of (cells : list index) : option box :=
  match cells with
  | [] => None
  | p :: ps => Some (fold_left box_add ps (map (fun c => (c, S c)) p))
  end.

(** [scipy.ndimage.find_objects(labels)]: for every label from 1 to the
    largest one, the smallest box holding its cells ([None] for a label that
    does not occur).  The largest label is [labels.max()], which NumPy
    refuses with a ValueError on an array without cells. *)
Definition find_objects (labels : ndarray nat) : result (list (option box)) :=
  if size labels =? 0 then Raise ValueError else
  Ok (map (fun l => box_of (filter (fun p => data labels p =? l) (indices (shape labels))))
          (seq 1 (fold_right Nat.max 0 (flatten labels)))).

(** [np.amax] of a list of integers; the empty list is refused. *)
Definition amax (l : list Z) : result Z :=
  match l with
  | [] => Raise ValueError
  | x :: xs => Ok (fold_left Z.max xs x)
  end.

(** * The module *)

(** [apply_chords(im, spacing, axis, trim_edges)] *)
Definition apply_chords (im : ndarray bool) (spacing axis : Z) (trim_edges : bool)
  : result (ndarray bool) :=
  if (spacing <? 0)%Z then Raise (Exception "Spacing cannot be less than 0") else
  let dims1 := arange (ndim im) in
  let dims2 := dims1 in
  dims2 <- setitem dims2 axis 0%Z ;;
  dims2 <- setitem dims2 0%Z axis ;;
  im <- moveaxis im dims1 dims2 ;;
  let im := atleast_3d im in
  let ch := full_like im false in
  let st := Z.to_nat (4 + 2 * spacing) in
  let ch := assign ch [sl_all; mk_slice 0 st; mk_slice 0 st] true in
  let chords := amap2 andb im ch in
  let chords := squeeze chords in
  chords <- (if trim_edges then
               cleared <- clear_border (fst (label (amap (fun c => Bool.eqb c true) chords))) ;;
               let temp := amap (fun l => 0 <? l) cleared in
               Ok (amap2 andb temp chords)
             else Ok chords) ;;
  moveaxis chords dims1 dims2.

(** [apply_chords_3D(im, spacing, trim_edges)] *)
Definition apply_chords_3D (im : ndarray bool) (spacing : Z) (trim_edges : bool)
  : result (ndarray Z) :=
  if ndim im <? 3 then Raise (Exception "Must be a 3D image to use this function") else
  if (spacing <? 0)%Z then Raise (Exception "Spacing cannot be less than 0") else
  let ch := full_like im 0%Z in
  let st := Z.to_nat (4 + 2 * spacing) in
  let ch := assign ch [sl_all; mk_slice 0 st; mk_slice 0 st] 1%Z in   (* X-direction *)
  let ch := assign ch [mk_slice 0 st; sl_all; mk_slice 2 st] 2%Z in   (* Y-direction *)
  let ch := assign ch [mk_slice 2 st; mk_slice 2 st; sl_all] 3%Z in   (* Z-direction *)
  let chords := amap2 (fun c v => (c * Z.b2z v)%Z) ch im in
  if trim_edges then
    cleared <- clear_border (fst (label (amap (fun c => (0 <? c)%Z) chords))) ;;
    let temp := amap (fun l => 0 <? l) cleared in
    Ok (amap2 (fun t c => (Z.b2z t * c)%Z) temp chords)
  else Ok chords.

(** [[item.stop - item.start for item in s]] *)
Definition side_lengths (s : box) : list Z :=
  map (fun item => (Z.of_nat (snd item) - Z.of_nat (fst item))%Z) s.

(** [chord_length_distribution(im)] *)
Definition chord_length_distribution {A} `{Truthy A} (im : ndarray A) : result (list Z) :=
  let '(labels, N) := label im in
  slices <- find_objects labels ;;
  let chord_lens := repeat 0%Z N in
  fold_left
    (fun acc i =>
       chord_lens <- acc ;;
       match nth i slices None with
       | None => Raise TypeError
       | Some s =>
           m <- amax (side_lengths s) ;;
           setitem chord_lens (Z.of_nat i) m
       end)
    (seq 0 (length slices))
    (Ok chord_lens).

(** ** Two-point correlation

    The sample points have integer coordinates, so the Euclidean distance of
    two of them is the square root of an integer.  A distance is kept as that
    integer, its square, and compared with an integer bin edge through the
    square of the edge; squaring is strictly increasing on the non-negative
    numbers, so these are the comparisons of the distances themselves. *)

(** Python's [range(0, stop, step)]. *)
Definition py_range (stop step : Z) : result (list Z) :=
  if (step =? 0)%Z then Raise ValueError else
  let n := if (0 <? step)%Z then ((stop + step - 1) / step)%Z
           else ((- stop - step - 1) / (- step))%Z in
  Ok (map (fun i => (Z.of_nat i * step)%Z) (seq 0 (Z.to_nat n))).

(** [np.meshgrid(x, y)] and [np.meshgrid(x, y, z)] with the default
    [indexing='xy']: the first two axes of the outputs are swapped, every
    output has shape [(len y, len x)], resp. [(len y, len x, len z)]. *)
Definition meshgrid2 (x y : list Z) : list (ndarray Z) :=
  [ {| shape := [length y; length x]; data := fun p => nth (nth 1 p 0) x 0%Z |};
    {| shape := [length y; length x]; data := fun p => nth (nth 0 p 0) y 0%Z |} ].

Definition meshgrid3 (x y z : list Z) : list (ndarray Z) :=
  [ {| shape := [length y; length x; length z]; data := fun p => nth (nth 1 p 0) x 0%Z |};
    {| shape := [length y; length x; length z]; data := fun p => nth (nth 0 p 0) y 0%Z |};
    {| shape := [length y; length x; length z]; data := fun p => nth (nth 2 p 0) z 0%Z |} ].

(** [np.vstack(rows).T]: row [i] of the result holds element [i] of every
    input row (the inputs have one length). *)
Definition vstack_T (rows : list (list Z)) : list (list Z) :=
  match rows with
  | [] => []
  | r :: _ => map (fun i => map (fun row => nth i row 0%Z) rows) (seq 0 (length r))
  end.

(** Squared Euclidean distance of two coordinate rows. *)
Definition sqdist (a b : list Z) : Z :=
  fold_right Z.add 0%Z (map (fun ab => (fst ab - snd ab) * (fst ab - snd ab))%Z (combine a b)).

(** [scipy.spatial.distance.cdist(XA, XB)], every entry kept as its square. *)
Definition cdist (XA XB : list (list Z)) : list (list Z) :=
  map (fun a => map (fun b => sqdist a b) XB) XA.

(** One coordinate of an index array used on an axis of extent [n]. *)
Definition normalize_index (n : nat) (c : Z) : result nat :=
  let m := Z.of_nat n in
  if ((- m <=? c) && (c <? m))%Z
  then Ok (Z.to_nat (if (c <? 0)%Z then c + m else c)%Z)
  else Raise IndexError.

Fixpoint normalize_indices (sh : list nat) (cs : list Z) : result index :=
  match sh, cs with
  | [], [] => Ok []
  | n :: sh', c :: cs' =>
      i <- normalize_index n c ;; p <- normalize_indices sh' cs' ;; Ok (i :: p)
  | _, _ => Raise IndexError
  end.

(** The arrays of [np.meshgrid] have one shape, and none of them has a cell
    exactly when one of the ranges is empty.  NumPy types the array made
    from an empty range as floating point, so a grid without points holds an
    array that is not an array of integers. *)
Definition float_typed (pts : list (ndarray Z)) : bool :=
  existsb (fun a => size a =? 0) pts.

(** [im[pts].flatten()] for a sequence [pts] of index arrays of one shape,
    taken as a tuple with one array per axis of [im] (NumPy up to 1.22).  An
    index array must be an array of integers: the arrays of a grid without
    points are refused with an IndexError. *)
Definition getitem_pts {A} (im : ndarray A) (pts : list (ndarray Z)) : result (list A) :=
  if float_typed pts then Raise IndexError else
  mapM (fun cs => p <- normalize_indices (shape im) cs ;; Ok (data im p))
       (vstack_T (map (@flatten Z) pts)).

(** Boolean mask indexing [m[hits, :]] and [m[:, hits]]. *)
Fixpoint mask {A} (hits : list bool) (l : list A) : list A :=
  match hits, l with
  | h :: hits', x :: l' => if h then x :: mask hits' l' else mask hits' l'
  | _, _ => []
  end.

Definition mask_rows {A} (m : list (list A)) (hits : list bool) : result (list (list A)) :=
  if length hits =? length m then Ok (mask hits m) else Raise IndexError.

Definition mask_cols {A} (m : list (list A)) (hits : list bool) : result (list (list A)) :=
  if forallb (fun row => length hits =? length row) m
  then Ok (map (mask hits) m) else Raise IndexError.

(** Comparisons of a distance, given by its square [d2 >= 0], with an
    integer bin edge [e]. *)
Definition edge_le_dist (e d2 : Z) : bool := ((e <=? 0) || (e * e <=? d2))%Z.
Definition dist_lt_edge (d2 e : Z) : bool := ((0 <? e) && (d2 <? e * e))%Z.
Definition dist_le_edge (d2 e : Z) : bool := ((0 <=? e) && (d2 <=? e * e))%Z.

Fixpoint increasing (edges : list Z) : bool :=
  match edges with
  | a :: ((b :: _) as rest) => (a <=? b)%Z && increasing rest
  | _ => true
  end.

(** The counts of [np.histogram(a, bins=edges)]: one bin for every two
    consecutive edges, closed on the left and open on the right, except the
    last bin, which is closed on both sides; values outside the edges are
    not counted.  Fewer than two edges give no bin (NumPy 1.15 and later;
    earlier releases fail on an empty sequence of edges). *)
Fixpoint bin_counts (a : list Z) (edges : list Z) : list Z :=
  match edges with
  | lo :: ((hi :: more) as rest) =>
      let inside := match more with
                    | [] => fun d => edge_le_dist lo d && dist_le_edge d hi
                    | _ => fun d => edge_le_dist lo d && dist_lt_edge d hi
                    end in
      Z.of_nat (length (filter inside a)) :: bin_counts a rest
  | _ => []
  end.

(** [np.histogram(m, bins=edges)] of a matrix: the counts and the edges. *)
Definition histogram (m : list (list Z)) (edges : list Z) : result (list Z * list Z) :=
  if increasing edges then Ok (bin_counts (concat m) edges, edges)
  else Raise ValueError.

(** The quotient of two integer counts, a float64 in the code: [0/0] is nan
    and [x/0] is infinite.  Of any other quotient the code holds the double
    nearest to it; [Qnum] keeps the rational number that this double rounds,
    not the double.  Rounding to nearest is monotone and leaves 0 and 1
    unchanged, and counts below 2^53 convert without rounding: that a
    quotient is 0, that it is 1, and that it lies between 0 and 1 is then
    true of the double exactly when it is true of the rational.  Nothing
    else is stated of a [Qnum]; in particular the double is in general not
    equal to the rational (1/3 is not a double). *)
Inductive quotient : Type :=
| Qnan
| Qinf
| Qnum (q : Q).

Definition true_divide (a b : Z) : quotient :=
  if (b =? 0)%Z then (if (a =? 0)%Z then Qnan else Qinf)
  else Qnum (Qred (inject_Z a / inject_Z b)).

Fixpoint zip_with {A B C} (f : A -> B -> C) (l1 : list A) (l2 : list B) : list C :=
  match l1, l2 with
  | x :: l1', y :: l2' => f x y :: zip_with f l1' l2'
  | _, _ => []
  end.

(** [np.amin(im.shape)] of a shape with at least one axis. *)
Definition amin_shape (sh : list nat) : nat := fold_right Nat.min (hd 0 sh) sh.

(** Lines 44 to 61 of [two_point_correlation_bf]: the histograms [h1] (first
    point void) and [h2] (both points void). *)
Definition two_point_histograms (im : ndarray bool) (spacing : Z)
  : result ((list Z * list Z) * (list Z * list Z)) :=
  pc <- match shape im with
        | [s0; s1] =>
            r0 <- py_range (Z.of_nat s0) spacing ;;
            r1 <- py_range (Z.of_nat s1) spacing ;;
            let pts := meshgrid2 r0 r1 in
            Ok (pts, vstack_T (map (@flatten Z) pts))
        | [s0; s1; s2] =>
            r0 <- py_range (Z.of_nat s0) spacing ;;
            r1 <- py_range (Z.of_nat s1) spacing ;;
            r2 <- py_range (Z.of_nat s2) spacing ;;
            let pts := meshgrid3 r0 r1 r2 in
            Ok (pts, vstack_T (map (@flatten Z) pts))
        | _ => Raise UnboundLocalError
        end ;;
  let pts := fst pc in
  let crds := snd pc in
  let dmat := cdist crds crds in
  hits <- getitem_pts im pts ;;
  dmat <- mask_rows dmat hits ;;
  bins <- py_range (Z.of_nat (amin_shape (shape im)) / 2)%Z spacing ;;
  h1 <- histogram dmat bins ;;
  dmat <- mask_cols dmat hits ;;
  h2 <- histogram dmat (snd h1) ;;
  Ok (h1, h2).

(** [two_point_correlation_bf(im, spacing)] *)
Definition two_point_correlation_bf (im : ndarray bool) (spacing : Z)
  : result (list Z * list quotient) :=
  h <- two_point_histograms im spacing ;;
  let h1 := fst h in
  let h2 := snd h in
  Ok (removelast (snd h2), zip_with true_divide (fst h2) (fst h1)).

(** ** [porosity] and [size_distribution] *)

(** [sp.sum] of a boolean array: the number of [True] cells. *)
Definition count_true_of (l : list bool) : nat := length (filter (fun b => b) l).

(** The test [x > 0] on a cell: [True] for booleans, positive for integers. *)
Class Positive (A : Type) : Type := positive_cell : A -> bool.
#[export] Instance Positive_bool : Positive bool := fun b => b.
#[export] Instance Positive_nat : Positive nat := fun n => 0 <? n.
#[export] Instance Positive_Z : Positive Z := fun z => (0 <? z)%Z.

(** [porosity(im)]: [sp.sum(im > 0)/im.size], the quotient of two integers
    (Python 3 true division). *)
Definition porosity {A} `{Positive A} (im : ndarray A) : quotient :=
  let e := true_divide (Z.of_nat (count_true_of (flatten (amap positive_cell im))))
                       (Z.of_nat (size im)) in
  e.

(** [np.unique(a)]: the distinct values in increasing order. *)
Fixpoint insert_unique (x : Z) (l : list Z) : list Z :=
  match l with
  | [] => [x]
  | y :: ys => if (x <? y)%Z then x :: l
               else if (x =? y)%Z then l
                    else y :: insert_unique x ys
  end.

Definition unique (l : list Z) : list Z := fold_right insert_unique [] l.

(** The counts of [np.histogram(a, bins=edges)] for integer values and
    integer edges (the bins as in [bin_counts]). *)
Fixpoint value_counts (a : list Z) (edges : list Z) : list Z :=
  match edges with
  | lo :: ((hi :: more) as rest) =>
      let inside := match more with
                    | [] => fun v => ((lo <=? v) && (v <=? hi))%Z
                    | _ => fun v => ((lo <=? v) && (v <? hi))%Z
                    end in
      Z.of_nat (length (filter inside a)) :: value_counts a rest
  | _ => []
  end.

Definition histogram_values (a : list Z) (edges : list Z) : result (list Z * list Z) :=
  if increasing edges then Ok (value_counts a edges, edges)
  else Raise ValueError.

(** [size_distribution(im, bins=None)] on an image of integer sizes; the
    argument [bins] is overwritten before it is read. *)
Definition size_distribution (im : ndarray Z) : result (list Z * list Z) :=
  let inds := filter (fun p => (0 <? data im p)%Z) (indices (shape im)) in
  let bins := tl (unique (flatten im)) in
  hist <- histogram_values (map (data im) inds) bins ;;
  let radii := removelast (snd hist) in
  let counts := fst hist in
  Ok (radii, counts).

(** * Vocabulary of the properties *)

(** A grid all of whose cells are void. *)
Definition all_void (im : ndarray bool) : Prop :=
  forall p, in_bounds p (shape im) = true -> data im p = true.

(** The number of marked cells of a flattened mask. *)
Definition count_true (l : list bool) : nat := length (filter (fun b => b) l).

(** The columns sampled with stride 4 in a grid 10 cells wide. *)
Definition chord_columns (j : nat) : bool := (j =? 0) || (j =? 4) || (j =? 8).

(** The grid of shape [sh] with every cell void. *)
Definition void_grid (sh : list nat) : ndarray bool :=
  {| shape := sh; data := fun _ => true |}.

Definition void_2x2 : ndarray bool := void_grid [2; 2].
Definition void_10x10 : ndarray bool := void_grid [10; 10].

Definition void_2x2x2x2 : ndarray bool := void_grid [2; 2; 2; 2].
Definition void_5x5x5 : ndarray bool := void_grid [5; 5; 5].

(** The three sampling patterns of [apply_chords_3D] for the stride [st]:
    the index tuples [[:, ::st, ::st]], [[::st, :, 2::st]] and
    [[2::st, 2::st, :]]. *)
Definition x_pattern (st : nat) : list slice := [sl_all; mk_slice 0 st; mk_slice 0 st].
Definition y_pattern (st : nat) : list slice := [mk_slice 0 st; sl_all; mk_slice 2 st].
Definition z_pattern (st : nat) : list slice := [mk_slice 2 st; mk_slice 2 st; sl_all].

(** The stride of the chord patterns. *)
Definition stride (spacing : Z) : nat := Z.to_nat (4 + 2 * spacing).

(** The label written by the three assignments of [apply_chords_3D], the
    last one winning. *)
Definition pattern_label (st : nat) (p : index) : Z :=
  if selected (z_pattern st) p then 3%Z
  else if selected (y_pattern st) p then 2%Z
  else if selected (x_pattern st) p then 1%Z else 0%Z.

(** The messages of the two exceptions the module raises itself. *)
Definition not_3d : exn := Exception "Must be a 3D image to use this function".
Definition bad_spacing : exn := Exception "Spacing cannot be less than 0".

(** No axis of the shape has extent [n]. *)
Definition no_extent (n : nat) (sh : list nat) : bool :=
  negb (existsb (fun s => s =? n) sh).

Arguments label_table : simpl never.
Arguments clear_border : simpl never.

(** ** Connected components *)

(** A cell of the image with foreground [fg] and shape [sh]: an index inside
    the bounds at which the image is non-zero. *)
Definition cell (fg : index -> bool) (sh : list nat) (p : index) : Prop :=
  in_bounds p sh = true /\ fg p = true.

(** [conn fg sh p q]: a path of face-adjacent cells leads from [p] to [q];
    the classes of this relation are the connected components. *)
Inductive conn (fg : index -> bool) (sh : list nat) : index -> index -> Prop :=
| conn_refl p : cell fg sh p -> conn fg sh p p
| conn_step p q r :
    conn fg sh p q -> cell fg sh r -> In r (neighbours q) -> conn fg sh p r.

(** The number of cells that have no label yet. *)
Definition unlabelled (fg : index -> bool) (sh : list nat) (lab : index -> nat) : nat :=
  length (filter (fun q => fg q && (lab q =? 0)) (indices sh)).

(** [b] is the smallest box that holds the indices satisfying [P]: on
    every axis its slice bounds all of them and both ends are attained. *)
Definition bounding_box (P : index -> Prop) (b : box) : Prop :=
  forall d lo hi, nth_error b d = Some (lo, hi) ->
    (forall p, P p -> lo <= nth d p 0 < hi)
    /\ (exists p, P p /\ nth d p 0 = lo)
    /\ (exists p, P p /\ S (nth d p 0) = hi).

(** [m] is the length of the longest side of [b]. *)
Definition longest_side (b : box) (m : Z) : Prop :=
  In m (side_lengths b) /\ forall s, In s (side_lengths b) -> (s <= m)%Z.

(** The value the loop of [chord_length_distribution] writes for one entry
    of [find_objects]. *)
Definition entry_length (s : option box) : result Z :=
  match s with
  | None => Raise TypeError
  | Some b => amax (side_lengths b)
  end.

(** The cell [t] steps after [p] along the axis [a]. *)
Definition shift (p : index) (a t : nat) : index :=
  replace_nth a (nth a p 0 + t) p.

(** [q] lies on the straight run of [L] cells that starts at [p] and goes
    along the axis [a]. *)
Definition on_run (p : index) (a L : nat) (q : index) : bool :=
  (length q =? length p)
  && forallb (fun d => if d =? a
                       then (nth a p 0 <=? nth a q 0) && (nth a q 0 <? nth a p 0 + L)
                       else nth d q 0 =? nth d p 0)
             (seq 0 (length p)).

(** The image of shape [sh] whose non-zero cells are that run. *)
Definition run_image (sh : list nat) (p : index) (a L : nat) : ndarray bool :=
  {| shape := sh; data := on_run p a L |}.

(** A 4 x 6 image whose only non-zero cells are the three cells (1,2),
    (1,3), (1,4). *)
Definition run_4x6 : ndarray bool := run_image [4; 6] [1; 2] 1 3.

(** The invariant of one flood fill with label [l] from the seed [p0], begun
    with the labels [lab0]: a cell is relabelled only inside the component
    of the seed, the stack holds only cells of that component (or cells that
    will be skipped), and every neighbour of a relabelled cell is relabelled
    or waits on the stack. *)
Record fill_inv (fg : index -> bool) (sh : list nat) (lab0 : index -> nat)
       (l : nat) (p0 : index) (stack : list index) (lab : index -> nat) : Prop := {
  inv_old : forall q, lab q = lab0 q \/ (lab q = l /\ lab0 q = 0 /\ conn fg sh p0 q);
  inv_stack : forall q, In q stack -> cell fg sh q -> conn fg sh p0 q;
  inv_front : forall r q, lab r = l -> In q (neighbours r) -> cell fg sh q ->
                          lab q = l \/ In q stack;
  inv_seed : lab p0 = l \/ In p0 stack
}.

(** The invariant of the raster scan of [label]: the labels given so far
    are 1..n, each names one whole connected component, and every cell
    already scanned has its label. *)
Record scan_inv (fg : index -> bool) (sh : list nat) (scanned : list index)
       (st : (index -> nat) * nat) : Prop := {
  sc_cell : forall p, fst st p <> 0 -> cell fg sh p /\ fst st p <= snd st;
  sc_closed : forall p q, fst st p <> 0 -> conn fg sh p q -> fst st q = fst st p;
  sc_conn : forall p q, fst st p <> 0 -> fst st q = fst st p -> conn fg sh p q;
  sc_used : forall l, 1 <= l <= snd st -> exists p, fst st p = l;
  sc_scanned : forall p, In p scanned -> cell fg sh p -> fst st p <> 0
}.

(** ** Vocabulary of the further properties *)

(** [p] lies on a sample line of the chords along the axis [a] with stride
    [st]: every coordinate but that of the axis is a multiple of the stride. *)
Definition sampled (st a : nat) (p : index) : bool :=
  forallb (fun d => (d =? a) || (nth d p 0 mod st =? 0)) (seq 0 (length p)).

(** The component of the cell [p] touches the border of the image. *)
Definition touches_border (fg : index -> bool) (sh : list nat) (p : index) : Prop :=
  exists q, conn fg sh p q /\ on_border q sh = true.

(** The number of cells of [im] that hold a positive value. *)
Definition count_positive {A} `{Positive A} (im : ndarray A) : nat :=
  length (filter (fun p => positive_cell (data im p)) (indices (shape im))).

(** A 2 x 2 image whose first row is void and whose second row is solid. *)
Definition half_void_2x2 : ndarray bool :=
  {| shape := [2; 2]; data := fun p => nth 0 p 0 =? 0 |}.

(** The number of positive cells of [im] that hold the value [v] (none for
    [v <= 0]). *)
Definition count_cells (im : ndarray Z) (v : Z) : Z :=
  Z.of_nat (length (filter (fun p => (0 <? data im p)%Z && (data im p =? v)%Z)
                           (indices (shape im)))).

(** A 2 x 3 image of sizes: one cell 0, two cells 1, one cell 2, two cells 3. *)
Definition sizes_2x3 : ndarray Z :=
  {| shape := [2; 3];
     data := fun p => nth (3 * nth 0 p 0 + nth 1 p 0) [0; 1; 1; 2; 3; 3]%Z 0%Z |}.

(** A grid all of whose cells are solid. *)
Definition all_solid (im : ndarray bool) : Prop :=
  forall p, in_bounds p (shape im) = true -> data im p = false.

(** The grid of shape [sh] with every cell solid. *)
Definition solid_grid (sh : list nat) : ndarray bool :=
  {| shape := sh; data := fun _ => false |}.

Definition solid_10x10 : ndarray bool := solid_grid [10; 10].

(** A returned ratio: not a number, or a fraction between 0 and 1. *)
Definition probability (r : quotient) : Prop :=
  r = Qnan \/ exists q, r = Qnum q /\ (0 <= q <= 1)%Q.

(** The number of non-zero cells of [im]. *)
Definition count_nonzero {A} `{Truthy A} (im : ndarray A) : nat :=
  length (filter (fun p => truthy (data im p)) (indices (shape im))).

(** A 4 x 6 image with two separate runs: (0,0), (0,1) and (2,3), (3,3). *)
Definition two_runs_4x6 : ndarray bool :=
  {| shape := [4; 6];
     data := fun p => on_run [0; 0] 1 2 p || on_run [2; 3] 0 2 p |}.

(** The exchange of the axes 0 and [a], as done by the two calls of
    [moveaxis] in [apply_chords]: on axis numbers, and on indices. *)
Definition swap_axis (a d : nat) : nat :=
  if d =? 0 then a else if d =? a then 0 else d.

Definition swap_axes (a : nat) (p : index) : index :=
  map (fun d => nth (swap_axis a d) p 0) (seq 0 (length p)).

(** The chords of [apply_chords] before trimming: the void cells on the
    sample lines along the axis [a]. *)
Definition raw_chords (im : ndarray bool) (st a : nat) (p : index) : bool :=
  data im p && sampled st a p.

(** The label [apply_chords_3D] writes in a cell before trimming: the label
    of the pattern on a void cell, 0 on a solid one. *)
Definition raw_labels (im : ndarray bool) (st : nat) (p : index) : Z :=
  (pattern_label st p * Z.b2z (data im p))%Z.

(** A sample point of the two-point correlation: every coordinate is a
    multiple of the spacing. *)
Definition sample_point (sp : Z) (p : index) : Prop :=
  Forall (fun c => (Z.of_nat c mod sp = 0)%Z) p.

(** Two 4 x 4 grids that agree on the sample points of spacing 2 (the cells
    with two even coordinates, all void) and differ elsewhere. *)
Definition even_void_4x4 : ndarray bool :=
  {| shape := [4; 4];
     data := fun p => (nth 0 p 0 mod 2 =? 0) && (nth 1 p 0 mod 2 =? 0) |}.
Definition void_4x4 : ndarray bool := void_grid [4; 4].

(** * Basic facts about indices *)

Lemma index_eqb_eq (p q : index) : index_eqb p q = true <-> p = q.
Proof.
  revert q; induction p as [|a p IH]; intros [|b q]; simpl; split;
    try congruence; try reflexivity.
  - intros H. apply andb_true_iff in H as [H1 H2].
    apply Nat.eqb_eq in H1. apply IH in H2. congruence.
  - intros H. injection H as -> ->. rewrite Nat.eqb_refl. apply IH. reflexivity.
Qed.

Lemma index_eqb_refl (p : index) : index_eqb p p = true.
Proof. apply index_eqb_eq. reflexivity. Qed.

Lemma index_eqb_neq (p q : index) : index_eqb p q = false <-> p <> q.
Proof.
  split.
  - intros H E. apply index_eqb_eq in E. congruence.
  - intros H. destruct (index_eqb p q) eqn:E; [|reflexivity].
    apply index_eqb_eq in E. contradiction.
Qed.

Lemma in_bounds_length (p : index) (sh : list nat) :
  in_bounds p sh = true -> length p = length sh.
Proof.
  revert sh; induction p as [|c p IH]; intros [|n sh]; simpl; try congruence.
  intros H. apply andb_true_iff in H as [_ H]. f_equal. apply IH. exact H.
Qed.

Lemma in_bounds_cons (c : nat) (p : index) (n : nat) (sh : list nat) :
  in_bounds (c :: p) (n :: sh) = true <-> c < n /\ in_bounds p sh = true.
Proof. simpl. rewrite andb_true_iff, Nat.ltb_lt. reflexivity. Qed.

Lemma indices_spec (sh : list nat) (p : index) :
  In p (indices sh) <-> in_bounds p sh = true.
Proof.
  revert p; induction sh as [|n sh IH]; intros p; simpl.
  - destruct p; simpl; split; intros H; auto; try discriminate.
    destruct H as [H|[]]; discriminate.
  - rewrite in_flat_map. split.
    + intros (i & Hi & Hp). apply in_map_iff in Hp as (q & <- & Hq).
      apply in_seq in Hi. apply in_bounds_cons. split; [lia|]. apply IH, Hq.
    + destruct p as [|c p]; [discriminate|]. intros H.
      apply in_bounds_cons in H as [Hc Hp]. exists c. split.
      * apply in_seq. lia.
      * apply in_map, IH, Hp.
Qed.

Lemma indices_NoDup (sh : list nat) : NoDup (indices sh).
Proof.
  induction sh as [|n sh IH]; simpl.
  - constructor; [intros []|constructor].
  - generalize 0 as s. induction n as [|n IHn]; intros s; simpl; [constructor|].
    apply NoDup_app.
    + apply Injective_map_NoDup; [|exact IH]. intros x y H. congruence.
    + apply IHn.
    + intros p H1 H2. apply in_map_iff in H1 as (q & <- & _).
      apply in_flat_map in H2 as (i & Hi & Hp).
      apply in_map_iff in Hp as (q' & E & _). apply in_seq in Hi.
      injection E as E _. lia.
Qed.

Lemma length_indices (sh : list nat) :
  length (indices sh) = fold_right Nat.mul 1 sh.
Proof.
  induction sh as [|n sh IH]; simpl; [reflexivity|].
  rewrite <- IH. generalize 0 as s. induction n as [|n IHn]; intros s; simpl.
  - reflexivity.
  - rewrite length_app, length_map, IHn. reflexivity.
Qed.

Lemma forallb_indices (f : index -> bool) (sh : list nat) :
  forallb f (indices sh) = true <->
  (forall p, in_bounds p sh = true -> f p = true).
Proof.
  rewrite forallb_forall. split; intros H p Hp; apply H; apply indices_spec; exact Hp.
Qed.

(** * The labelling depends on the in-bounds cells only *)

Section LabelExt.

Variables (fg1 fg2 : index -> bool) (sh : list nat).
Hypothesis fg_agree : forall p, in_bounds p sh = true -> fg1 p = fg2 p.

Lemma fill_ext (fuel l : nat) :
  forall (stack : list index) (lab1 lab2 : index -> nat),
    (forall p, lab1 p = lab2 p) ->
    forall q, fill fuel fg1 sh l stack lab1 q = fill fuel fg2 sh l stack lab2 q.
Proof.
  induction fuel as [|fuel IH]; intros stack lab1 lab2 Hlab q; simpl.
  - apply Hlab.
  - destruct stack as [|p st]; [apply Hlab|].
    rewrite <- (Hlab p).
    destruct (in_bounds p sh) eqn:Hb; simpl.
    + rewrite <- (fg_agree _ Hb).
      destruct (fg1 p && (lab1 p =? 0)); apply IH; auto.
      intros r. unfold upd. destruct (index_eqb r p); auto.
    + apply IH, Hlab.
Qed.

Lemma label_fold_ext (ps : list index) :
  (forall p, In p ps -> in_bounds p sh = true) ->
  forall (st1 st2 : (index -> nat) * nat),
    (forall p, fst st1 p = fst st2 p) -> snd st1 = snd st2 ->
    (forall p, fst (fold_left (label_step fg1 sh) ps st1) p
               = fst (fold_left (label_step fg2 sh) ps st2) p)
    /\ snd (fold_left (label_step fg1 sh) ps st1)
       = snd (fold_left (label_step fg2 sh) ps st2).
Proof.
  induction ps as [|p ps IH]; intros Hps st1 st2 Hlab Hn; simpl; [auto|].
  apply IH.
  - intros r Hr. apply Hps. right. exact Hr.
  - intros r. unfold label_step.
    rewrite <- (fg_agree _ (Hps p (or_introl eq_refl))), <- (Hlab p), <- Hn.
    destruct (fg1 p && (fst st1 p =? 0)); cbn [fst snd]; [|apply Hlab].
    apply fill_ext, Hlab.
  - unfold label_step.
    rewrite <- (fg_agree _ (Hps p (or_introl eq_refl))), <- (Hlab p), <- Hn.
    destruct (fg1 p && (fst st1 p =? 0)); cbn [fst snd]; congruence.
Qed.

Lemma label_table_ext :
  (forall p, fst (label_table fg1 sh) p = fst (label_table fg2 sh) p)
  /\ snd (label_table fg1 sh) = snd (label_table fg2 sh).
Proof.
  apply label_fold_ext; auto. intros p Hp. apply indices_spec, Hp.
Qed.

End LabelExt.

(** [clear_border] after [label] gives the same cells for two images that
    agree inside the bounds. *)
Lemma cleared_label_ext {A} `{Truthy A} (a b : ndarray A) :
  shape a = shape b ->
  (forall p, in_bounds p (shape a) = true -> data a p = data b p) ->
  match clear_border (fst (label a)), clear_border (fst (label b)) with
  | Ok ca, Ok cb => shape ca = shape cb /\ forall p, data ca p = data cb p
  | Raise ea, Raise eb => ea = eb
  | _, _ => False
  end.
Proof.
  intros Hsh Hd.
  destruct (label_table_ext (fun p => truthy (data a p)) (fun p => truthy (data b p))
              (shape a)) as [Hl _].
  { intros p Hp. rewrite (Hd p Hp). reflexivity. }
  unfold clear_border, label, ndim; simpl. rewrite <- Hsh.
  destruct (existsb (fun s => s =? 0) (shape a)); [reflexivity|].
  destruct ((length (shape a) =? 0) || (3 <? length (shape a))); [reflexivity|].
  simpl. split; [reflexivity|]. intros p.
  rewrite (map_ext _ _ Hl), Hl. reflexivity.
Qed.

(** * Inversion of bounds for grids of two and three axes *)

Lemma in_bounds_nil (p : index) : in_bounds p [] = true -> p = [].
Proof. destruct p; simpl; congruence. Qed.

Lemma in_bounds_inv (p : index) (n : nat) (sh : list nat) :
  in_bounds p (n :: sh) = true ->
  exists c q, p = c :: q /\ c < n /\ in_bounds q sh = true.
Proof.
  destruct p as [|c q]; [discriminate|]. intros H.
  apply in_bounds_cons in H. exists c, q. tauto.
Qed.

Lemma in_bounds_2 (p : index) (a b : nat) :
  in_bounds p [a; b] = true -> exists i j, p = [i; j] /\ i < a /\ j < b.
Proof.
  intros H. apply in_bounds_inv in H as (i & q & -> & Hi & H).
  apply in_bounds_inv in H as (j & q' & -> & Hj & H).
  apply in_bounds_nil in H as ->. eauto.
Qed.

Lemma in_bounds_3 (p : index) (a b c : nat) :
  in_bounds p [a; b; c] = true ->
  exists i j k, p = [i; j; k] /\ i < a /\ j < b /\ k < c.
Proof.
  intros H. apply in_bounds_inv in H as (i & q & -> & Hi & H).
  apply in_bounds_2 in H as (j & k & -> & Hj & Hk). eauto 7.
Qed.

Lemma clear_border_ok (l c : ndarray nat) :
  clear_border l = Ok c -> shape c = shape l.
Proof.
  unfold clear_border. destruct (existsb _ _); [discriminate|].
  destruct (orb _ _); [discriminate|].
  intros E. injection E as <-. reflexivity.
Qed.

Lemma clear_border_raise (l : ndarray nat) (e : exn) :
  clear_border l = Raise e ->
  (e = ValueError /\ existsb (fun s => s =? 0) (shape l) = true)
  \/ (e = NotImplementedError /\ existsb (fun s => s =? 0) (shape l) = false
      /\ ~ 1 <= ndim l <= 3).
Proof.
  unfold clear_border. destruct (existsb _ _).
  - intros E. injection E as <-. auto.
  - destruct (orb _ _) eqn:Hd; [|discriminate].
    intros E. injection E as <-. right. split; [reflexivity|]. split; [reflexivity|].
    apply orb_true_iff in Hd as [Hd|Hd]; [apply Nat.eqb_eq in Hd|apply Nat.ltb_lt in Hd]; lia.
Qed.

Lemma clear_border_total (l : ndarray nat) :
  1 <= ndim l <= 3 ->
  existsb (fun s => s =? 0) (shape l) = false ->
  exists c, clear_border l = Ok c.
Proof.
  unfold clear_border. intros Hk ->.
  replace ((ndim l =? 0) || (3 <? ndim l)) with false; [eexists; reflexivity|].
  symmetry. apply orb_false_iff. split; [apply Nat.eqb_neq|apply Nat.ltb_ge]; lia.
Qed.

Lemma clear_border_dimension (l : ndarray nat) :
  ~ 1 <= ndim l <= 3 ->
  existsb (fun s => s =? 0) (shape l) = false ->
  clear_border l = Raise NotImplementedError.
Proof.
  unfold clear_border. intros Hk ->.
  replace ((ndim l =? 0) || (3 <? ndim l)) with true; [reflexivity|].
  symmetry. apply orb_true_iff.
  destruct (Nat.eq_dec (ndim l) 0) as [E|E]; [left; apply Nat.eqb_eq; exact E|].
  right. apply Nat.ltb_lt. lia.
Qed.

(** * The spacing check *)

Lemma apply_chords_negative_spacing (im : ndarray bool) (sp ax : Z) (trim : bool) :
  (sp < 0)%Z -> apply_chords im sp ax trim = Raise bad_spacing.
Proof.
  intros Hsp. unfold apply_chords. replace (sp <? 0)%Z with true by lia. reflexivity.
Qed.

Lemma apply_chords_3D_negative_spacing (im : ndarray bool) (sp : Z) (trim : bool) :
  3 <= ndim im -> (sp < 0)%Z -> apply_chords_3D im sp trim = Raise bad_spacing.
Proof.
  intros Hk Hsp. unfold apply_chords_3D.
  replace (ndim im <? 3) with false by (symmetry; apply Nat.ltb_ge; exact Hk).
  replace (sp <? 0)%Z with true by lia. reflexivity.
Qed.

(** * Case analysis of [apply_chords] on grids of two and three axes *)

Ltac split_trim :=
  match goal with
  | |- context [clear_border ?l] =>
      let c := fresh "c" in let e := fresh "e" in let Ec := fresh "Ec" in
      destruct (clear_border l) as [c|e] eqn:Ec; simpl;
      [ apply clear_border_ok in Ec; simpl in Ec;
        let shc := fresh "shc" in let dc := fresh "dc" in
        destruct c as [shc dc]; simpl in Ec; subst shc; simpl
      | try discriminate ]
  | _ => idtac
  end.

Ltac point_goal :=
  let E := fresh "E" in
  intros E; injection E as <-; simpl; split; [reflexivity|];
  let p := fresh "p" in let Hp := fresh "Hp" in
  intros p Hp;
  first [ apply in_bounds_3 in Hp as (?i & ?j & ?k & -> & _)
        | apply in_bounds_2 in Hp as (?i & ?j & -> & _) ];
  simpl;
  repeat match goal with H : (_ =? 1) = false |- _ => rewrite H end; simpl;
  let H := fresh "H" in
  intros H; repeat (apply andb_true_iff in H as [? H]); assumption.

Ltac enter_apply_chords sp :=
  unfold apply_chords; destruct (sp <? 0)%Z; [discriminate|];
  generalize (Z.to_nat (4 + 2 * sp)); intros ?st;
  unfold setitem at 1; cbn [ndim shape arange length seq map].

Ltac unfold_arrays :=
  simpl; unfold squeeze, atleast_3d, amap2, amap, assign, full_like; simpl.

Lemma apply_chords_3d_inv (d : index -> bool) (s0 s1 s2 : nat) (sp ax : Z)
      (trim : bool) (out : ndarray bool) :
  apply_chords {| shape := [s0; s1; s2]; data := d |} sp ax trim = Ok out ->
  shape out = [s0; s1; s2] /\
  forall p, in_bounds p [s0; s1; s2] = true -> data out p = true -> d p = true.
Proof.
  enter_apply_chords sp.
  destruct (andb _ _) eqn:Hax; [|discriminate].
  apply andb_true_iff in Hax as [H1 H2]. apply Z.leb_le in H1. apply Z.ltb_lt in H2.
  assert (Hcases : ax = (-3)%Z \/ ax = (-2)%Z \/ ax = (-1)%Z
                   \/ ax = 0%Z \/ ax = 1%Z \/ ax = 2%Z) by lia.
  clear H1 H2.
  destruct Hcases as [-> | [-> | [-> | [-> | [-> | ->]]]]];
    unfold_arrays;
    destruct (s0 =? 1) eqn:E0, (s1 =? 1) eqn:E1, (s2 =? 1) eqn:E2, trim; simpl;
    split_trim; unfold moveaxis; simpl; solve [discriminate | point_goal].
Qed.

Lemma apply_chords_2d_inv (d : index -> bool) (s0 s1 : nat) (sp ax : Z)
      (trim : bool) (out : ndarray bool) :
  apply_chords {| shape := [s0; s1]; data := d |} sp ax trim = Ok out ->
  shape out = [s0; s1] /\
  forall p, in_bounds p [s0; s1] = true -> data out p = true -> d p = true.
Proof.
  enter_apply_chords sp.
  destruct (andb _ _) eqn:Hax; [|discriminate].
  apply andb_true_iff in Hax as [H1 H2]. apply Z.leb_le in H1. apply Z.ltb_lt in H2.
  assert (Hcases : ax = (-2)%Z \/ ax = (-1)%Z \/ ax = 0%Z \/ ax = 1%Z) by lia.
  clear H1 H2.
  destruct Hcases as [-> | [-> | [-> | ->]]];
    unfold_arrays;
    destruct (s0 =? 1) eqn:E0, (s1 =? 1) eqn:E1, trim; simpl;
    split_trim; unfold moveaxis; simpl; solve [discriminate | point_goal].
Qed.

Lemma apply_chords_3d_ok (d : index -> bool) (s0 s1 s2 : nat) (sp ax : Z) (trim : bool) :
  (0 <= sp)%Z -> (-3 <= ax < 3)%Z ->
  no_extent 1 [s0; s1; s2] = true ->
  (trim = true -> no_extent 0 [s0; s1; s2] = true) ->
  exists out, apply_chords {| shape := [s0; s1; s2]; data := d |} sp ax trim = Ok out.
Proof.
  intros Hsp Hax H1 H0. unfold no_extent in *. simpl in H1, H0.
  apply negb_true_iff in H1. apply orb_false_iff in H1 as [E0 H1].
  apply orb_false_iff in H1 as [E1 H1]. apply orb_false_iff in H1 as [E2 _].
  unfold apply_chords. replace (sp <? 0)%Z with false by lia.
  generalize (Z.to_nat (4 + 2 * sp)); intros st.
  assert (Hcases : ax = (-3)%Z \/ ax = (-2)%Z \/ ax = (-1)%Z
                   \/ ax = 0%Z \/ ax = 1%Z \/ ax = 2%Z) by lia.
  destruct Hcases as [-> | [-> | [-> | [-> | [-> | ->]]]]];
    unfold_arrays; rewrite ?E0, ?E1, ?E2; simpl;
    (destruct trim;
     [ specialize (H0 eq_refl); apply negb_true_iff in H0;
       apply orb_false_iff in H0 as [Z0 H0]; apply orb_false_iff in H0 as [Z1 H0];
       apply orb_false_iff in H0 as [Z2 _];
       match goal with |- context [clear_border ?l] =>
         destruct (@clear_border_total l) as [c Ec];
         [ unfold ndim; simpl; rewrite ?E0, ?E1, ?E2; simpl; lia
         | simpl; rewrite ?E0, ?E1, ?E2; simpl; rewrite ?Z0, ?Z1, ?Z2; reflexivity
         | rewrite Ec ] end;
        apply clear_border_ok in Ec; simpl in Ec; rewrite ?E0, ?E1, ?E2 in Ec; simpl in Ec;
        destruct c as [shc dc]; simpl in Ec; subst shc; simpl
     | simpl ]);
    unfold moveaxis; simpl; eexists; reflexivity.
Qed.

Lemma apply_chords_2d_ok (d : index -> bool) (s0 s1 : nat) (sp ax : Z) (trim : bool) :
  (0 <= sp)%Z -> (-2 <= ax < 2)%Z ->
  no_extent 1 [s0; s1] = true ->
  (trim = true -> no_extent 0 [s0; s1] = true) ->
  exists out, apply_chords {| shape := [s0; s1]; data := d |} sp ax trim = Ok out.
Proof.
  intros Hsp Hax H1 H0. unfold no_extent in *. simpl in H1, H0.
  apply negb_true_iff in H1. apply orb_false_iff in H1 as [E0 H1].
  apply orb_false_iff in H1 as [E1 _].
  unfold apply_chords. replace (sp <? 0)%Z with false by lia.
  generalize (Z.to_nat (4 + 2 * sp)); intros st.
  assert (Hcases : ax = (-2)%Z \/ ax = (-1)%Z \/ ax = 0%Z \/ ax = 1%Z) by lia.
  destruct Hcases as [-> | [-> | [-> | ->]]];
    unfold_arrays; rewrite ?E0, ?E1; simpl;
    (destruct trim;
     [ specialize (H0 eq_refl); apply negb_true_iff in H0;
       apply orb_false_iff in H0 as [Z0 H0]; apply orb_false_iff in H0 as [Z1 _];
       match goal with |- context [clear_border ?l] =>
         destruct (@clear_border_total l) as [c Ec];
         [ unfold ndim; simpl; rewrite ?E0, ?E1; simpl; lia
         | simpl; rewrite ?E0, ?E1; simpl; rewrite ?Z0, ?Z1; reflexivity
         | rewrite Ec ] end;
        apply clear_border_ok in Ec; simpl in Ec; rewrite ?E0, ?E1 in Ec; simpl in Ec;
        destruct c as [shc dc]; simpl in Ec; subst shc; simpl
     | simpl ]);
    unfold moveaxis; simpl; eexists; reflexivity.
Qed.

(** * Which exceptions the array operations raise *)

Lemma mapM_raise {A B} (f : A -> result B) (l : list A) (e : exn) :
  mapM f l = Raise e -> exists x, In x l /\ f x = Raise e.
Proof.
  induction l as [|x l IH]; simpl; [discriminate|].
  destruct (f x) as [y|e'] eqn:Ex; simpl.
  - destruct (mapM f l) as [ys|e'']; simpl; [discriminate|].
    intros E. destruct (IH E) as (x' & Hin & Hx'). eauto.
  - intros E. injection E as <-. eauto.
Qed.

Lemma normalize_axis_tuple_raise (nd : nat) (axes : list Z) (e : exn) :
  normalize_axis_tuple nd axes = Raise e -> e = AxisError \/ e = ValueError.
Proof.
  unfold normalize_axis_tuple.
  destruct (mapM _ axes) as [l|e'] eqn:El; simpl.
  - destruct (has_dup l); [|discriminate]. intros E. injection E as <-. auto.
  - intros E. injection E as <-. apply mapM_raise in El as (x & _ & Hx).
    unfold normalize_axis_index in Hx. destruct (andb _ _); [discriminate|].
    injection Hx as <-. auto.
Qed.

Lemma moveaxis_raise {A} (a : ndarray A) (src dst : list Z) (e : exn) :
  moveaxis a src dst = Raise e -> e = AxisError \/ e = ValueError.
Proof.
  unfold moveaxis.
  destruct (normalize_axis_tuple (ndim a) src) as [s|e1] eqn:Es; simpl.
  2:{ intros E. injection E as <-. eapply normalize_axis_tuple_raise, Es. }
  destruct (normalize_axis_tuple (ndim a) dst) as [t|e2] eqn:Et; simpl.
  2:{ intros E. injection E as <-. eapply normalize_axis_tuple_raise, Et. }
  destruct (negb _); [intros E; injection E as <-; auto|].
  unfold transpose. destruct (andb _ _); [discriminate|].
  intros E; injection E as <-; auto.
Qed.

Lemma length_replace_nth {A} (n : nat) (v : A) (l : list A) :
  length (replace_nth n v l) = length l.
Proof.
  revert n; induction l as [|x l IH]; intros [|n]; simpl; auto.
Qed.

Lemma length_arange (n : nat) : length (arange n) = n.
Proof. unfold arange. rewrite length_map, length_seq. reflexivity. Qed.

Lemma apply_chords_index_error (im : ndarray bool) (sp ax : Z) (trim : bool) :
  (0 <= sp)%Z ->
  (apply_chords im sp ax trim = Raise IndexError
   <-> (ax < - Z.of_nat (ndim im) \/ Z.of_nat (ndim im) <= ax)%Z).
Proof.
  intros Hsp. unfold apply_chords. replace (sp <? 0)%Z with false by lia.
  generalize (Z.to_nat (4 + 2 * sp)); intros st.
  unfold setitem at 1. rewrite length_arange.
  destruct (andb _ _) eqn:Hax.
  - apply andb_true_iff in Hax as [H1 H2]. apply Z.leb_le in H1. apply Z.ltb_lt in H2.
    split; [|lia]. intros E. exfalso. revert E.
    cbn [bind]. unfold setitem. rewrite length_replace_nth, length_arange.
    replace ((- Z.of_nat (ndim im) <=? 0)%Z && (0 <? Z.of_nat (ndim im))%Z) with true
      by (symmetry; apply andb_true_iff; split; [apply Z.leb_le|apply Z.ltb_lt]; lia).
    cbn [bind].
    destruct (moveaxis im _ _) as [im'|e] eqn:Em; cbn [bind].
    2:{ intros E. injection E as ->. apply moveaxis_raise in Em as [|]; discriminate. }
    destruct trim.
    + destruct (clear_border _) as [c|e] eqn:Ec; cbn [bind].
      * intros E. apply moveaxis_raise in E as [|]; discriminate.
      * intros E. injection E as ->.
        apply clear_border_raise in Ec as [[? _]|[? _]]; discriminate.
    + cbn [bind]. intros E. apply moveaxis_raise in E as [|]; discriminate.
  - cbn [bind]. split; [|reflexivity]. intros _.
    apply andb_false_iff in Hax as [H|H]; [apply Z.leb_gt in H|apply Z.ltb_ge in H]; lia.
Qed.

Lemma apply_chords_negative_axis_3d (d : index -> bool) (s0 s1 s2 : nat)
      (sp ax : Z) (trim : bool) :
  (-3 <= ax < 0)%Z ->
  apply_chords {| shape := [s0; s1; s2]; data := d |} sp ax trim
  = apply_chords {| shape := [s0; s1; s2]; data := d |} sp (ax + 3) trim.
Proof.
  intros Hax. unfold apply_chords. destruct (sp <? 0)%Z; [reflexivity|].
  generalize (Z.to_nat (4 + 2 * sp)); intros st.
  assert (Hcases : ax = (-3)%Z \/ ax = (-2)%Z \/ ax = (-1)%Z) by lia.
  destruct Hcases as [-> | [-> | ->]];
    unfold_arrays;
    destruct (s0 =? 1) eqn:E0, (s1 =? 1) eqn:E1, (s2 =? 1) eqn:E2, trim; simpl;
    split_trim; unfold moveaxis; simpl; reflexivity.
Qed.

Lemma apply_chords_negative_axis_2d (d : index -> bool) (s0 s1 : nat)
      (sp ax : Z) (trim : bool) :
  (-2 <= ax < 0)%Z ->
  apply_chords {| shape := [s0; s1]; data := d |} sp ax trim
  = apply_chords {| shape := [s0; s1]; data := d |} sp (ax + 2) trim.
Proof.
  intros Hax. unfold apply_chords. destruct (sp <? 0)%Z; [reflexivity|].
  generalize (Z.to_nat (4 + 2 * sp)); intros st.
  assert (Hcases : ax = (-2)%Z \/ ax = (-1)%Z) by lia.
  destruct Hcases as [-> | ->];
    unfold_arrays;
    destruct (s0 =? 1) eqn:E0, (s1 =? 1) eqn:E1, trim; simpl;
    split_trim; unfold moveaxis; simpl; reflexivity.
Qed.

(** * Chords of the fully void 10 x 10 grid *)

Lemma in_bounds_10x10 (i j : nat) : i < 10 -> j < 10 -> in_bounds [i; j] [10; 10] = true.
Proof.
  intros Hi Hj. apply in_bounds_cons. split; [lia|].
  apply in_bounds_cons. split; [lia|reflexivity].
Qed.

Lemma chord_columns_mod (j : nat) : j < 10 -> (j mod 4 =? 0) = chord_columns j.
Proof. intros Hj. do 10 (destruct j as [|j]; [reflexivity|]). lia. Qed.

Lemma apply_chords_void_raw (im : ndarray bool) :
  shape im = [10; 10] -> all_void im ->
  exists out, apply_chords im 0 0 false = Ok out /\ shape out = [10; 10] /\
    forall p, in_bounds p [10; 10] = true -> data out p = chord_columns (nth 1 p 0).
Proof.
  destruct im as [sh d]. unfold all_void. simpl. intros -> Hv.
  unfold apply_chords. simpl.
  eexists. split; [reflexivity|]. split; [reflexivity|].
  intros p Hp. pose proof Hp as Hp2.
  apply in_bounds_2 in Hp2 as (i & j & -> & Hi & Hj).
  simpl. rewrite (Hv _ Hp).
  do 10 (destruct j as [|j]; [reflexivity|]). lia.
Qed.

(** C1.  On a fully void 10 x 10 grid,
    [apply_chords(grid, spacing=0, axis=0, trim_edges=False)] returns a
    10 x 10 mask whose cell (i, j) is marked exactly when the column j is 0, 4
    or 8, in every one of the 10 rows: 30 marked cells and no others. *)
Theorem apply_chords_void_10x10 (im : ndarray bool) :
  shape im = [10; 10] -> all_void im ->
  exists out, apply_chords im 0 0 false = Ok out /\ shape out = [10; 10] /\
    (forall i j, i < 10 -> j < 10 -> data out [i; j] = chord_columns j) /\
    count_true (flatten out) = 30.
Proof.
  intros Hsh Hv. destruct (@apply_chords_void_raw im Hsh Hv) as (out & E & Hs & Hd).
  exists out. split; [exact E|]. split; [exact Hs|]. split.
  - intros i j Hi Hj. apply (Hd [i; j]), in_bounds_10x10; assumption.
  - unfold count_true, flatten. rewrite Hs.
    erewrite map_ext_in; [|intros p Hp; apply indices_spec in Hp; apply (Hd p Hp)].
    vm_compute. reflexivity.
Qed.

Lemma apply_chords_void_10x10_witness :
  shape void_10x10 = [10; 10] /\ all_void void_10x10
  /\ exists out, apply_chords void_10x10 0 0 false = Ok out
       /\ shape out = [10; 10]
       /\ (forall i j, i < 10 -> j < 10 -> data out [i; j] = chord_columns j)
       /\ count_true (flatten out) = 30.
Proof.
  assert (Hv : all_void void_10x10) by (intros p _; reflexivity).
  split; [reflexivity|]. split; [exact Hv|].
  apply (@apply_chords_void_10x10 void_10x10 eq_refl Hv).
Defined.

(** C2.  On the same grid with [trim_edges=True] the returned mask is empty:
    every chord of the untrimmed mask runs from the top row to the bottom
    row, so its component lies on the border and is cleared. *)
Theorem apply_chords_void_10x10_trimmed (im : ndarray bool) :
  shape im = [10; 10] -> all_void im ->
  (exists raw, apply_chords im 0 0 false = Ok raw /\
     forall i j, i < 10 -> j < 10 -> data raw [i; j] = true ->
                 data raw [0; j] = true /\ data raw [9; j] = true)
  /\ exists out, apply_chords im 0 0 true = Ok out /\ shape out = [10; 10] /\
       forall p, in_bounds p [10; 10] = true -> data out p = false.
Proof.
  intros Hsh Hv. split.
  { destruct (@apply_chords_void_raw im Hsh Hv) as (raw & E & Hs & Hd).
    exists raw. split; [exact E|]. intros i j Hi Hj.
    rewrite (Hd [i; j]), (Hd [0; j]), (Hd [9; j]) by (apply in_bounds_10x10; lia).
    simpl. auto. }
  destruct im as [sh d]. unfold all_void in Hv. simpl in Hsh, Hv. subst sh.
  unfold apply_chords. with_strategy opaque [label] simpl.
  match goal with |- context [clear_border (fst (label ?a))] => set (X := a) end.
  pose (X' := {| shape := [10; 10]; data := fun p => chord_columns (nth 1 p 0) |}).
  assert (HX : forall p, in_bounds p (shape X) = true -> data X p = data X' p).
  { intros p Hp. pose proof Hp as Hp2.
    apply in_bounds_2 in Hp2 as (i & j & -> & Hi & Hj).
    subst X. simpl. rewrite (Hv _ Hp).
    do 10 (destruct j as [|j]; [reflexivity|]). lia. }
  pose proof (cleared_label_ext X X' eq_refl HX) as Hc.
  assert (Hc' : exists c', clear_border (fst (label X')) = Ok c' /\ shape c' = [10; 10] /\
     forall p, in_bounds p [10; 10] = true -> data c' p = 0).
  { eexists. split; [vm_compute; reflexivity|]. split; [reflexivity|].
    intros p Hp. apply Nat.eqb_eq. revert p Hp.
    match goal with |- forall p, _ -> (data ?c p =? 0) = true =>
      apply (proj1 (forallb_indices (fun p => data c p =? 0) [10; 10])) end.
    vm_compute. reflexivity. }
  destruct Hc' as (c' & Ec' & Hsc' & Hc'). rewrite Ec' in Hc.
  destruct (clear_border (fst (label X))) as [c|e]; [|contradiction].
  destruct Hc as [Hsc Hdc]. simpl.
  destruct c as [shc dc]. simpl in Hsc, Hdc. rewrite Hsc' in Hsc. subst shc.
  eexists. split; [reflexivity|]. split; [reflexivity|].
  intros p Hp. pose proof Hp as Hp2.
  apply in_bounds_2 in Hp2 as (i & j & -> & Hi & Hj).
  simpl. rewrite Hdc, (Hc' _ Hp). reflexivity.
Qed.

Lemma apply_chords_void_10x10_trimmed_witness :
  shape void_10x10 = [10; 10] /\ all_void void_10x10
  /\ exists out, apply_chords void_10x10 0 0 true = Ok out
       /\ shape out = [10; 10]
       /\ forall p, in_bounds p [10; 10] = true -> data out p = false.
Proof.
  assert (Hv : all_void void_10x10) by (intros p _; reflexivity).
  split; [reflexivity|]. split; [exact Hv|].
  apply (proj2 (@apply_chords_void_10x10_trimmed void_10x10 eq_refl Hv)).
Defined.

(** * Shape and content of the mask returned by [apply_chords] *)

Lemma ndim_2_or_3 {A} (im : ndarray A) :
  ndim im = 2 \/ ndim im = 3 ->
  (exists d s0 s1, im = {| shape := [s0; s1]; data := d |})
  \/ (exists d s0 s1 s2, im = {| shape := [s0; s1; s2]; data := d |}).
Proof.
  destruct im as [sh d]. unfold ndim. simpl.
  destruct sh as [|s0 [|s1 [|s2 [|s3 sh]]]]; simpl; intros [H|H]; try discriminate.
  - left. eauto.
  - right. eauto.
Qed.

Lemma apply_chords_inv (im : ndarray bool) (sp ax : Z) (trim : bool) (out : ndarray bool) :
  ndim im = 2 \/ ndim im = 3 ->
  apply_chords im sp ax trim = Ok out ->
  shape out = shape im /\
  forall p, in_bounds p (shape im) = true -> data out p = true -> data im p = true.
Proof.
  intros Hk E. apply ndim_2_or_3 in Hk as [(d & s0 & s1 & ->)|(d & s0 & s1 & s2 & ->)].
  - eapply apply_chords_2d_inv, E.
  - eapply apply_chords_3d_inv, E.
Qed.

Lemma apply_chords_ok (im : ndarray bool) (sp ax : Z) (trim : bool) :
  ndim im = 2 \/ ndim im = 3 ->
  (0 <= sp)%Z -> (- Z.of_nat (ndim im) <= ax < Z.of_nat (ndim im))%Z ->
  no_extent 1 (shape im) = true ->
  (trim = true -> no_extent 0 (shape im) = true) ->
  exists out, apply_chords im sp ax trim = Ok out.
Proof.
  intros Hk. apply ndim_2_or_3 in Hk as [(d & s0 & s1 & ->)|(d & s0 & s1 & s2 & ->)];
    unfold ndim; simpl shape; simpl length; intros Hsp Hax H1 H0.
  - apply apply_chords_2d_ok; auto; lia.
  - apply apply_chords_3d_ok; auto; lia.
Qed.

(** The shape is kept on every grid of two or three axes none of which has
    extent 1 (and, with trimming, none of which is empty). *)
Lemma apply_chords_shape (im : ndarray bool) (sp ax : Z) (trim : bool) :
  ndim im = 2 \/ ndim im = 3 ->
  (0 <= sp)%Z -> (- Z.of_nat (ndim im) <= ax < Z.of_nat (ndim im))%Z ->
  no_extent 1 (shape im) = true ->
  (trim = true -> no_extent 0 (shape im) = true) ->
  exists out, apply_chords im sp ax trim = Ok out /\ shape out = shape im.
Proof.
  intros Hk Hsp Hax H1 H0.
  destruct (@apply_chords_ok im sp ax trim Hk Hsp Hax H1 H0) as [out E].
  exists out. split; [exact E|]. eapply apply_chords_inv; eassumption.
Qed.

Ltac zero_free H0 :=
  unfold no_extent in H0; simpl in H0; apply negb_true_iff in H0;
  repeat (let Z := fresh "Z" in apply orb_false_iff in H0 as [Z H0]).

Ltac trim_singleton :=
  match goal with
  | |- context [clear_border ?l] =>
      let c := fresh "c" in let e := fresh "e" in let Ec := fresh "Ec" in
      destruct (clear_border l) as [c|e] eqn:Ec;
      [ apply clear_border_ok in Ec; simpl in Ec;
        let shc := fresh "shc" in let dc := fresh "dc" in
        destruct c as [shc dc]; simpl in Ec; subst shc; simpl
      | apply clear_border_raise in Ec as [[_ Ec]|[-> _]];
        [ exfalso; simpl in Ec;
          repeat match goal with Z : (_ =? 0) = false |- _ => rewrite Z in Ec end;
          discriminate
        | simpl; right; reflexivity ] ]
  | _ => idtac
  end.

(** A grid of two axes one of which has extent 1 makes [apply_chords]
    fail, whatever the axis and the spacing: [squeeze] leaves fewer axes
    than the second [moveaxis] is told to move; with trimming, a grid of
    one cell fails earlier, in [clear_border], which is given an image
    without axes. *)
Lemma apply_chords_2d_singleton (d : index -> bool) (s0 s1 : nat) (sp ax : Z) (trim : bool) :
  (0 <= sp)%Z -> (-2 <= ax < 2)%Z ->
  no_extent 1 [s0; s1] = false -> no_extent 0 [s0; s1] = true ->
  apply_chords {| shape := [s0; s1]; data := d |} sp ax trim = Raise AxisError
  \/ apply_chords {| shape := [s0; s1]; data := d |} sp ax trim = Raise NotImplementedError.
Proof.
  intros Hsp Hax H1 H0. zero_free H0.
  unfold no_extent in H1. simpl in H1. apply negb_false_iff in H1.
  unfold apply_chords. replace (sp <? 0)%Z with false by lia.
  generalize (Z.to_nat (4 + 2 * sp)); intros st.
  assert (Hcases : ax = (-2)%Z \/ ax = (-1)%Z \/ ax = 0%Z \/ ax = 1%Z) by lia.
  destruct Hcases as [-> | [-> | [-> | ->]]];
    unfold_arrays;
    destruct (s0 =? 1) eqn:E0, (s1 =? 1) eqn:E1; try discriminate;
    destruct trim; simpl; trim_singleton; unfold moveaxis; simpl;
    first [left; reflexivity | right; reflexivity].
Qed.

Lemma apply_chords_3d_singleton (d : index -> bool) (s0 s1 s2 : nat) (sp ax : Z)
      (trim : bool) :
  (0 <= sp)%Z -> (-3 <= ax < 3)%Z ->
  no_extent 1 [s0; s1; s2] = false -> no_extent 0 [s0; s1; s2] = true ->
  apply_chords {| shape := [s0; s1; s2]; data := d |} sp ax trim = Raise AxisError
  \/ apply_chords {| shape := [s0; s1; s2]; data := d |} sp ax trim
     = Raise NotImplementedError.
Proof.
  intros Hsp Hax H1 H0. zero_free H0.
  unfold no_extent in H1. simpl in H1. apply negb_false_iff in H1.
  unfold apply_chords. replace (sp <? 0)%Z with false by lia.
  generalize (Z.to_nat (4 + 2 * sp)); intros st.
  assert (Hcases : ax = (-3)%Z \/ ax = (-2)%Z \/ ax = (-1)%Z
                   \/ ax = 0%Z \/ ax = 1%Z \/ ax = 2%Z) by lia.
  destruct Hcases as [-> | [-> | [-> | [-> | [-> | ->]]]]];
    unfold_arrays;
    destruct (s0 =? 1) eqn:E0, (s1 =? 1) eqn:E1, (s2 =? 1) eqn:E2; try discriminate;
    destruct trim; simpl; trim_singleton; unfold moveaxis; simpl;
    first [left; reflexivity | right; reflexivity].
Qed.

(** On a non-empty grid of two or three axes, with a spacing >= 0 and an
    axis in range, [apply_chords] fails exactly when an axis has extent 1. *)
Lemma apply_chords_fails_iff_singleton (im : ndarray bool) (sp ax : Z) (trim : bool) :
  ndim im = 2 \/ ndim im = 3 ->
  (0 <= sp)%Z -> (- Z.of_nat (ndim im) <= ax < Z.of_nat (ndim im))%Z ->
  no_extent 0 (shape im) = true ->
  (is_ok (apply_chords im sp ax trim) = false <-> no_extent 1 (shape im) = false)
  /\ (no_extent 1 (shape im) = false ->
      apply_chords im sp ax trim = Raise AxisError
      \/ apply_chords im sp ax trim = Raise NotImplementedError).
Proof.
  intros Hk Hsp Hax H0.
  assert (Hs : no_extent 1 (shape im) = false ->
               apply_chords im sp ax trim = Raise AxisError
               \/ apply_chords im sp ax trim = Raise NotImplementedError).
  { intros H1.
    apply ndim_2_or_3 in Hk as [(d & s0 & s1 & ->)|(d & s0 & s1 & s2 & ->)];
      unfold ndim in Hax; simpl in Hax.
    + apply apply_chords_2d_singleton; auto; lia.
    + apply apply_chords_3d_singleton; auto; lia. }
  split; [|exact Hs]. split.
  - intros E. destruct (no_extent 1 (shape im)) eqn:H1; [|reflexivity].
    destruct (@apply_chords_ok im sp ax trim Hk Hsp Hax H1 (fun _ => H0)) as [out Eo].
    rewrite Eo in E. discriminate.
  - intros H1. destruct (Hs H1) as [-> | ->]; reflexivity.
Qed.

(** C5.  The shape is not kept on a grid with an axis of extent 1: [squeeze]
    removes that axis together with the one added by [atleast_3d], and the
    second [moveaxis] then finds fewer axes than it is told to move.  Nothing
    is returned for the 1 x 5 grid, nor for the 5 x 5 x 1 grid. *)
Theorem apply_chords_singleton_extent_raises :
  apply_chords (void_grid [1; 5]) 0 0 false = Raise AxisError
  /\ apply_chords (void_grid [5; 5; 1]) 0 0 false = Raise AxisError
  /\ apply_chords (void_grid [1; 5]) 0 0 true = Raise AxisError.
Proof. repeat split; vm_compute; reflexivity. Qed.

(** The claim C6 fails for a negative axis: on a 2 x 2 grid the axis -1, which
    lies outside [0, 2), is accepted and gives the chords of axis 1. *)
Lemma apply_chords_negative_axis_accepted :
  ~ (0 <= -1 < 2)%Z
  /\ apply_chords (void_grid [2; 2]) 0 (-1) false = apply_chords (void_grid [2; 2]) 0 1 false
  /\ is_ok (apply_chords (void_grid [2; 2]) 0 (-1) false) = true
  /\ apply_chords (void_grid [2; 2]) 0 (-1) false <> Raise IndexError.
Proof.
  split; [lia|]. split; [apply (@apply_chords_negative_axis_2d (fun _ => true) 2 2 0 (-1) false); lia|].
  split; [vm_compute; reflexivity|]. vm_compute. discriminate.
Qed.

(** C6, amended.  With [spacing >= 0], [apply_chords] fails with the
    index-out-of-bounds IndexError, raised by [dims2[axis] = 0], exactly when
    [axis >= k] or [axis < -k] for a grid of [k] axes; on a grid of two or
    three axes a negative axis in [[-k, 0)] is not rejected and stands for
    the axis [axis + k]. *)
Theorem apply_chords_axis_range (im : ndarray bool) (sp ax : Z) (trim : bool) :
  (0 <= sp)%Z ->
  (apply_chords im sp ax trim = Raise IndexError
   <-> (ax < - Z.of_nat (ndim im) \/ Z.of_nat (ndim im) <= ax)%Z)
  /\ (ndim im = 2 \/ ndim im = 3 ->
      (- Z.of_nat (ndim im) <= ax < 0)%Z ->
      apply_chords im sp ax trim = apply_chords im sp (ax + Z.of_nat (ndim im)) trim).
Proof.
  intros Hsp. split; [apply apply_chords_index_error, Hsp|].
  intros Hk. apply ndim_2_or_3 in Hk as [(d & s0 & s1 & ->)|(d & s0 & s1 & s2 & ->)];
    unfold ndim; simpl shape; simpl length; intros Hax.
  - apply apply_chords_negative_axis_2d. lia.
  - apply apply_chords_negative_axis_3d. lia.
Qed.

Lemma apply_chords_axis_range_witness :
  (0 <= 0)%Z
  /\ apply_chords void_2x2 0 2 false = Raise IndexError
  /\ apply_chords void_2x2 0 (-2) true = apply_chords void_2x2 0 0 true.
Proof.
  split; [lia|]. split.
  - apply (proj1 (@apply_chords_axis_range void_2x2 0 2 false ltac:(lia))).
    right. simpl. lia.
  - apply (proj2 (@apply_chords_axis_range void_2x2 0 (-2) true ltac:(lia))).
    + left. reflexivity.
    + simpl. lia.
Defined.

(** * The three sampling patterns of [apply_chords_3D] *)

Lemma in_slice_spec (s : slice) (c : nat) :
  0 < step s ->
  (in_slice s c = true <-> exists m, c = start s + step s * m).
Proof.
  intros Hs. unfold in_slice. rewrite andb_true_iff, Nat.leb_le, Nat.eqb_eq.
  split.
  - intros [H1 H2]. apply Nat.Div0.mod_divides in H2 as [m Hm]. exists m. lia.
  - intros [m ->]. split; [lia|].
    replace (start s + step s * m - start s) with (m * step s) by lia.
    apply Nat.Div0.mod_mul.
Qed.

Lemma in_slice_0_2_disjoint (st c : nat) :
  4 <= st -> in_slice (mk_slice 0 st) c = true -> in_slice (mk_slice 2 st) c = true -> False.
Proof.
  intros Hst H0 H2.
  apply in_slice_spec in H0 as [a Ha]; [|simpl; lia].
  apply in_slice_spec in H2 as [b Hb]; [|simpl; lia].
  simpl in Ha, Hb. subst c.
  assert (b < a) by nia. nia.
Qed.

Lemma patterns_disjoint (st : nat) (p : index) :
  4 <= st ->
  (selected (x_pattern st) p && selected (y_pattern st) p = false)
  /\ (selected (x_pattern st) p && selected (z_pattern st) p = false)
  /\ (selected (y_pattern st) p && selected (z_pattern st) p = false).
Proof.
  intros Hst. destruct p as [|i [|j [|k p]]]; simpl; auto.
  - rewrite !andb_false_r. auto.
  - rewrite !andb_false_r. auto.
  - destruct (in_slice (mk_slice 0 st) i) eqn:Ei0, (in_slice (mk_slice 2 st) i) eqn:Ei2;
      try (exfalso; eapply in_slice_0_2_disjoint; eassumption);
    destruct (in_slice (mk_slice 0 st) j) eqn:Ej0, (in_slice (mk_slice 2 st) j) eqn:Ej2;
      try (exfalso; eapply in_slice_0_2_disjoint; eassumption);
    destruct (in_slice (mk_slice 0 st) k) eqn:Ek0, (in_slice (mk_slice 2 st) k) eqn:Ek2;
      try (exfalso; eapply in_slice_0_2_disjoint; eassumption);
    destruct (in_slice sl_all i), (in_slice sl_all j), (in_slice sl_all k);
      simpl; auto.
Qed.

Lemma stride_ge_4 (sp : Z) : (0 <= sp)%Z -> 4 <= stride sp.
Proof. unfold stride. lia. Qed.

Lemma apply_chords_3D_inv (im : ndarray bool) (sp : Z) (trim : bool) (out : ndarray Z) :
  apply_chords_3D im sp trim = Ok out ->
  3 <= ndim im /\ (0 <= sp)%Z /\ shape out = shape im /\
  forall p, data out p = 0%Z
            \/ (data out p = pattern_label (stride sp) p /\ data im p = true).
Proof.
  unfold apply_chords_3D.
  destruct (ndim im <? 3) eqn:Hk; [discriminate|]. apply Nat.ltb_ge in Hk.
  destruct (sp <? 0)%Z eqn:Hsp; [discriminate|]. apply Z.ltb_ge in Hsp.
  fold (stride sp). fold (x_pattern (stride sp)) (y_pattern (stride sp)) (z_pattern (stride sp)).
  assert (Hcell : forall p,
    ((if selected (z_pattern (stride sp)) p then 3
      else if selected (y_pattern (stride sp)) p then 2
           else if selected (x_pattern (stride sp)) p then 1 else 0)
     * Z.b2z (data im p) = 0)%Z
    \/ ((if selected (z_pattern (stride sp)) p then 3
         else if selected (y_pattern (stride sp)) p then 2
              else if selected (x_pattern (stride sp)) p then 1 else 0)
        * Z.b2z (data im p) = pattern_label (stride sp) p /\ data im p = true)%Z).
  { intros p. destruct (data im p); [right|left; apply Z.mul_0_r].
    split; [apply Z.mul_1_r|reflexivity]. }
  destruct trim.
  - destruct (clear_border _) as [c|e] eqn:Ec; simpl; [|discriminate].
    apply clear_border_ok in Ec. simpl in Ec.
    intros E. injection E as <-. simpl. repeat split; auto.
    intros p. destruct (0 <? data c p).
    + change (Z.b2z true) with 1%Z. rewrite Z.mul_1_l. apply Hcell.
    + left. reflexivity.
  - intros E. injection E as <-. simpl. repeat split; auto.
Qed.

Lemma apply_chords_3D_ok (im : ndarray bool) (sp : Z) (trim : bool) :
  3 <= ndim im -> (0 <= sp)%Z ->
  (trim = true -> ndim im = 3 /\ no_extent 0 (shape im) = true) ->
  exists out, apply_chords_3D im sp trim = Ok out.
Proof.
  intros Hk Hsp H0. unfold apply_chords_3D.
  replace (ndim im <? 3) with false by (symmetry; apply Nat.ltb_ge; exact Hk).
  replace (sp <? 0)%Z with false by lia.
  destruct trim; [|eexists; reflexivity].
  destruct (H0 eq_refl) as [H3 Hz]. unfold no_extent in Hz. apply negb_true_iff in Hz.
  match goal with |- context [clear_border ?l] =>
    destruct (@clear_border_total l) as [c ->] end;
    [change (1 <= ndim im <= 3); lia|exact Hz|].
  eexists. reflexivity.
Qed.

(** With trimming, a grid of more than three axes none of which is empty
    fails in [clear_border]; one with an empty axis fails there too, with
    the ValueError of the size check. *)
Lemma apply_chords_3D_trim_fails (im : ndarray bool) (sp : Z) :
  3 <= ndim im -> (0 <= sp)%Z ->
  (no_extent 0 (shape im) = false -> apply_chords_3D im sp true = Raise ValueError)
  /\ (3 < ndim im -> no_extent 0 (shape im) = true ->
      apply_chords_3D im sp true = Raise NotImplementedError).
Proof.
  intros Hk Hsp. unfold apply_chords_3D, no_extent.
  replace (ndim im <? 3) with false by (symmetry; apply Nat.ltb_ge; exact Hk).
  replace (sp <? 0)%Z with false by lia.
  split.
  - intros Hz. apply negb_false_iff in Hz.
    unfold clear_border at 1. cbn [shape fst label amap amap2 assign full_like].
    rewrite Hz. reflexivity.
  - intros H4 Hz. apply negb_true_iff in Hz.
    match goal with |- context [clear_border ?l] =>
      rewrite (@clear_border_dimension l) end; [reflexivity| |exact Hz].
    change (~ 1 <= ndim im <= 3). lia.
Qed.

(** C8.  On a grid of two or three axes, whatever the axis and the spacing,
    a mask returned by [apply_chords] has the shape of the grid and marks
    only cells that are void in the grid; a mask is returned for every
    spacing >= 0 and axis in range when no axis has extent 1 (nor, with
    trimming, extent 0).  The labels of [apply_chords_3D] likewise sit on
    void cells only. *)
Theorem apply_chords_marks_only_void (im : ndarray bool) (sp ax : Z) (trim : bool) :
  ndim im = 2 \/ ndim im = 3 ->
  (forall out, apply_chords im sp ax trim = Ok out ->
     shape out = shape im /\
     forall p, in_bounds p (shape im) = true -> data out p = true -> data im p = true)
  /\ ((0 <= sp)%Z -> (0 <= ax < Z.of_nat (ndim im))%Z ->
      no_extent 1 (shape im) = true ->
      (trim = true -> no_extent 0 (shape im) = true) ->
      exists out, apply_chords im sp ax trim = Ok out)
  /\ (forall out, apply_chords_3D im sp trim = Ok out ->
      shape out = shape im /\
      forall p, data out p <> 0%Z -> data im p = true).
Proof.
  intros Hk. split; [|split].
  - intros out E. eapply apply_chords_inv; eassumption.
  - intros Hsp Hax H1 H0. apply apply_chords_ok; auto. lia.
  - intros out E. apply apply_chords_3D_inv in E as (_ & _ & Hs & Hd).
    split; [exact Hs|]. intros p Hp. destruct (Hd p) as [H0|[_ Hv]]; [contradiction|exact Hv].
Qed.

Lemma apply_chords_marks_only_void_witness :
  (ndim void_10x10 = 2 \/ ndim void_10x10 = 3)
  /\ exists out, apply_chords void_10x10 0 1 true = Ok out
       /\ shape out = [10; 10]
       /\ forall p, in_bounds p [10; 10] = true -> data out p = true ->
                    data void_10x10 p = true.
Proof.
  assert (Hk : ndim void_10x10 = 2 \/ ndim void_10x10 = 3) by (left; reflexivity).
  split; [exact Hk|].
  destruct (@apply_chords_marks_only_void void_10x10 0 1 true Hk) as (Hinv & Hok & _).
  destruct Hok as [out E]; [lia | simpl; lia | reflexivity | reflexivity |].
  exists out. split; [exact E|]. apply Hinv, E.
Defined.

(** C3.  For every spacing >= 0 the three sampling patterns of
    [apply_chords_3D] are pairwise disjoint: no index is selected by two of
    them.  Hence every cell of the array returned for a grid of three axes
    is 0, 1, 2 or 3, and a cell equal to 1, 2 or 3 is selected by the X, Y or
    Z pattern respectively and by no other; an array is returned whenever
    the grid has no empty axis (or is not trimmed). *)
Theorem apply_chords_3D_one_label (im : ndarray bool) (sp : Z) (trim : bool) :
  ndim im = 3 -> (0 <= sp)%Z ->
  let st := stride sp in
  (forall p,
      selected (x_pattern st) p && selected (y_pattern st) p = false
      /\ selected (x_pattern st) p && selected (z_pattern st) p = false
      /\ selected (y_pattern st) p && selected (z_pattern st) p = false)
  /\ (forall out, apply_chords_3D im sp trim = Ok out ->
        forall p, in_bounds p (shape im) = true ->
          (data out p = 0 \/ data out p = 1 \/ data out p = 2 \/ data out p = 3)%Z
          /\ (data out p = 1%Z ->
              selected (x_pattern st) p = true /\ selected (y_pattern st) p = false
              /\ selected (z_pattern st) p = false)
          /\ (data out p = 2%Z ->
              selected (y_pattern st) p = true /\ selected (x_pattern st) p = false
              /\ selected (z_pattern st) p = false)
          /\ (data out p = 3%Z ->
              selected (z_pattern st) p = true /\ selected (x_pattern st) p = false
              /\ selected (y_pattern st) p = false))
  /\ ((trim = true -> no_extent 0 (shape im) = true) ->
      exists out, apply_chords_3D im sp trim = Ok out).
Proof.
  intros Hk Hsp st. pose proof (stride_ge_4 Hsp) as Hst. fold st in Hst.
  split; [intros p; apply patterns_disjoint, Hst|]. split.
  - intros out E p _. apply apply_chords_3D_inv in E as (_ & _ & _ & Hd).
    destruct (patterns_disjoint p Hst) as (Hxy & Hxz & Hyz).
    specialize (Hd p). fold st in Hd. unfold pattern_label in Hd.
    destruct (selected (x_pattern st) p), (selected (y_pattern st) p),
      (selected (z_pattern st) p); simpl in Hxy, Hxz, Hyz; try discriminate;
      destruct Hd as [Hd|[Hd _]]; rewrite Hd; repeat split; auto; discriminate.
  - intros H0. apply apply_chords_3D_ok; [lia|exact Hsp|]. intros Ht. auto.
Qed.

Lemma apply_chords_3D_one_label_witness :
  ndim void_5x5x5 = 3 /\ (0 <= 0)%Z
  /\ exists out, apply_chords_3D void_5x5x5 0 true = Ok out
       /\ forall p, in_bounds p [5; 5; 5] = true ->
            (data out p = 0 \/ data out p = 1 \/ data out p = 2 \/ data out p = 3)%Z.
Proof.
  split; [reflexivity|]. split; [lia|].
  destruct (@apply_chords_3D_one_label void_5x5x5 0 true eq_refl ltac:(lia))
    as (_ & Hinv & Hok).
  destruct Hok as [out E]; [reflexivity|].
  exists out. split; [exact E|]. intros p Hp. apply (Hinv out E p Hp).
Defined.

(** The claim C7 fails for a grid of four axes: the check of the number of
    axes lets it pass.  Without trimming it is processed; with trimming it
    fails later, inside [clear_border], and not with the exception of the
    check. *)
Lemma apply_chords_3D_accepts_4d :
  ndim void_2x2x2x2 <> 3
  /\ is_ok (apply_chords_3D void_2x2x2x2 0 false) = true
  /\ apply_chords_3D void_2x2x2x2 0 true = Raise NotImplementedError
  /\ apply_chords_3D void_2x2x2x2 0 true <> Raise not_3d.
Proof.
  split; [discriminate|]. split; [vm_compute; reflexivity|].
  split; [vm_compute; reflexivity|]. vm_compute. discriminate.
Qed.

(** C7, amended.  [apply_chords_3D] raises its dimension exception exactly
    when the grid has fewer than three axes.  A grid of three axes with
    [spacing >= 0] is processed, and an array of the shape of the grid is
    returned (with trimming, provided no axis is empty).  A grid of more than
    three axes is not rejected by the check: without trimming it is
    processed like a grid of three axes; with trimming (and no empty axis)
    it fails with the NotImplementedError of the relabelling inside
    [clear_border]. *)
Theorem apply_chords_3D_dimension_error (im : ndarray bool) (sp : Z) (trim : bool) :
  (apply_chords_3D im sp trim = Raise not_3d <-> ndim im < 3)
  /\ (ndim im = 3 -> (0 <= sp)%Z ->
      (trim = true -> no_extent 0 (shape im) = true) ->
      exists out, apply_chords_3D im sp trim = Ok out /\ shape out = shape im)
  /\ (3 < ndim im -> (0 <= sp)%Z ->
      (exists out, apply_chords_3D im sp false = Ok out /\ shape out = shape im)
      /\ (no_extent 0 (shape im) = true ->
          apply_chords_3D im sp true = Raise NotImplementedError)).
Proof.
  split; [|split].
  - unfold apply_chords_3D. destruct (ndim im <? 3) eqn:Hk.
    + apply Nat.ltb_lt in Hk. split; auto.
    + apply Nat.ltb_ge in Hk. split; [|lia]. intros E. exfalso. revert E.
      destruct (sp <? 0)%Z; [discriminate|].
      destruct trim; [|discriminate].
      destruct (clear_border _) as [c|e] eqn:Ec; simpl; [discriminate|].
      apply clear_border_raise in Ec as [[-> _]|[-> _]]; discriminate.
  - intros Hk Hsp H0.
    destruct (@apply_chords_3D_ok im sp trim) as [out E]; [lia|exact Hsp|auto|].
    exists out. split; [exact E|]. apply apply_chords_3D_inv in E. tauto.
  - intros Hk Hsp. split.
    + destruct (@apply_chords_3D_ok im sp false) as [out E];
        [lia|exact Hsp|discriminate|].
      exists out. split; [exact E|]. apply apply_chords_3D_inv in E. tauto.
    + intros Hz. apply apply_chords_3D_trim_fails; auto. lia.
Qed.

(** * Two-point correlation: sample points and hits *)

Lemma mapM_ok {A B} (f : A -> result B) (l : list A) (ys : list B) :
  mapM f l = Ok ys -> Forall2 (fun x y => f x = Ok y) l ys.
Proof.
  revert ys; induction l as [|x l IH]; simpl; intros ys E.
  - injection E as <-. constructor.
  - destruct (f x) as [y|e] eqn:Ex; simpl in E; [|discriminate].
    destruct (mapM f l) as [ys'|e] eqn:El; simpl in E; [|discriminate].
    injection E as <-. constructor; auto.
Qed.

Lemma mapM_total {A B} (f : A -> result B) (l : list A) :
  (forall x, In x l -> exists y, f x = Ok y) -> exists ys, mapM f l = Ok ys.
Proof.
  induction l as [|x l IH]; simpl; intros H; [eauto|].
  destruct (H x (or_introl eq_refl)) as [y ->].
  destruct IH as [ys ->]; [intros; apply H; auto|]. simpl. eauto.
Qed.

Lemma normalize_index_ok (n : nat) (c : Z) (i : nat) :
  normalize_index n c = Ok i -> i < n.
Proof.
  unfold normalize_index. destruct (andb _ _) eqn:H; [|discriminate].
  apply andb_true_iff in H as [H1 H2]. apply Z.leb_le in H1. apply Z.ltb_lt in H2.
  intros E. injection E as <-. destruct (c <? 0)%Z eqn:Hc; lia.
Qed.

Lemma normalize_indices_ok (sh : list nat) (cs : list Z) (p : index) :
  normalize_indices sh cs = Ok p -> in_bounds p sh = true.
Proof.
  revert cs p; induction sh as [|n sh IH]; intros [|c cs] p; simpl; try discriminate.
  - intros E. injection E as <-. reflexivity.
  - destruct (normalize_index n c) as [i|e] eqn:Ei; simpl; [|discriminate].
    destruct (normalize_indices sh cs) as [q|e] eqn:Eq; simpl; [|discriminate].
    intros E. injection E as <-. apply in_bounds_cons. split.
    + eapply normalize_index_ok, Ei.
    + eapply IH, Eq.
Qed.

(** On a fully void grid every sample point is a hit. *)
Lemma getitem_pts_void (im : ndarray bool) (pts : list (ndarray Z)) (hits : list bool) :
  all_void im -> getitem_pts im pts = Ok hits -> Forall (fun h => h = true) hits.
Proof.
  intros Hv E. unfold getitem_pts in E.
  destruct (float_typed pts); [discriminate|]. apply mapM_ok in E.
  induction E as [|cs h l hs Hh _ IH]; constructor; auto.
  destruct (normalize_indices (shape im) cs) as [p|e] eqn:Ep; simpl in Hh; [|discriminate].
  injection Hh as <-. apply Hv. eapply normalize_indices_ok, Ep.
Qed.

Lemma mask_all_true {A} (hits : list bool) (l : list A) :
  Forall (fun h => h = true) hits -> length hits = length l -> mask hits l = l.
Proof.
  intros H. revert l. induction H as [|h hits -> _ IH]; intros [|x l]; simpl;
    try discriminate; auto.
  intros E. f_equal. apply IH. congruence.
Qed.

Lemma mask_rows_void {A} (m m' : list (list A)) (hits : list bool) :
  Forall (fun h => h = true) hits -> mask_rows m hits = Ok m' -> m' = m.
Proof.
  intros H. unfold mask_rows. destruct (_ =? _) eqn:E; [|discriminate].
  apply Nat.eqb_eq in E. intros E'. injection E' as <-. apply mask_all_true; auto.
Qed.

Lemma mask_cols_void {A} (m m' : list (list A)) (hits : list bool) :
  Forall (fun h => h = true) hits -> mask_cols m hits = Ok m' -> m' = m.
Proof.
  intros H. unfold mask_cols. destruct (forallb _ _) eqn:E; [|discriminate].
  intros E'. injection E' as <-. rewrite forallb_forall in E.
  rewrite <- (map_id m) at 2. apply map_ext_in. intros row Hrow.
  apply mask_all_true; auto. apply Nat.eqb_eq, E, Hrow.
Qed.

Lemma histogram_edges (m : list (list Z)) (edges : list Z) (h : list Z * list Z) :
  histogram m edges = Ok h -> h = (bin_counts (concat m) edges, edges).
Proof.
  unfold histogram. destruct (increasing edges); [|discriminate]. congruence.
Qed.

Lemma two_point_histograms_void (im : ndarray bool) (sp : Z)
      (h1 h2 : list Z * list Z) :
  all_void im -> two_point_histograms im sp = Ok (h1, h2) -> h1 = h2.
Proof.
  intros Hv. unfold two_point_histograms.
  destruct (match shape im with [] => _ | _ => _ end) as [[pts crds]|e]; simpl;
    [|discriminate].
  destruct (getitem_pts im pts) as [hits|e] eqn:Eh; simpl; [|discriminate].
  eapply getitem_pts_void in Eh; [|exact Hv].
  destruct (mask_rows _ hits) as [m1|e] eqn:E1; simpl; [|discriminate].
  eapply mask_rows_void in E1; [|exact Eh]. subst m1.
  destruct (py_range _ sp) as [bins|e]; simpl; [|discriminate].
  destruct (histogram _ bins) as [g1|e] eqn:Eg1; simpl; [|discriminate].
  destruct (mask_cols _ hits) as [m2|e] eqn:E2; simpl; [|discriminate].
  eapply mask_cols_void in E2; [|exact Eh]. subst m2.
  destruct (histogram _ (snd g1)) as [g2|e] eqn:Eg2; simpl; [|discriminate].
  intros E. injection E as <- <-.
  apply histogram_edges in Eg1, Eg2. subst g1. simpl in Eg2. exact (eq_sym Eg2).
Qed.

Lemma true_divide_same (a : Z) : a <> 0%Z -> true_divide a a = Qnum 1.
Proof.
  intros Ha. unfold true_divide. apply Z.eqb_neq in Ha. rewrite Ha. f_equal.
  change 1%Q with (Qred 1). apply Qred_complete.
  apply Qmult_inv_r. unfold Qeq. simpl. apply Z.eqb_neq in Ha. lia.
Qed.

Lemma zip_with_same (l : list Z) :
  Forall2 (fun a r => a <> 0%Z -> r = Qnum 1) l (zip_with true_divide l l).
Proof.
  induction l as [|a l IH]; simpl; constructor; auto.
  apply true_divide_same.
Qed.

(** * Two-point correlation: the sampling succeeds for a positive spacing
      on a grid without an empty axis *)

Lemma py_range_total (stop sp : Z) : sp <> 0%Z -> exists l, py_range stop sp = Ok l.
Proof.
  intros H. unfold py_range. apply Z.eqb_neq in H. rewrite H. eauto.
Qed.

Lemma py_range_bounds (stop sp : Z) (l : list Z) :
  (0 < sp)%Z -> py_range stop sp = Ok l -> forall c, In c l -> (0 <= c < stop)%Z.
Proof.
  intros Hsp. unfold py_range.
  replace (sp =? 0)%Z with false by lia. replace (0 <? sp)%Z with true by lia.
  intros E. injection E as <-. intros c Hc.
  apply in_map_iff in Hc as (i & <- & Hi). apply in_seq in Hi.
  assert (Hn : (Z.of_nat i < (stop + sp - 1) / sp)%Z) by lia.
  assert (Hm : (sp * ((stop + sp - 1) / sp) <= stop + sp - 1)%Z)
    by (apply Z.mul_div_le; lia).
  nia.
Qed.

Lemma increasing_scaled (sp : Z) (n s : nat) :
  (0 < sp)%Z -> increasing (map (fun i => (Z.of_nat i * sp)%Z) (seq s n)) = true.
Proof.
  intros Hsp. revert s. induction n as [|n IH]; intros s; [reflexivity|].
  destruct n as [|n]; [reflexivity|].
  specialize (IH (S s)). cbn [seq map increasing] in IH |- *.
  rewrite IH, andb_true_r. apply Z.leb_le. nia.
Qed.

Lemma py_range_increasing (stop sp : Z) (l : list Z) :
  (0 < sp)%Z -> py_range stop sp = Ok l -> increasing l = true.
Proof.
  intros Hsp. unfold py_range.
  replace (sp =? 0)%Z with false by lia. replace (0 <? sp)%Z with true by lia.
  intros E. injection E as <-. apply increasing_scaled, Hsp.
Qed.

Lemma normalize_index_total (n : nat) (c : Z) :
  (0 <= c < Z.of_nat n)%Z -> exists i, normalize_index n c = Ok i.
Proof.
  intros H. unfold normalize_index.
  replace (andb _ _) with true; [eauto|].
  symmetry. apply andb_true_iff. split; [apply Z.leb_le|apply Z.ltb_lt]; lia.
Qed.

Lemma normalize_indices_total (sh : list nat) (cs : list Z) :
  Forall2 (fun n c => (0 <= c < Z.of_nat n)%Z) sh cs ->
  exists p, normalize_indices sh cs = Ok p.
Proof.
  induction 1 as [|n c sh cs Hc _ [p IH]]; simpl; [eauto|].
  destruct (@normalize_index_total _ _ Hc) as [i ->]. rewrite IH. simpl. eauto.
Qed.

Lemma nth_flatten {A} (a : ndarray A) (i : nat) (d : A) :
  i < length (indices (shape a)) ->
  exists p, in_bounds p (shape a) = true /\ nth i (flatten a) d = data a p.
Proof.
  intros Hi. exists (nth i (indices (shape a)) []). split.
  - apply indices_spec, nth_In, Hi.
  - unfold flatten. rewrite (nth_indep _ d (data a [])) by (rewrite length_map; exact Hi).
    apply map_nth.
Qed.

Lemma length_flatten {A} (a : ndarray A) :
  length (flatten a) = length (indices (shape a)).
Proof. unfold flatten. apply length_map. Qed.

Lemma getitem_pts_total_2d (im : ndarray bool) (s0 s1 : nat) (l0 l1 : list Z) :
  shape im = [s0; s1] -> l0 <> [] -> l1 <> [] ->
  (forall c, In c l0 -> (0 <= c < Z.of_nat s0)%Z) ->
  (forall c, In c l1 -> (0 <= c < Z.of_nat s1)%Z) ->
  exists hits, getitem_pts im (meshgrid2 l0 l1) = Ok hits.
Proof.
  intros Hsh N0 N1 H0 H1. unfold getitem_pts.
  replace (float_typed (meshgrid2 l0 l1)) with false
    by (destruct l0, l1; try contradiction; reflexivity).
  apply mapM_total. intros cs Hcs.
  unfold meshgrid2, vstack_T in Hcs. cbn [map] in Hcs.
  apply in_map_iff in Hcs as (i & <- & Hi). apply in_seq in Hi.
  rewrite length_flatten in Hi. cbn [shape] in Hi.
  cbn [map].
  destruct (@nth_flatten Z {| shape := [length l1; length l0];
                              data := fun p => nth (nth 1 p 0) l0 0%Z |} i 0%Z)
    as (p & Hp & ->); [cbn [shape]; lia|].
  destruct (@nth_flatten Z {| shape := [length l1; length l0];
                              data := fun p => nth (nth 0 p 0) l1 0%Z |} i 0%Z)
    as (q & Hq & ->); [cbn [shape]; lia|].
  cbn [shape data] in *.
  apply in_bounds_2 in Hp as (a & b & -> & Ha & Hb).
  apply in_bounds_2 in Hq as (a' & b' & -> & Ha' & Hb').
  cbn [nth]. rewrite Hsh.
  destruct (@normalize_indices_total [s0; s1] [nth b l0 0%Z; nth a' l1 0%Z]) as [r ->].
  - constructor; [apply H0, nth_In; assumption|].
    constructor; [apply H1, nth_In; assumption|]. constructor.
  - simpl. eauto.
Qed.

Lemma getitem_pts_total_3d (im : ndarray bool) (s0 s1 s2 : nat) (l0 l1 l2 : list Z) :
  shape im = [s0; s1; s2] -> l0 <> [] -> l1 <> [] -> l2 <> [] ->
  (forall c, In c l0 -> (0 <= c < Z.of_nat s0)%Z) ->
  (forall c, In c l1 -> (0 <= c < Z.of_nat s1)%Z) ->
  (forall c, In c l2 -> (0 <= c < Z.of_nat s2)%Z) ->
  exists hits, getitem_pts im (meshgrid3 l0 l1 l2) = Ok hits.
Proof.
  intros Hsh N0 N1 N2 H0 H1 H2. unfold getitem_pts.
  replace (float_typed (meshgrid3 l0 l1 l2)) with false
    by (destruct l0, l1, l2; try contradiction; reflexivity).
  apply mapM_total. intros cs Hcs.
  unfold meshgrid3, vstack_T in Hcs. cbn [map] in Hcs.
  apply in_map_iff in Hcs as (i & <- & Hi). apply in_seq in Hi.
  rewrite length_flatten in Hi. cbn [shape] in Hi.
  cbn [map].
  destruct (@nth_flatten Z {| shape := [length l1; length l0; length l2];
                              data := fun p => nth (nth 1 p 0) l0 0%Z |} i 0%Z)
    as (p & Hp & ->); [cbn [shape]; lia|].
  destruct (@nth_flatten Z {| shape := [length l1; length l0; length l2];
                              data := fun p => nth (nth 0 p 0) l1 0%Z |} i 0%Z)
    as (q & Hq & ->); [cbn [shape]; lia|].
  destruct (@nth_flatten Z {| shape := [length l1; length l0; length l2];
                              data := fun p => nth (nth 2 p 0) l2 0%Z |} i 0%Z)
    as (r & Hr & ->); [cbn [shape]; lia|].
  cbn [shape data] in *.
  apply in_bounds_3 in Hp as (a & b & c & -> & Ha & Hb & Hc).
  apply in_bounds_3 in Hq as (a' & b' & c' & -> & Ha' & Hb' & Hc').
  apply in_bounds_3 in Hr as (a'' & b'' & c'' & -> & Ha'' & Hb'' & Hc'').
  cbn [nth]. rewrite Hsh.
  destruct (@normalize_indices_total [s0; s1; s2]
              [nth b l0 0%Z; nth a' l1 0%Z; nth c'' l2 0%Z]) as [t ->].
  - constructor; [apply H0, nth_In; assumption|].
    constructor; [apply H1, nth_In; assumption|].
    constructor; [apply H2, nth_In; assumption|]. constructor.
  - simpl. eauto.
Qed.

Lemma length_mapM {A B} (f : A -> result B) (l : list A) (ys : list B) :
  mapM f l = Ok ys -> length ys = length l.
Proof. intros E. apply mapM_ok in E. symmetry. eapply Forall2_length, E. Qed.

Lemma mask_incl {A} (hits : list bool) (l : list A) (x : A) :
  In x (mask hits l) -> In x l.
Proof.
  revert l; induction hits as [|h hits IH]; intros [|y l]; simpl; try tauto.
  destruct h; simpl; intros H; [destruct H; auto|auto].
Qed.

(** The part of [two_point_histograms] after the sample points are known
    never fails for a positive spacing. *)
Lemma two_point_tail_total (im : ndarray bool) (sp : Z) (pts : list (ndarray Z)) :
  (0 < sp)%Z ->
  (exists hits, getitem_pts im pts = Ok hits) ->
  let crds := vstack_T (map (@flatten Z) pts) in
  exists h,
    (hits <- getitem_pts im pts ;;
     dmat <- mask_rows (cdist crds crds) hits ;;
     bins <- py_range (Z.of_nat (amin_shape (shape im)) / 2)%Z sp ;;
     h1 <- histogram dmat bins ;;
     dmat <- mask_cols dmat hits ;;
     h2 <- histogram dmat (snd h1) ;;
     Ok (h1, h2)) = Ok h.
Proof.
  intros Hsp [hits Eh] crds. rewrite Eh. cbn [bind].
  assert (Hlen : length hits = length crds).
  { unfold getitem_pts in Eh. destruct (float_typed pts); [discriminate|].
    apply length_mapM in Eh. exact Eh. }
  unfold mask_rows. unfold cdist at 1. rewrite length_map, Hlen, Nat.eqb_refl. cbn [bind].
  destruct (@py_range_total (Z.of_nat (amin_shape (shape im)) / 2) sp) as [bins Eb]; [lia|].
  rewrite Eb. cbn [bind].
  unfold histogram at 1. rewrite (@py_range_increasing _ _ _ Hsp Eb). cbn [bind].
  unfold mask_cols.
  replace (forallb _ _) with true.
  2:{ symmetry. apply forallb_forall. intros row Hrow. apply mask_incl in Hrow.
      unfold cdist in Hrow. apply in_map_iff in Hrow as (a & <- & _).
      rewrite length_map. apply Nat.eqb_eq, Hlen. }
  cbn [bind snd]. unfold histogram. rewrite (@py_range_increasing _ _ _ Hsp Eb). cbn [bind].
  eauto.
Qed.

(** A range with a positive step over a non-empty axis holds its start. *)
Lemma py_range_nonempty (stop sp : Z) (l : list Z) :
  (0 < sp)%Z -> (0 < stop)%Z -> py_range stop sp = Ok l -> l <> [].
Proof.
  intros Hsp Hst. unfold py_range.
  replace (sp =? 0)%Z with false by lia. replace (0 <? sp)%Z with true by lia.
  intros E. injection E as <-.
  assert (Hn : (1 <= (stop + sp - 1) / sp)%Z) by (apply Z.div_le_lower_bound; lia).
  destruct (Z.to_nat ((stop + sp - 1) / sp)) eqn:En; [lia|]. discriminate.
Qed.

(** A range with a negative step never leaves its start 0 for a stop >= 0. *)
Lemma py_range_negative_step (stop sp : Z) :
  (sp < 0)%Z -> (0 <= stop)%Z -> py_range stop sp = Ok [].
Proof.
  intros Hsp Hst. unfold py_range.
  replace (sp =? 0)%Z with false by lia. replace (0 <? sp)%Z with false by lia.
  assert (Hn : ((- stop - sp - 1) / (- sp) <= 0)%Z).
  { apply Z.lt_succ_r. apply Z.div_lt_upper_bound; lia. }
  replace (Z.to_nat ((- stop - sp - 1) / (- sp))) with 0 by lia. reflexivity.
Qed.

Lemma no_extent_0_cons (s : nat) (sh : list nat) :
  no_extent 0 (s :: sh) = true <-> 0 < s /\ no_extent 0 sh = true.
Proof.
  unfold no_extent. cbn [existsb]. rewrite negb_orb, andb_true_iff, negb_true_iff.
  rewrite Nat.eqb_neq. split; intros [H0 H1]; (split; [lia|exact H1]).
Qed.

Lemma no_extent_0_ge2 (sh : list nat) :
  Forall (fun s => 2 <= s) sh -> no_extent 0 sh = true.
Proof.
  induction 1 as [|s sh Hs _ IH]; [reflexivity|].
  apply no_extent_0_cons. split; [lia|exact IH].
Qed.

Lemma two_point_histograms_total (im : ndarray bool) (sp : Z) :
  ndim im = 2 \/ ndim im = 3 -> (0 < sp)%Z -> no_extent 0 (shape im) = true ->
  exists h, two_point_histograms im sp = Ok h.
Proof.
  intros Hk Hsp Hne. unfold two_point_histograms.
  destruct (shape im) as [|s0 [|s1 [|s2 [|s3 sh]]]] eqn:Hsh;
    unfold ndim in Hk; rewrite Hsh in Hk; simpl in Hk;
    try (exfalso; destruct Hk; discriminate).
  - apply no_extent_0_cons in Hne as [P0 Hne]. apply no_extent_0_cons in Hne as [P1 _].
    destruct (@py_range_total (Z.of_nat s0) sp) as [l0 E0]; [lia|].
    destruct (@py_range_total (Z.of_nat s1) sp) as [l1 E1]; [lia|].
    rewrite E0, E1. cbn [bind fst snd]. rewrite <- Hsh.
    apply two_point_tail_total; [exact Hsp|].
    apply (@getitem_pts_total_2d im s0 s1); auto;
      first [eapply py_range_nonempty; [exact Hsp| |eassumption]; lia
            |eapply py_range_bounds; eassumption].
  - apply no_extent_0_cons in Hne as [P0 Hne]. apply no_extent_0_cons in Hne as [P1 Hne].
    apply no_extent_0_cons in Hne as [P2 _].
    destruct (@py_range_total (Z.of_nat s0) sp) as [l0 E0]; [lia|].
    destruct (@py_range_total (Z.of_nat s1) sp) as [l1 E1]; [lia|].
    destruct (@py_range_total (Z.of_nat s2) sp) as [l2 E2]; [lia|].
    rewrite E0, E1, E2. cbn [bind fst snd]. rewrite <- Hsh.
    apply two_point_tail_total; [exact Hsp|].
    apply (@getitem_pts_total_3d im s0 s1 s2); auto;
      first [eapply py_range_nonempty; [exact Hsp| |eassumption]; lia
            |eapply py_range_bounds; eassumption].
Qed.

(** * Two-point correlation: one sample point *)

Lemma py_range_single (stop sp : Z) :
  (0 < stop <= sp)%Z -> py_range stop sp = Ok [0%Z].
Proof.
  intros H. unfold py_range.
  replace (sp =? 0)%Z with false by lia. replace (0 <? sp)%Z with true by lia.
  replace ((stop + sp - 1) / sp)%Z with 1%Z; [reflexivity|].
  apply Z.div_unique with (r := (stop - 1)%Z); lia.
Qed.

Lemma py_range_zero_step (stop : Z) : py_range stop 0 = Raise ValueError.
Proof. reflexivity. Qed.

Lemma normalize_index_0 (n : nat) : 0 < n -> normalize_index n 0 = Ok 0.
Proof.
  intros H. unfold normalize_index.
  replace (andb _ _) with true; [reflexivity|].
  symmetry. apply andb_true_iff. split; [apply Z.leb_le|apply Z.ltb_lt]; lia.
Qed.

Lemma two_point_single_sample (im : ndarray bool) (sp : Z) :
  ndim im = 2 \/ ndim im = 3 ->
  Forall (fun s => 2 <= s /\ (Z.of_nat s <= sp)%Z) (shape im) ->
  two_point_correlation_bf im sp = Ok ([], []).
Proof.
  intros Hk Hs. unfold two_point_correlation_bf, two_point_histograms.
  destruct (shape im) as [|s0 [|s1 [|s2 [|s3 sh]]]] eqn:Hsh;
    unfold ndim in Hk; rewrite Hsh in Hk; simpl in Hk;
    try (exfalso; destruct Hk; discriminate).
  - inversion Hs as [|? ? [H0 H0'] Hs1]; subst.
    inversion Hs1 as [|? ? [H1 H1'] _]; subst.
    rewrite !py_range_single by lia. cbn [bind fst snd].
    unfold getitem_pts. rewrite Hsh.
    change (float_typed (meshgrid2 [0%Z] [0%Z])) with false. cbv iota.
    change (vstack_T (map (@flatten Z) (meshgrid2 [0%Z] [0%Z]))) with [[0%Z; 0%Z]].
    cbn [mapM normalize_indices bind]. rewrite !normalize_index_0 by lia.
    cbn [bind].
    assert (Hb : py_range (Z.of_nat (amin_shape [s0; s1]) / 2) sp = Ok [0%Z]).
    { apply py_range_single. unfold amin_shape. simpl. split.
      - apply Z.div_str_pos. lia.
      - apply Z.le_trans with (Z.of_nat (Nat.min s0 (Nat.min s1 s0))); [|lia].
        apply Z.div_le_upper_bound; lia. }
    rewrite Hb. destruct (data im [0; 0]); reflexivity.
  - inversion Hs as [|? ? [H0 H0'] Hs1]; subst.
    inversion Hs1 as [|? ? [H1 H1'] Hs2]; subst.
    inversion Hs2 as [|? ? [H2 H2'] _]; subst.
    rewrite !py_range_single by lia. cbn [bind fst snd].
    unfold getitem_pts. rewrite Hsh.
    change (float_typed (meshgrid3 [0%Z] [0%Z] [0%Z])) with false. cbv iota.
    change (vstack_T (map (@flatten Z) (meshgrid3 [0%Z] [0%Z] [0%Z])))
      with [[0%Z; 0%Z; 0%Z]].
    cbn [mapM normalize_indices bind]. rewrite !normalize_index_0 by lia.
    cbn [bind].
    assert (Hb : py_range (Z.of_nat (amin_shape [s0; s1; s2]) / 2) sp = Ok [0%Z]).
    { apply py_range_single. unfold amin_shape. simpl. split.
      - apply Z.div_str_pos. lia.
      - apply Z.le_trans with (Z.of_nat (Nat.min s0 (Nat.min s1 (Nat.min s2 s0)))); [|lia].
        apply Z.div_le_upper_bound; lia. }
    rewrite Hb. destruct (data im [0; 0; 0]); reflexivity.
Qed.

Lemma two_point_zero_spacing (im : ndarray bool) :
  ndim im = 2 \/ ndim im = 3 ->
  two_point_histograms im 0 = Raise ValueError
  /\ two_point_correlation_bf im 0 = Raise ValueError.
Proof.
  intros Hk. unfold two_point_correlation_bf, two_point_histograms.
  destruct (shape im) as [|s0 [|s1 [|s2 [|s3 sh]]]] eqn:Hsh;
    unfold ndim in Hk; rewrite Hsh in Hk; simpl in Hk;
    try (exfalso; destruct Hk; discriminate); split; reflexivity.
Qed.

(** A negative spacing: every range is empty, the sample grid has no point,
    and indexing the image with it fails. *)
Lemma two_point_negative_spacing (im : ndarray bool) (sp : Z) :
  ndim im = 2 \/ ndim im = 3 -> (sp < 0)%Z ->
  Forall (fun s => py_range (Z.of_nat s) sp = Ok []) (shape im)
  /\ two_point_histograms im sp = Raise IndexError
  /\ two_point_correlation_bf im sp = Raise IndexError.
Proof.
  intros Hk Hsp. split.
  - apply Forall_forall. intros s _. apply py_range_negative_step; lia.
  - unfold two_point_correlation_bf, two_point_histograms.
    destruct (shape im) as [|s0 [|s1 [|s2 [|s3 sh]]]] eqn:Hsh;
      unfold ndim in Hk; rewrite Hsh in Hk; simpl in Hk;
      try (exfalso; destruct Hk; discriminate);
      rewrite !py_range_negative_step by lia; split; reflexivity.
Qed.

(** The claim C4 fails on the void 4 x 4 grid with spacing 10, smaller than
    one stride along both axes: the pair of empty sequences is returned.
    With spacing -1 the call fails, but not at once: the ranges of the first
    statement are computed and are empty, and the failure is the IndexError
    of the indexing on line 57. *)
Lemma two_point_small_grid_returns :
  Forall (fun s => Z.of_nat s < 10)%Z (shape (void_grid [4; 4]))
  /\ two_point_correlation_bf (void_grid [4; 4]) 10 = Ok ([], [])
  /\ py_range 4 (-1) = Ok []
  /\ two_point_correlation_bf (void_grid [4; 4]) (-1) = Raise IndexError.
Proof.
  split; [repeat constructor|]. split; [vm_compute; reflexivity|].
  split; vm_compute; reflexivity.
Qed.

(** C4, amended.  [two_point_correlation_bf] validates neither argument, yet
    on a grid of two or three axes it fails for every spacing <= 0, and
    returns no partial result.  Spacing 0 fails with the ValueError of
    [range()], raised by the first statement before any sample point is
    taken, whatever the grid holds.  A negative spacing is not refused at
    once: every range is computed and is empty, and the call fails with the
    IndexError of indexing the image with the empty sample grid.  A grid
    every extent of which is at least 2 and at most the spacing is not
    refused: its single sample point gives no bin, and the pair of empty
    sequences is returned. *)
Theorem two_point_correlation_no_validation (im : ndarray bool) (sp : Z) :
  ndim im = 2 \/ ndim im = 3 ->
  (sp = 0%Z -> two_point_histograms im sp = Raise ValueError
               /\ two_point_correlation_bf im sp = Raise ValueError)
  /\ ((sp < 0)%Z ->
      Forall (fun s => py_range (Z.of_nat s) sp = Ok []) (shape im)
      /\ two_point_histograms im sp = Raise IndexError
      /\ two_point_correlation_bf im sp = Raise IndexError)
  /\ (Forall (fun s => 2 <= s /\ (Z.of_nat s <= sp)%Z) (shape im) ->
      two_point_correlation_bf im sp = Ok ([], [])).
Proof.
  intros Hk. split; [|split].
  - intros ->. apply two_point_zero_spacing, Hk.
  - apply two_point_negative_spacing, Hk.
  - apply two_point_single_sample, Hk.
Qed.

Lemma two_point_correlation_no_validation_witness :
  (ndim void_2x2 = 2 \/ ndim void_2x2 = 3)
  /\ two_point_correlation_bf void_2x2 0 = Raise ValueError
  /\ two_point_correlation_bf void_2x2 (-3) = Raise IndexError
  /\ two_point_correlation_bf void_2x2 5 = Ok ([], []).
Proof.
  assert (Hk : ndim void_2x2 = 2 \/ ndim void_2x2 = 3) by (left; reflexivity).
  split; [exact Hk|]. split; [|split].
  - apply (proj1 (@two_point_correlation_no_validation void_2x2 0 Hk) eq_refl).
  - apply (proj1 (proj2 (@two_point_correlation_no_validation void_2x2 (-3) Hk))).
    lia.
  - apply (proj2 (proj2 (@two_point_correlation_no_validation void_2x2 5 Hk))).
    repeat constructor; simpl; lia.
Defined.

(** C10.  On a fully void grid the histogram of the distances from a void
    first point and the histogram of the distances between two void points
    are the same, counts and edges, whenever they are computed; every
    returned ratio whose count is not 0 is exactly 1; and they are computed
    for every grid of two or three non-empty axes and every spacing > 0. *)
Theorem two_point_correlation_void (im : ndarray bool) (sp : Z) :
  all_void im ->
  (forall h1 h2, two_point_histograms im sp = Ok (h1, h2) -> h1 = h2)
  /\ (forall x y, two_point_correlation_bf im sp = Ok (x, y) ->
        exists h, two_point_histograms im sp = Ok (h, h)
                  /\ x = removelast (snd h)
                  /\ Forall2 (fun a r => a <> 0%Z -> r = Qnum 1) (fst h) y)
  /\ (ndim im = 2 \/ ndim im = 3 -> (0 < sp)%Z -> no_extent 0 (shape im) = true ->
      exists x y, two_point_correlation_bf im sp = Ok (x, y)).
Proof.
  intros Hv. split; [|split].
  - intros h1 h2 E. eapply two_point_histograms_void; eassumption.
  - intros x y. unfold two_point_correlation_bf.
    destruct (two_point_histograms im sp) as [[h1 h2]|e] eqn:E; simpl; [|discriminate].
    assert (h1 = h2) by (eapply two_point_histograms_void; eassumption). subst h2.
    intros E'. injection E' as <- <-. exists h1. repeat split. apply zip_with_same.
  - intros Hk Hsp Hne. unfold two_point_correlation_bf.
    destruct (@two_point_histograms_total im sp Hk Hsp Hne) as [h ->]. simpl. eauto.
Qed.

Lemma two_point_correlation_void_witness :
  all_void void_10x10
  /\ exists x y, two_point_correlation_bf void_10x10 2 = Ok (x, y)
                 /\ exists h, two_point_histograms void_10x10 2 = Ok (h, h)
                    /\ Forall2 (fun a r => a <> 0%Z -> r = Qnum 1) (fst h) y.
Proof.
  assert (Hv : all_void void_10x10) by (intros p _; reflexivity).
  split; [exact Hv|].
  destruct (@two_point_correlation_void void_10x10 2 Hv) as (_ & Hr & Hok).
  destruct Hok as (x & y & E); [left; reflexivity | lia | reflexivity |].
  exists x, y. split; [exact E|].
  destruct (Hr x y E) as (h & Eh & _ & Hy). exists h. split; assumption.
Defined.

(** * Face neighbours *)

Lemma neighbours_length (p : index) : length (neighbours p) <= 2 * length p.
Proof.
  induction p as [|c p IH]; [simpl; lia|].
  cbn [neighbours]. rewrite !length_app. cbn [length]. rewrite length_map.
  unfold index in *. destruct c; simpl length; lia.
Qed.

Lemma neighbours_same_length (p q : index) :
  In q (neighbours p) -> length q = length p.
Proof.
  revert q; induction p as [|c p IH]; simpl; intros q H; [contradiction|].
  apply in_app_or in H as [H|H].
  - destruct c; simpl in H; [contradiction|]. destruct H as [<-|[]]. reflexivity.
  - destruct H as [<-|H]; [reflexivity|].
    apply in_map_iff in H as (r & <- & Hr). simpl. f_equal. apply IH, Hr.
Qed.

Lemma neighbours_cons (c : nat) (p q : index) :
  In q (neighbours (c :: p)) <->
  (exists c', q = c' :: p /\ (S c' = c \/ c' = S c))
  \/ (exists p', q = c :: p' /\ In p' (neighbours p)).
Proof.
  simpl. rewrite in_app_iff. simpl. rewrite in_map_iff. split.
  - intros [H|[H|H]].
    + destruct c; simpl in H; [contradiction|]. destruct H as [<-|[]].
      left. exists c. auto.
    + subst q. left. exists (S c). auto.
    + destruct H as (p' & <- & Hp'). right. eauto.
  - intros [(c' & -> & [H|H])|(p' & -> & Hp')].
    + subst c. left. simpl. auto.
    + subst c'. right. left. reflexivity.
    + right. right. eauto.
Qed.

Lemma neighbours_sym (p q : index) : In q (neighbours p) -> In p (neighbours q).
Proof.
  revert q; induction p as [|c p IH]; intros q H; [contradiction|].
  apply neighbours_cons in H as [(c' & -> & H)|(p' & -> & Hp')];
    apply neighbours_cons.
  - left. exists c. split; [reflexivity|]. lia.
  - right. exists p. split; [reflexivity|]. apply IH, Hp'.
Qed.

(** * Connected components and the flood fill *)

Section Components.

Variables (fg : index -> bool) (sh : list nat).

Local Abbreviation cell := (cell fg sh).
Local Abbreviation conn := (conn fg sh).
Local Abbreviation unlabelled := (unlabelled fg sh).

Lemma conn_cell_l (p q : index) : conn p q -> cell p.
Proof. induction 1; auto. Qed.

Lemma conn_cell_r (p q : index) : conn p q -> cell q.
Proof. induction 1; auto. Qed.

Lemma conn_trans (p q r : index) : conn p q -> conn q r -> conn p r.
Proof.
  intros Hpq Hqr. induction Hqr as [q Hq|q r s Hqr IH Hs Hn]; [exact Hpq|].
  eapply conn_step; [apply IH, Hpq|exact Hs|exact Hn].
Qed.

Lemma conn_sym (p q : index) : conn p q -> conn q p.
Proof.
  induction 1 as [p Hp|p q r Hpq IH Hr Hn]; [constructor; exact Hp|].
  apply conn_trans with q; [|exact IH].
  eapply conn_step; [constructor; exact Hr| eapply conn_cell_r, Hpq |].
  apply neighbours_sym, Hn.
Qed.

Lemma cell_dec (p : index) : in_bounds p sh && fg p = true <-> cell p.
Proof. unfold cell. apply andb_true_iff. Qed.

Lemma filter_length_le {A} (f : A -> bool) (l : list A) :
  length (filter f l) <= length l.
Proof. induction l as [|x l IH]; simpl; [lia|]. destruct (f x); simpl; lia. Qed.

Lemma unlabelled_le (lab : index -> nat) :
  unlabelled lab <= fold_right Nat.mul 1 sh.
Proof. unfold unlabelled. rewrite <- length_indices. apply filter_length_le. Qed.

Lemma filter_remove_one {A} (f g : A -> bool) (l : list A) (x : A) :
  NoDup l -> In x l -> f x = true -> g x = false ->
  (forall y, y <> x -> g y = f y) ->
  S (length (filter g l)) = length (filter f l).
Proof.
  intros Hnd Hin Hf Hg Hfg. induction Hnd as [|y l Hy Hnd IH]; [contradiction|].
  simpl. destruct Hin as [->|Hin].
  - rewrite Hf, Hg. simpl. f_equal.
    f_equal. apply filter_ext_in. intros z Hz. apply Hfg. intros ->. contradiction.
  - assert (y <> x) by (intros ->; contradiction).
    rewrite (Hfg y) by assumption. destruct (f y); simpl; rewrite <- IH by assumption; reflexivity.
Qed.

Lemma unlabelled_upd (lab : index -> nat) (p : index) (l : nat) :
  l <> 0 -> in_bounds p sh = true -> fg p = true -> lab p = 0 ->
  S (unlabelled (upd lab p l)) = unlabelled lab.
Proof.
  intros Hl Hb Hf H0. unfold unlabelled.
  apply filter_remove_one with (x := p).
  - apply indices_NoDup.
  - apply indices_spec, Hb.
  - rewrite Hf, H0. reflexivity.
  - unfold upd. rewrite index_eqb_refl.
    apply andb_false_iff. right. apply Nat.eqb_neq, Hl.
  - intros q Hq. unfold upd. apply index_eqb_neq in Hq. rewrite Hq. reflexivity.
Qed.

(** ** One fill *)

Section Fill.

Variables (lab0 : index -> nat) (l : nat) (p0 : index).
Hypothesis l_pos : l <> 0.
Hypothesis l_fresh : forall q, lab0 q <> l.
Hypothesis lab0_closed : forall p q, lab0 p <> 0 -> conn p q -> lab0 q = lab0 p.
Hypothesis seed_cell : cell p0.
Hypothesis seed_free : lab0 p0 = 0.

Local Abbreviation fill_inv := (fill_inv fg sh lab0 l p0).

Lemma fill_inv_init : fill_inv [p0] lab0.
Proof.
  split.
  - auto.
  - intros q [<-|[]] _. constructor. exact seed_cell.
  - intros r q Hr. exfalso. apply (l_fresh Hr).
  - right. left. reflexivity.
Qed.

Lemma labelled_conn (stack : list index) (lab : index -> nat) (r : index) :
  fill_inv stack lab -> lab r = l -> lab0 r = 0 /\ conn p0 r.
Proof.
  intros Hinv Hr. destruct (inv_old Hinv r) as [E|(_ & E & C)]; [|auto].
  exfalso. apply (@l_fresh r). congruence.
Qed.

Lemma fill_inv_push (p : index) (st : list index) (lab : index -> nat) :
  fill_inv (p :: st) lab -> cell p -> lab p = 0 ->
  fill_inv (neighbours p ++ st) (upd lab p l).
Proof.
  intros Hinv Hp H0.
  assert (Hcp : conn p0 p) by (apply (inv_stack Hinv); simpl; auto).
  assert (H0p : lab0 p = 0).
  { destruct (inv_old Hinv p) as [E|(E & _)]; congruence. }
  split.
  - intros q. unfold upd. destruct (index_eqb q p) eqn:E.
    + apply index_eqb_eq in E. subst q. right. auto.
    + apply (inv_old Hinv).
  - intros q Hq Hc. apply in_app_or in Hq as [Hq|Hq].
    + eapply conn_step; eauto.
    + apply (inv_stack Hinv); simpl; auto.
  - intros r q Hr Hq Hc. unfold upd in Hr |- *.
    destruct (index_eqb q p) eqn:Eq; [left; reflexivity|].
    destruct (index_eqb r p) eqn:Er.
    + apply index_eqb_eq in Er. subst r. right. apply in_or_app. left. exact Hq.
    + destruct (inv_front Hinv _ Hr Hq Hc) as [H|[H|H]]; auto.
      * subst q. rewrite index_eqb_refl in Eq. discriminate.
      * right. apply in_or_app. right. exact H.
  - unfold upd. destruct (index_eqb p0 p) eqn:E; [left; reflexivity|].
    destruct (inv_seed Hinv) as [H|[H|H]]; auto.
    + subst p. rewrite index_eqb_refl in E. discriminate.
    + right. apply in_or_app. right. exact H.
Qed.

Lemma fill_inv_pop (p : index) (st : list index) (lab : index -> nat) :
  fill_inv (p :: st) lab -> (cell p -> lab p <> 0) -> fill_inv st lab.
Proof.
  intros Hinv Hp. split.
  - apply (inv_old Hinv).
  - intros q Hq. apply (inv_stack Hinv). simpl. auto.
  - intros r q Hr Hq Hc.
    destruct (inv_front Hinv _ Hr Hq Hc) as [H|[H|H]]; auto.
    subst q. left.
    destruct (inv_old Hinv p) as [E|(E & _)]; [|exact E].
    exfalso. destruct (@labelled_conn _ _ r Hinv Hr) as [H0r Hcr].
    assert (Hpr : conn p r).
    { eapply conn_step; [constructor; exact Hc|eapply conn_cell_r, Hcr|].
      apply neighbours_sym, Hq. }
    assert (lab0 p <> 0) by (rewrite <- E; apply Hp, Hc).
    pose proof (lab0_closed H Hpr). congruence.
  - destruct (inv_seed Hinv) as [H|[H|H]]; auto.
    subst p. left.
    destruct (inv_old Hinv p0) as [E|(E & _)]; [|exact E].
    exfalso. apply (Hp seed_cell). congruence.
Qed.

Lemma fill_complete (fuel : nat) :
  forall (stack : list index) (lab : index -> nat),
    fill_inv stack lab ->
    length stack + 2 * length sh * unlabelled lab <= fuel ->
    fill_inv [] (fill fuel fg sh l stack lab).
Proof.
  induction fuel as [|fuel IH]; intros stack lab Hinv Hm.
  - destruct stack; [exact Hinv|simpl in Hm; lia].
  - destruct stack as [|p st]; [exact Hinv|]. simpl.
    destruct (in_bounds p sh) eqn:Hb; simpl.
    2:{ apply IH; [|simpl in Hm; lia].
        apply fill_inv_pop with p; auto. intros [Hc _]. congruence. }
    destruct (fg p) eqn:Hf; simpl.
    2:{ apply IH; [|simpl in Hm; lia].
        apply fill_inv_pop with p; auto. intros [_ Hc]. congruence. }
    destruct (lab p =? 0) eqn:H0.
    + apply Nat.eqb_eq in H0. apply IH.
      * apply fill_inv_push; auto. split; auto.
      * rewrite length_app.
        pose proof (neighbours_length p) as Hn.
        rewrite (in_bounds_length _ _ Hb) in Hn.
        pose proof (@unlabelled_upd lab p l l_pos Hb Hf H0) as Hu.
        simpl in Hm. nia.
    + apply Nat.eqb_neq in H0. apply IH; [|simpl in Hm; lia].
      apply fill_inv_pop with p; auto.
Qed.

(** What one fill does: the component of the seed gets the label [l],
    nothing else changes. *)
Lemma fill_spec (q : index) :
  let lab := fill (fill_fuel sh) fg sh l [p0] lab0 in
  (conn p0 q -> lab q = l)
  /\ (lab q = l -> conn p0 q)
  /\ (lab q <> l -> lab q = lab0 q).
Proof.
  intros lab.
  assert (Hinv : fill_inv [] lab).
  { apply fill_complete; [apply fill_inv_init|].
    unfold fill_fuel. pose proof (unlabelled_le lab0). simpl length. nia. }
  repeat split.
  - intros Hc. remember p0 as s eqn:Es in Hc.
    induction Hc as [p Hp|p q r Hpq IH Hr Hn]; subst.
    + destruct (inv_seed Hinv) as [H|[]]. exact H.
    + destruct (inv_front Hinv _ (IH eq_refl) Hn Hr) as [H|[]]. exact H.
  - intros H. eapply labelled_conn; eassumption.
  - intros H. destruct (inv_old Hinv q) as [E|(E & _)]; [exact E|contradiction].
Qed.

End Fill.


(** ** The raster scan *)

Local Abbreviation scan_inv := (scan_inv fg sh).

Lemma scan_inv_init : scan_inv [] (fun _ => 0, 0).
Proof.
  split; simpl.
  - intros p H. contradiction.
  - intros p q H. contradiction.
  - intros p q H. contradiction.
  - intros l H. lia.
  - intros p [].
Qed.

Lemma scan_inv_step (scanned : list index) (st : (index -> nat) * nat) (p : index) :
  scan_inv scanned st -> in_bounds p sh = true ->
  scan_inv (scanned ++ [p]) (label_step fg sh st p).
Proof.
  intros Hinv Hb. destruct st as [lab n]. unfold label_step. cbn [fst snd].
  pose proof (@sc_cell fg sh _ _ Hinv) as Hcell.
  pose proof (@sc_closed fg sh _ _ Hinv) as Hclosed.
  pose proof (@sc_conn fg sh _ _ Hinv) as Hconn.
  pose proof (@sc_used fg sh _ _ Hinv) as Hused.
  pose proof (@sc_scanned fg sh _ _ Hinv) as Hscanned.
  cbn [fst snd] in Hcell, Hclosed, Hconn, Hused, Hscanned.
  destruct (fg p && (lab p =? 0)) eqn:E.
  - apply andb_true_iff in E as [Hf H0]. apply Nat.eqb_eq in H0.
    assert (Hp : cell p) by (split; assumption).
    assert (Hfresh : forall q, lab q <> S n).
    { intros q Hq. destruct (Hcell q) as [_ Hle]; lia. }
    pose proof (@fill_spec lab (S n) p (Nat.neq_succ_0 n) Hfresh Hclosed Hp H0)
      as Hspec.
    set (lab' := fill (fill_fuel sh) fg sh (S n) [p] lab) in *.
    cbv zeta in Hspec.
    assert (Hold : forall q, lab q <> 0 -> lab' q = lab q).
    { intros q Hq. apply (Hspec q). intros Hq'.
      apply (proj1 (proj2 (Hspec q))) in Hq'.
      pose proof (Hclosed q p Hq (conn_sym Hq')) as Hc. congruence. }
    split; cbn [fst snd].
    + intros q Hq. destruct (Nat.eq_dec (lab' q) (S n)) as [Hl|Hl].
      * split; [|lia]. eapply conn_cell_r. apply (Hspec q), Hl.
      * rewrite (proj2 (proj2 (Hspec q)) Hl) in Hq |- *.
        destruct (Hcell q Hq) as [Hc Hle]. split; [exact Hc|lia].
    + intros a b Ha Hab. destruct (Nat.eq_dec (lab' a) (S n)) as [Hl|Hl].
      * rewrite Hl. apply (Hspec b). apply conn_trans with a; [|exact Hab].
        apply (Hspec a), Hl.
      * pose proof (proj2 (proj2 (Hspec a)) Hl) as Ea. rewrite Ea in Ha |- *.
        pose proof (Hclosed a b Ha Hab) as Eb.
        rewrite <- Eb. apply Hold. congruence.
    + intros a b Ha Hab. destruct (Nat.eq_dec (lab' a) (S n)) as [Hl|Hl].
      * apply conn_trans with p.
        -- apply conn_sym. apply (Hspec a), Hl.
        -- apply (Hspec b). congruence.
      * pose proof (proj2 (proj2 (Hspec a)) Hl) as Ea.
        assert (Hlb : lab' b <> S n) by congruence.
        pose proof (proj2 (proj2 (Hspec b)) Hlb) as Eb.
        apply Hconn; congruence.
    + intros l Hl. destruct (Nat.eq_dec l (S n)) as [->|Hn].
      * exists p. apply (Hspec p). constructor. exact Hp.
      * destruct (Hused l) as [q Hq]; [lia|].
        exists q. rewrite Hold; [exact Hq|lia].
    + intros q Hq Hc. apply in_app_or in Hq as [Hq|[<-|[]]].
      * pose proof (Hscanned q Hq Hc) as Hq'.
        rewrite Hold; assumption.
      * rewrite (proj1 (Hspec p)); [discriminate|]. constructor. exact Hp.
  - split; auto.
    intros q Hq Hc. apply in_app_or in Hq as [Hq|[<-|[]]]; [auto|].
    cbn [fst]. destruct Hc as [_ Hf]. rewrite Hf in E. simpl in E.
    apply Nat.eqb_neq, E.
Qed.

Lemma scan_inv_fold (ps scanned : list index) (st : (index -> nat) * nat) :
  scan_inv scanned st -> (forall p, In p ps -> in_bounds p sh = true) ->
  scan_inv (scanned ++ ps) (fold_left (label_step fg sh) ps st).
Proof.
  revert scanned st. induction ps as [|p ps IH]; intros scanned st Hinv Hps; simpl.
  - rewrite app_nil_r. exact Hinv.
  - replace (scanned ++ p :: ps) with ((scanned ++ [p]) ++ ps)
      by (rewrite <- app_assoc; reflexivity).
    apply IH.
    + apply scan_inv_step; auto. apply Hps. left. reflexivity.
    + intros q Hq. apply Hps. right. exact Hq.
Qed.

(** [label] is correct: the labels are 1..n, the cells are exactly the
    indices with a label, and two cells have the same label exactly when
    they are connected. *)
Theorem label_table_correct : scan_inv (indices sh) (label_table fg sh).
Proof.
  apply (@scan_inv_fold (indices sh) [] (fun _ => 0, 0) scan_inv_init).
  intros p Hp. apply indices_spec, Hp.
Qed.

Lemma label_nonzero (p : index) :
  fst (label_table fg sh) p <> 0 <-> cell p.
Proof.
  split.
  - intros H. apply (@sc_cell fg sh _ _ label_table_correct p H).
  - intros H. apply (@sc_scanned fg sh _ _ label_table_correct p); [|exact H].
    apply indices_spec, H.
Qed.

Lemma label_same (p q : index) :
  cell p -> (fst (label_table fg sh) q = fst (label_table fg sh) p <-> conn p q).
Proof.
  intros Hp. apply label_nonzero in Hp. split.
  - apply (@sc_conn fg sh _ _ label_table_correct p q Hp).
  - apply (@sc_closed fg sh _ _ label_table_correct p q Hp).
Qed.

End Components.

(** * Bounding boxes *)

Lemma box_add_length (b : box) (p : index) :
  length p = length b -> length (box_add b p) = length b.
Proof.
  revert p; induction b as [|[lo hi] b IH]; intros [|c p]; simpl; try discriminate; auto.
Qed.

Lemma box_add_nth (b : box) (p : index) (d lo' hi' : nat) :
  length p = length b ->
  nth_error (box_add b p) d = Some (lo', hi') ->
  exists lo hi, nth_error b d = Some (lo, hi)
    /\ lo' = Nat.min lo (nth d p 0) /\ hi' = Nat.max hi (S (nth d p 0)).
Proof.
  revert p d; induction b as [|[lo hi] b IH]; intros [|c p] d; simpl; try discriminate.
  - destruct d; discriminate.
  - intros Hl. destruct d as [|d]; simpl.
    + intros E. injection E as <- <-. eauto.
    + apply IH. congruence.
Qed.

Lemma box_init_nth (p : index) (d lo hi : nat) :
  nth_error (map (fun c => (c, S c)) p) d = Some (lo, hi) ->
  lo = nth d p 0 /\ hi = S (nth d p 0).
Proof.
  revert d; induction p as [|c p IH]; intros [|d]; simpl; try discriminate.
  - intros E. injection E as <- <-. auto.
  - apply IH.
Qed.

Lemma box_fold_spec (k : nat) (ps : list index) :
  forall (P : index -> Prop) (b : box),
    length b = k -> bounding_box P b ->
    (forall q, In q ps -> length q = k) ->
    length (fold_left box_add ps b) = k
    /\ bounding_box (fun q => P q \/ In q ps) (fold_left box_add ps b).
Proof.
  induction ps as [|q ps IH]; intros P b Hb HP Hps; simpl.
  - split; [exact Hb|]. intros d lo hi E. destruct (HP d lo hi E) as (H1 & H2 & H3).
    split; [|split].
    + intros p [Hp|[]]. auto.
    + destruct H2 as (p & Hp & E2). eauto.
    + destruct H3 as (p & Hp & E3). eauto.
  - assert (Hq : length q = length b) by (rewrite Hb; apply Hps; left; reflexivity).
    destruct (IH (fun r => P r \/ q = r) (box_add b q)) as [Hl Hbb].
    + rewrite box_add_length; assumption.
    + intros d lo' hi' E.
      apply box_add_nth in E as (lo & hi & E & -> & ->); [|exact Hq].
      destruct (HP d lo hi E) as (H1 & (p2 & Hp2 & E2) & (p3 & Hp3 & E3)).
      split; [|split].
      * intros p [Hp| <-]; [specialize (H1 p Hp)|]; lia.
      * destruct (Nat.le_gt_cases lo (nth d q 0)).
        -- exists p2. split; [auto|lia].
        -- exists q. split; [auto|lia].
      * destruct (Nat.le_gt_cases (S (nth d q 0)) hi).
        -- exists p3. split; [auto|lia].
        -- exists q. split; [auto|lia].
    + intros r Hr. apply Hps. right. exact Hr.
    + split; [exact Hl|]. intros d lo hi E.
      destruct (Hbb d lo hi E) as (H1 & (p2 & Hp2 & E2) & (p3 & Hp3 & E3)).
      split; [|split].
      * intros p Hp. apply H1. simpl in Hp. tauto.
      * exists p2. split; [simpl; tauto|exact E2].
      * exists p3. split; [simpl; tauto|exact E3].
Qed.

Lemma box_of_spec (k : nat) (cells : list index) :
  cells <> [] -> (forall q, In q cells -> length q = k) ->
  exists b, box_of cells = Some b /\ length b = k
            /\ bounding_box (fun q => In q cells) b.
Proof.
  destruct cells as [|p ps]; [congruence|]. intros _ Hk. simpl.
  destruct (@box_fold_spec k ps (fun q => p = q) (map (fun c => (c, S c)) p))
    as [Hl Hbb].
  - rewrite length_map. apply Hk. left. reflexivity.
  - intros d lo hi E. apply box_init_nth in E as [-> ->].
    split; [|split].
    + intros q <-. lia.
    + exists p. auto.
    + exists p. auto.
  - intros q Hq. apply Hk. right. exact Hq.
  - eexists. split; [reflexivity|]. split; [exact Hl|].
    intros d lo hi E. destruct (Hbb d lo hi E) as (H1 & (p2 & Hp2 & E2) & (p3 & Hp3 & E3)).
    split; [|split].
    + intros q Hq. apply H1. exact Hq.
    + exists p2. split; [exact Hp2|exact E2].
    + exists p3. split; [exact Hp3|exact E3].
Qed.

Lemma bounding_box_ext (P Q : index -> Prop) (b : box) :
  (forall p, P p <-> Q p) -> bounding_box P b -> bounding_box Q b.
Proof.
  intros H HP d lo hi E. destruct (HP d lo hi E) as (H1 & (p2 & Hp2 & E2) & (p3 & Hp3 & E3)).
  split; [|split].
  - intros p Hp. apply H1. apply H. exact Hp.
  - exists p2. split; [apply (proj1 (H p2) Hp2)|exact E2].
  - exists p3. split; [apply (proj1 (H p3) Hp3)|exact E3].
Qed.

(** * [amax] and the loop of [chord_length_distribution] *)

Lemma fold_max_spec (l : list Z) (x : Z) :
  let m := fold_left Z.max l x in
  (m = x \/ In m l) /\ (x <= m)%Z /\ forall s, In s l -> (s <= m)%Z.
Proof.
  revert x; induction l as [|y l IH]; intros x; simpl.
  - repeat split; auto; try lia; intros s [].
  - destruct (IH (Z.max x y)) as (H1 & H2 & H3). repeat split.
    + destruct H1 as [H1|H1]; [|auto]. rewrite H1.
      destruct (Z.max_spec x y) as [[_ ->]|[_ ->]]; auto.
    + lia.
    + intros s [<-|Hs]; [lia|auto].
Qed.

Lemma amax_spec (l : list Z) :
  l <> [] -> exists m, amax l = Ok m /\ In m l /\ forall s, In s l -> (s <= m)%Z.
Proof.
  destruct l as [|x l]; [congruence|]. intros _. simpl.
  destruct (fold_max_spec l x) as (H1 & H2 & H3).
  eexists. split; [reflexivity|]. split.
  - destruct H1 as [->|H1]; auto.
  - intros s [<-|Hs]; auto.
Qed.

Lemma replace_nth_app {A} (l1 l2 : list A) (x v : A) :
  replace_nth (length l1) v (l1 ++ x :: l2) = l1 ++ v :: l2.
Proof. induction l1 as [|y l1 IH]; simpl; [reflexivity|]. f_equal. exact IH. Qed.

Lemma setitem_app (l1 l2 : list Z) (x v : Z) :
  setitem (l1 ++ x :: l2) (Z.of_nat (length l1)) v = Ok (l1 ++ v :: l2).
Proof.
  unfold setitem. cbv zeta. rewrite length_app. simpl length.
  replace (andb _ _) with true;
    [|symmetry; apply andb_true_iff; split; [apply Z.leb_le|apply Z.ltb_lt]; lia].
  destruct (Z.ltb_spec (Z.of_nat (length l1)) 0); [lia|].
  rewrite Nat2Z.id. f_equal. apply replace_nth_app.
Qed.

Lemma chord_loop (slices : list (option box)) (v : nat -> Z) (N : nat) :
  (forall i, i < N -> entry_length (nth i slices None) = Ok (v i)) ->
  forall j, j <= N ->
    fold_left
      (fun acc i =>
         chord_lens <- acc ;;
         match nth i slices None with
         | None => Raise TypeError
         | Some s => m <- amax (side_lengths s) ;; setitem chord_lens (Z.of_nat i) m
         end)
      (seq 0 j) (Ok (repeat 0%Z N))
    = Ok (map v (seq 0 j) ++ repeat 0%Z (N - j)).
Proof.
  intros Hv. induction j as [|j IH]; intros Hj.
  - simpl. rewrite Nat.sub_0_r. reflexivity.
  - rewrite seq_S, fold_left_app, IH by lia. simpl fold_left. cbn [bind].
    specialize (Hv j ltac:(lia)). unfold entry_length in Hv.
    destruct (nth j slices None) as [s|]; [|discriminate].
    rewrite Hv. cbn [bind].
    replace (N - j) with (S (N - S j)) by lia. cbn [repeat].
    replace (Z.of_nat j) with (Z.of_nat (length (map v (seq 0 j))))
      by (rewrite length_map, length_seq; reflexivity).
    rewrite setitem_app. rewrite map_app, <- app_assoc. reflexivity.
Qed.

(** * [chord_length_distribution]: one entry per component, the longest side
      of its bounding box *)

Lemma fold_max_bound (l : list nat) (n : nat) :
  (forall x, In x l -> x <= n) -> (n = 0 \/ In n l) ->
  fold_right Nat.max 0 l = n.
Proof.
  intros Hle Hin.
  assert (H1 : fold_right Nat.max 0 l <= n).
  { clear Hin. induction l as [|x l IH]; simpl; [lia|].
    pose proof (Hle x (or_introl eq_refl)).
    assert (fold_right Nat.max 0 l <= n) by (apply IH; intros; apply Hle; right; auto).
    lia. }
  assert (H2 : forall x, In x l -> x <= fold_right Nat.max 0 l).
  { clear. induction l as [|y l IH]; simpl; [intros x []|].
    intros x [<-|Hx]; [lia|]. specialize (IH x Hx). lia. }
  destruct Hin as [->|Hin]; [lia|]. specialize (H2 n Hin). lia.
Qed.

Lemma nth_map_seq {B} (f : nat -> B) (s n i : nat) (d : B) :
  i < n -> nth i (map f (seq s n)) d = f (s + i).
Proof.
  revert s i; induction n as [|n IH]; intros s i Hi; [lia|].
  destruct i as [|i]; simpl; [f_equal; lia|].
  rewrite IH by lia. f_equal. lia.
Qed.

Lemma size_zero_iff (sh : list nat) :
  fold_right Nat.mul 1 sh = 0 <-> existsb (fun s => s =? 0) sh = true.
Proof.
  induction sh as [|n sh IH]; simpl; [split; [lia|discriminate]|].
  rewrite orb_true_iff, Nat.eqb_eq, <- IH. lia.
Qed.

Lemma size_no_extent {B} (a : ndarray B) :
  size a <> 0 <-> no_extent 0 (shape a) = true.
Proof.
  unfold size, no_extent. rewrite negb_true_iff, size_zero_iff.
  destruct (existsb _ _); split; congruence.
Qed.

Lemma in_bounds_size (p : index) (sh : list nat) :
  in_bounds p sh = true -> fold_right Nat.mul 1 sh <> 0.
Proof.
  revert sh; induction p as [|c p IH]; intros [|n sh]; cbn [in_bounds fold_right];
    try discriminate.
  intros Hb. apply andb_true_iff in Hb as [Hc Hb]. apply Nat.ltb_lt in Hc.
  specialize (IH sh Hb). nia.
Qed.

Section ChordLengths.

Context {A : Type} `{Truthy A} (im : ndarray A).

Let fg : index -> bool := fun p => truthy (data im p).
Let lab : index -> nat := fst (label_table fg (shape im)).
Let N : nat := snd (label_table fg (shape im)).

Lemma label_unfold :
  label im = ({| shape := shape im; data := lab |}, N).
Proof. reflexivity. Qed.

Lemma max_label : fold_right Nat.max 0 (flatten (fst (label im))) = N.
Proof.
  pose proof (label_table_correct fg (shape im)) as Hc.
  apply fold_max_bound.
  - intros x Hx. unfold flatten in Hx. apply in_map_iff in Hx as (p & <- & _).
    change (lab p <= N). destruct (Nat.eq_dec (lab p) 0) as [->|Hp]; [lia|].
    apply (@sc_cell fg (shape im) _ _ Hc p Hp).
  - destruct (Nat.eq_dec N 0) as [H0|H0]; [auto|right].
    destruct (@sc_used fg (shape im) _ _ Hc N) as [p Hp]; [change (1 <= N <= N); lia|].
    change (lab p = N) in Hp.
    unfold flatten. apply in_map_iff. exists p. split; [exact Hp|].
    apply indices_spec.
    apply (@sc_cell fg (shape im) _ _ Hc p). change (lab p <> 0). lia.
Qed.

Lemma component_box (l : nat) :
  1 <= l <= N -> ndim im <> 0 ->
  exists b m,
    box_of (filter (fun p => lab p =? l) (indices (shape im))) = Some b
    /\ length b = ndim im
    /\ bounding_box (fun p => lab p = l) b
    /\ amax (side_lengths b) = Ok m
    /\ longest_side b m.
Proof.
  intros Hl Hk.
  pose proof (label_table_correct fg (shape im)) as Hc.
  set (cells := filter (fun p => lab p =? l) (indices (shape im))).
  assert (Hin : forall p, In p cells <-> lab p = l).
  { intros p. unfold cells. rewrite filter_In, Nat.eqb_eq, indices_spec. split; [tauto|].
    intros Hp. split; [|exact Hp].
    apply (@sc_cell fg (shape im) _ _ Hc p). change (lab p <> 0). lia. }
  destruct (@box_of_spec (ndim im) cells) as (b & Eb & Hlen & Hbb).
  - destruct (@sc_used fg (shape im) _ _ Hc l Hl) as [p Hp].
    intros E. apply Hin in Hp. rewrite E in Hp. contradiction.
  - intros q Hq. unfold cells in Hq. apply filter_In in Hq as [Hq _].
    apply indices_spec, in_bounds_length in Hq. exact Hq.
  - destruct (@amax_spec (side_lengths b)) as (m & Em & Hm1 & Hm2).
    + unfold side_lengths. intros E. apply (f_equal (@length Z)) in E.
      rewrite length_map in E. simpl in E. unfold ndim in *. congruence.
    + exists b, m. split; [exact Eb|]. split; [exact Hlen|].
      split; [apply (@bounding_box_ext _ _ b Hin Hbb)|].
      split; [exact Em|]. split; assumption.
Qed.

Let boxes : list (option box) :=
  map (fun l => box_of (filter (fun p => lab p =? l) (indices (shape im)))) (seq 1 N).

Lemma find_objects_label :
  size im <> 0 -> find_objects (fst (label im)) = Ok boxes.
Proof.
  intros Hs. unfold find_objects. change (size (fst (label im))) with (size im).
  apply Nat.eqb_neq in Hs. rewrite Hs, max_label. reflexivity.
Qed.

Lemma boxes_nth (i : nat) :
  i < N ->
  nth i boxes None = box_of (filter (fun p => lab p =? S i) (indices (shape im))).
Proof. intros Hi. unfold boxes. rewrite nth_map_seq by exact Hi. reflexivity. Qed.

(** An image without cells: [find_objects] fails, and with it the call. *)
Lemma chord_length_distribution_no_cells :
  size im = 0 -> chord_length_distribution im = Raise ValueError.
Proof.
  intros Hs. unfold chord_length_distribution. rewrite label_unfold.
  unfold find_objects. change (size {| shape := shape im; data := lab |}) with (size im).
  rewrite Hs. reflexivity.
Qed.

Lemma chord_length_distribution_entries :
  ndim im <> 0 -> size im <> 0 ->
  exists lens,
    chord_length_distribution im = Ok lens
    /\ length lens = N
    /\ forall l, 1 <= l <= N ->
         exists b, bounding_box (fun p => lab p = l) b
                   /\ length b = ndim im
                   /\ longest_side b (nth (l - 1) lens 0%Z).
Proof.
  intros Hk Hs.
  set (slices := boxes).
  set (v := fun i => match entry_length (nth i slices None) with
                     | Ok m => m | Raise _ => 0%Z end).
  assert (Hv : forall i, i < N ->
             entry_length (nth i slices None) = Ok (v i)
             /\ exists b, bounding_box (fun p => lab p = S i) b
                          /\ length b = ndim im /\ longest_side b (v i)).
  { intros i Hi. unfold v, slices. rewrite boxes_nth by exact Hi.
    destruct (@component_box (S i)) as (b & m & Eb & Hlen & Hbb & Em & Hm); [lia|exact Hk|].
    rewrite Eb. simpl. rewrite Em. split; [reflexivity|]. exists b. auto. }
  exists (map v (seq 0 N)). split; [|split].
  - unfold chord_length_distribution. rewrite label_unfold.
    change {| shape := shape im; data := lab |} with (fst (label im)).
    rewrite (find_objects_label Hs). cbn [bind]. fold slices.
    assert (Hlen : length slices = N).
    { unfold slices, boxes. rewrite length_map, length_seq. reflexivity. }
    rewrite Hlen.
    rewrite (@chord_loop slices v N (fun i Hi => proj1 (Hv i Hi)) N (le_n N)).
    rewrite Nat.sub_diag. simpl. rewrite app_nil_r. reflexivity.
  - rewrite length_map, length_seq. reflexivity.
  - intros l Hl. destruct (Hv (l - 1)) as (_ & b & Hbb & Hlen & Hm); [lia|].
    replace (S (l - 1)) with l in Hbb by lia.
    exists b. split; [exact Hbb|]. split; [exact Hlen|].
    rewrite nth_map_seq by lia. exact Hm.
Qed.

End ChordLengths.

(** * A single straight run *)

Lemma nth_replace_nth {B} (a d : nat) (v x : B) (p : list B) :
  nth d (replace_nth a v p) x
  = if (d =? a) && (a <? length p) then v else nth d p x.
Proof.
  revert a d; induction p as [|c p IH]; intros a d; simpl.
  - destruct a, d; simpl; try reflexivity. rewrite andb_false_r. reflexivity.
  - destruct a as [|a], d as [|d]; simpl; try reflexivity.
    rewrite IH. reflexivity.
Qed.

Lemma in_bounds_nth (q : index) (sh : list nat) :
  in_bounds q sh = true <->
  length q = length sh /\ forall d, d < length sh -> nth d q 0 < nth d sh 0.
Proof.
  revert sh; induction q as [|c q IH]; intros [|n sh]; simpl.
  - split; [intros _; split; [reflexivity|intros d Hd; lia]|reflexivity].
  - split; [discriminate|intros [H _]; discriminate].
  - split; [discriminate|intros [H _]; discriminate].
  - rewrite andb_true_iff, Nat.ltb_lt, IH. split.
    + intros (Hc & Hl & Hq). split; [congruence|].
      intros [|d] Hd; [exact Hc|]. apply Hq. lia.
    + intros (Hl & Hq). split; [apply (Hq 0); lia|]. split; [congruence|].
      intros d Hd. apply (Hq (S d)). lia.
Qed.

Lemma on_run_spec (p : index) (a L : nat) (q : index) :
  a < length p ->
  (on_run p a L q = true <->
   length q = length p
   /\ (forall d, d < length p -> d <> a -> nth d q 0 = nth d p 0)
   /\ nth a p 0 <= nth a q 0 < nth a p 0 + L).
Proof.
  intros Ha. unfold on_run. rewrite andb_true_iff, Nat.eqb_eq, forallb_forall.
  split.
  - intros (Hl & Hf). split; [exact Hl|]. split.
    + intros d Hd Hda. specialize (Hf d). rewrite in_seq in Hf.
      specialize (Hf ltac:(lia)). apply Nat.eqb_neq in Hda. rewrite Hda in Hf.
      apply Nat.eqb_eq, Hf.
    + specialize (Hf a). rewrite in_seq in Hf. specialize (Hf ltac:(lia)).
      rewrite Nat.eqb_refl in Hf. apply andb_true_iff in Hf as [H1 H2].
      apply Nat.leb_le in H1. apply Nat.ltb_lt in H2. lia.
  - intros (Hl & Hd & Hr). split; [exact Hl|]. intros d Hin. apply in_seq in Hin.
    destruct (d =? a) eqn:E.
    + apply andb_true_iff. split; [apply Nat.leb_le|apply Nat.ltb_lt]; lia.
    + apply Nat.eqb_eq, Hd; [lia|]. apply Nat.eqb_neq, E.
Qed.

Lemma neighbours_next (a : nat) (p : index) :
  a < length p -> In (replace_nth a (S (nth a p 0)) p) (neighbours p).
Proof.
  revert a; induction p as [|c p IH]; intros a Ha; simpl in Ha; [lia|].
  apply neighbours_cons. destruct a as [|a]; simpl.
  - left. exists (S c). auto.
  - right. exists (replace_nth a (S (nth a p 0)) p). split; [reflexivity|].
    apply IH. lia.
Qed.

Lemma index_ext (p q : index) :
  length p = length q -> (forall d, d < length p -> nth d p 0 = nth d q 0) -> p = q.
Proof. intros Hl Hd. apply nth_ext with (d := 0) (d' := 0); assumption. Qed.

Lemma shift_0 (p : index) (a : nat) : shift p a 0 = p.
Proof.
  apply index_ext.
  - unfold shift. apply length_replace_nth.
  - intros d Hd. unfold shift. rewrite nth_replace_nth.
    destruct (d =? a) eqn:E; simpl; [|reflexivity].
    apply Nat.eqb_eq in E. subst d. destruct (a <? length p); lia.
Qed.

Lemma shift_S (p : index) (a t : nat) :
  a < length p ->
  shift p a (S t) = replace_nth a (S (nth a (shift p a t) 0)) (shift p a t).
Proof.
  intros Ha. apply index_ext.
  - unfold shift. rewrite !length_replace_nth. reflexivity.
  - intros d Hd. unfold shift. rewrite !nth_replace_nth, !length_replace_nth.
    rewrite Nat.eqb_refl.
    replace (a <? length p) with true by (symmetry; apply Nat.ltb_lt; lia).
    destruct (d =? a); simpl; lia.
Qed.

Section Run.

Variables (fg : index -> bool) (sh : list nat) (p0 : index) (a L : nat).
Hypothesis a_axis : a < length sh.
Hypothesis start_in : in_bounds p0 sh = true.
Hypothesis L_pos : 1 <= L.
Hypothesis run_fits : nth a p0 0 + L <= nth a sh 0.
Hypothesis image_is_run : forall q, in_bounds q sh = true -> fg q = on_run p0 a L q.

Local Abbreviation cell := (cell fg sh).
Local Abbreviation conn := (conn fg sh).

Lemma p0_length : length p0 = length sh.
Proof. apply in_bounds_length, start_in. Qed.

Lemma run_in_bounds (q : index) : on_run p0 a L q = true -> in_bounds q sh = true.
Proof.
  pose proof p0_length as Hl0.
  intros H. apply on_run_spec in H as (Hl & Hd & Hr); [|lia].
  apply in_bounds_nth. split; [congruence|]. intros d Hd'.
  apply in_bounds_nth in start_in as [_ H0].
  destruct (Nat.eq_dec d a) as [->|Hda]; [lia|].
  rewrite Hd by lia. apply H0, Hd'.
Qed.

Lemma run_cell (q : index) : cell q <-> on_run p0 a L q = true.
Proof.
  change (in_bounds q sh = true /\ fg q = true <-> on_run p0 a L q = true). split.
  - intros [Hb Hf]. rewrite <- image_is_run; assumption.
  - intros H. pose proof (@run_in_bounds q H) as Hb. split; [exact Hb|].
    rewrite image_is_run; assumption.
Qed.

Lemma run_shift (t : nat) : t < L -> on_run p0 a L (shift p0 a t) = true.
Proof.
  pose proof p0_length as Hl0.
  intros Ht. apply on_run_spec; [lia|]. unfold shift. split; [|split].
  - apply length_replace_nth.
  - intros d Hd Hda. rewrite nth_replace_nth.
    apply Nat.eqb_neq in Hda. rewrite Hda. reflexivity.
  - rewrite nth_replace_nth, Nat.eqb_refl.
    replace (a <? length p0) with true by (symmetry; apply Nat.ltb_lt; lia).
    simpl. lia.
Qed.

Lemma run_is_shift (q : index) :
  on_run p0 a L q = true -> q = shift p0 a (nth a q 0 - nth a p0 0).
Proof.
  pose proof p0_length as Hl0.
  intros H. apply on_run_spec in H as (Hl & Hd & Hr); [|lia].
  apply index_ext.
  - unfold shift. rewrite length_replace_nth. exact Hl.
  - intros d Hd'. unfold shift. rewrite nth_replace_nth.
    destruct (d =? a) eqn:E; simpl.
    + apply Nat.eqb_eq in E. subst d.
      replace (a <? length p0) with true by (symmetry; apply Nat.ltb_lt; lia). lia.
    + apply Hd; [lia|]. apply Nat.eqb_neq, E.
Qed.

Lemma run_connected (t : nat) : t < L -> conn p0 (shift p0 a t).
Proof.
  pose proof p0_length as Hl0.
  induction t as [|t IH]; intros Ht.
  - pose proof (run_shift Ht) as H0. rewrite shift_0 in H0 |- *.
    constructor. apply run_cell, H0.
  - eapply conn_step; [apply IH; lia| |].
    + apply run_cell, run_shift, Ht.
    + rewrite shift_S by lia. apply neighbours_next.
      unfold shift. rewrite length_replace_nth. lia.
Qed.

Lemma run_conn (q : index) : cell q -> conn p0 q.
Proof.
  intros H. apply run_cell in H. pose proof H as H'.
  apply on_run_spec in H' as (_ & _ & Hr); [|rewrite p0_length; exact a_axis].
  rewrite (@run_is_shift q H). apply run_connected. lia.
Qed.

End Run.

(** * The chord lengths of a single straight run *)

Lemma side_lengths_In (b : box) (m : Z) :
  In m (side_lengths b) <->
  exists d lo hi, nth_error b d = Some (lo, hi) /\ m = (Z.of_nat hi - Z.of_nat lo)%Z.
Proof.
  unfold side_lengths. rewrite in_map_iff. split.
  - intros ([lo hi] & <- & Hin). apply In_nth_error in Hin as [d Hd].
    exists d, lo, hi. auto.
  - intros (d & lo & hi & Hd & ->). exists (lo, hi). split; [reflexivity|].
    eapply nth_error_In, Hd.
Qed.

Section ChordRun.

Context {A : Type} `{Truthy A} (im : ndarray A) (p0 : index) (a L : nat).
Hypothesis a_axis : a < ndim im.
Hypothesis start_in : in_bounds p0 (shape im) = true.
Hypothesis L_pos : 1 <= L.
Hypothesis run_fits : nth a p0 0 + L <= nth a (shape im) 0.
Hypothesis image_is_run :
  forall q, in_bounds q (shape im) = true -> truthy (data im q) = on_run p0 a L q.

Let fg : index -> bool := fun p => truthy (data im p).
Let lab : index -> nat := fst (label_table fg (shape im)).
Let N : nat := snd (label_table fg (shape im)).

Lemma run_cells (q : index) : cell fg (shape im) q <-> on_run p0 a L q = true.
Proof. apply run_cell; assumption. Qed.

Lemma run_label (q : index) : lab q <> 0 <-> on_run p0 a L q = true.
Proof. unfold lab. rewrite label_nonzero. apply run_cells. Qed.

Lemma run_start : on_run p0 a L p0 = true.
Proof.
  assert (H0 : on_run p0 a L (shift p0 a 0) = true)
    by (apply run_shift with (sh := shape im); assumption).
  rewrite shift_0 in H0. exact H0.
Qed.

Lemma run_one_label (q : index) : lab q <> 0 -> lab q = lab p0.
Proof.
  intros Hq. apply run_label in Hq.
  assert (Hc0 : cell fg (shape im) p0) by (apply run_cells, run_start).
  apply (label_same q Hc0).
  apply run_conn with (a := a) (L := L); try assumption. apply run_cells, Hq.
Qed.

Lemma run_one_component : N = 1 /\ lab p0 = 1.
Proof.
  pose proof (label_table_correct fg (shape im)) as Hc.
  pose proof (@sc_cell fg (shape im) _ _ Hc) as Hcell.
  pose proof (@sc_used fg (shape im) _ _ Hc) as Hused.
  change (forall p, lab p <> 0 -> cell fg (shape im) p /\ lab p <= N) in Hcell.
  change (forall l, 1 <= l <= N -> exists p, lab p = l) in Hused.
  assert (H0 : lab p0 <> 0) by (apply run_label, run_start).
  destruct (Hcell p0 H0) as [_ Hle].
  destruct (Hused 1) as [q1 Hq1]; [lia|].
  destruct (Hused N) as [qN HqN]; [lia|].
  pose proof (run_one_label q1 ltac:(lia)).
  pose proof (run_one_label qN ltac:(lia)).
  lia.
Qed.

Lemma run_box_sides (b : box) (d lo hi : nat) :
  bounding_box (fun p => lab p = 1) b -> length b = ndim im ->
  nth_error b d = Some (lo, hi) ->
  (Z.of_nat hi - Z.of_nat lo)%Z = if d =? a then Z.of_nat L else 1%Z.
Proof.
  intros Hbb Hlen E.
  destruct run_one_component as [HN H1].
  pose proof (in_bounds_length _ _ start_in) as Hl0. unfold ndim in *.
  assert (HP : forall q, lab q = 1 <-> on_run p0 a L q = true).
  { intros q. rewrite <- run_label. split; [lia|]. intros Hq.
    rewrite (run_one_label q Hq). exact H1. }
  assert (Hd : d < length p0).
  { rewrite Hl0, <- Hlen. apply nth_error_Some. congruence. }
  destruct (Hbb d lo hi E) as (Hall & (p2 & Hp2 & E2) & (p3 & Hp3 & E3)).
  apply HP in Hp2, Hp3.
  apply on_run_spec in Hp2 as (_ & Hd2 & Hr2); [|lia].
  apply on_run_spec in Hp3 as (_ & Hd3 & Hr3); [|lia].
  pose proof (Hall p0 (proj2 (HP p0) run_start)) as Hb0.
  destruct (d =? a) eqn:Eda.
  - apply Nat.eqb_eq in Eda. subst d.
    assert (Hlast : on_run p0 a L (shift p0 a (L - 1)) = true)
      by (apply run_shift with (sh := shape im); try assumption; lia).
    pose proof (Hall _ (proj2 (HP _) Hlast)) as Hbl.
    unfold shift in Hbl. rewrite nth_replace_nth, Nat.eqb_refl in Hbl.
    replace (a <? length p0) with true in Hbl by (symmetry; apply Nat.ltb_lt; lia).
    simpl in Hbl. lia.
  - apply Nat.eqb_neq in Eda.
    rewrite Hd2 in E2 by assumption. rewrite Hd3 in E3 by assumption. lia.
Qed.

Lemma chord_length_of_run : chord_length_distribution im = Ok [Z.of_nat L].
Proof.
  assert (Hk : ndim im <> 0) by lia.
  assert (Hs : size im <> 0) by (apply in_bounds_size with (p := p0), start_in).
  destruct (chord_length_distribution_entries im Hk Hs) as (lens & E & Hlen & Hent).
  destruct run_one_component as [HN H1].
  change (length lens = N) in Hlen. rewrite HN in Hlen.
  destruct (Hent 1) as (b & Hbb & Hb & [Hin Hmax]); [change (1 <= 1 <= N); lia|].
  change (bounding_box (fun p => lab p = 1) b) in Hbb.
  destruct lens as [|v [|w lens]]; try discriminate. simpl in Hin, Hmax.
  rewrite E. do 2 f_equal.
  apply side_lengths_In in Hin as (d & lo & hi & Hd & ->).
  rewrite (@run_box_sides b d lo hi Hbb Hb Hd) in Hmax |- *.
  destruct (nth_error b a) as [[lo' hi']|] eqn:Ea.
  2:{ apply nth_error_None in Ea. lia. }
  pose proof (@run_box_sides b a lo' hi' Hbb Hb Ea) as Ha. rewrite Nat.eqb_refl in Ha.
  assert (Hin : In (Z.of_nat L) (side_lengths b)).
  { apply side_lengths_In. exists a, lo', hi'. split; [exact Ea|]. symmetry. exact Ha. }
  specialize (Hmax _ Hin).
  destruct (d =? a); lia.
Qed.

End ChordRun.

(** C9.  On an image with at least one axis and at least one cell (no axis
    of extent 0), [chord_length_distribution] returns one length for every
    connected component of the image: [label] gives the labels 1..N, each to one
    whole component of face-connected non-zero cells, the returned sequence
    has N entries, and entry [l - 1] is the length of the longest side of the
    smallest box that holds the cells labelled [l].  In particular an image
    whose non-zero cells are one straight run of [L >= 1] cells along an axis
    gives the one-element sequence [[L]]. *)
Theorem chord_length_distribution_longest_sides {A} `{Truthy A} (im : ndarray A) :
  ndim im <> 0 -> size im <> 0 ->
  let fg := fun p => truthy (data im p) in
  let labels := fst (label im) in
  let N := snd (label im) in
  (forall p, data labels p <> 0 <-> cell fg (shape im) p)
  /\ (forall p, data labels p <= N)
  /\ (forall p q, cell fg (shape im) p ->
        (data labels q = data labels p <-> conn fg (shape im) p q))
  /\ (forall l, 1 <= l <= N -> exists p, data labels p = l)
  /\ (exists lens,
        chord_length_distribution im = Ok lens /\ length lens = N
        /\ forall l, 1 <= l <= N ->
             exists b, bounding_box (fun p => data labels p = l) b
                       /\ length b = ndim im
                       /\ longest_side b (nth (l - 1) lens 0%Z))
  /\ (forall p0 a L,
        a < ndim im -> in_bounds p0 (shape im) = true -> 1 <= L ->
        nth a p0 0 + L <= nth a (shape im) 0 ->
        (forall q, in_bounds q (shape im) = true -> fg q = on_run p0 a L q) ->
        chord_length_distribution im = Ok [Z.of_nat L]).
Proof.
  intros Hk Hs fg labels N.
  pose proof (label_table_correct fg (shape im)) as Hc.
  split; [|split; [|split; [|split; [|split]]]].
  - intros p. apply label_nonzero.
  - intros p. change (fst (label_table fg (shape im)) p <= snd (label_table fg (shape im))).
    destruct (Nat.eq_dec (fst (label_table fg (shape im)) p) 0) as [->|Hp]; [lia|].
    apply (@sc_cell fg (shape im) _ _ Hc p Hp).
  - intros p q Hp. apply label_same, Hp.
  - intros l Hl. apply (@sc_used fg (shape im) _ _ Hc l Hl).
  - apply chord_length_distribution_entries; assumption.
  - intros p0 a L Ha Hp0 HL Hfit Hrun.
    apply chord_length_of_run with (p0 := p0) (a := a); assumption.
Qed.

Lemma chord_length_distribution_longest_sides_witness :
  ndim run_4x6 <> 0 /\ size run_4x6 <> 0
  /\ chord_length_distribution run_4x6 = Ok [3%Z].
Proof.
  assert (Hk : ndim run_4x6 <> 0) by discriminate.
  assert (Hs : size run_4x6 <> 0) by discriminate.
  split; [exact Hk|]. split; [exact Hs|].
  destruct (@chord_length_distribution_longest_sides bool _ run_4x6 Hk Hs)
    as (_ & _ & _ & _ & _ & Hrun).
  apply (Hrun [1; 2] 1 3).
  - vm_compute. lia.
  - reflexivity.
  - lia.
  - vm_compute. lia.
  - intros q _. reflexivity.
Defined.

(** * [porosity] *)

Lemma filter_map_length {A B} (f : B -> bool) (g : A -> B) (l : list A) :
  length (filter f (map g l)) = length (filter (fun x => f (g x)) l).
Proof.
  induction l as [|x l IH]; simpl; [reflexivity|].
  destruct (f (g x)); simpl; rewrite IH; reflexivity.
Qed.

Lemma filter_length_all {A} (f : A -> bool) (l : list A) :
  length (filter f l) = length l <-> forall x, In x l -> f x = true.
Proof.
  induction l as [|x l IH]; simpl.
  - split; [intros _ y []|reflexivity].
  - pose proof (filter_length_le f l) as Hle. destruct (f x) eqn:Ex; simpl.
    + split.
      * intros E y [<-|Hy]; [exact Ex|]. apply IH; [lia|exact Hy].
      * intros Hall. f_equal. apply IH. intros y Hy. apply Hall. right. exact Hy.
    + split; [lia|]. intros Hall. rewrite Hall in Ex by (left; reflexivity). discriminate.
Qed.

Lemma filter_length_none {A} (f : A -> bool) (l : list A) :
  length (filter f l) = 0 <-> forall x, In x l -> f x = false.
Proof.
  induction l as [|x l IH]; simpl.
  - split; [intros _ y []|reflexivity].
  - destruct (f x) eqn:Ex; simpl.
    + split; [discriminate|]. intros Hn. rewrite Hn in Ex by (left; reflexivity).
      discriminate.
    + rewrite IH. split.
      * intros Hn y [<-|Hy]; auto.
      * intros Hn y Hy. apply Hn. right. exact Hy.
Qed.

Lemma porosity_unfold {A} `{Positive A} (im : ndarray A) :
  porosity im = true_divide (Z.of_nat (count_positive im)) (Z.of_nat (size im)).
Proof.
  unfold porosity, count_true_of, count_positive, flatten, amap. simpl.
  rewrite filter_map_length. reflexivity.
Qed.

Lemma count_positive_le {A} `{Positive A} (im : ndarray A) : count_positive im <= size im.
Proof.
  unfold count_positive, size. rewrite <- length_indices. apply filter_length_le.
Qed.

Lemma true_divide_num (a b : Z) :
  b <> 0%Z -> exists q, true_divide a b = Qnum q /\ (q == inject_Z a / inject_Z b)%Q.
Proof.
  intros Hb. unfold true_divide. apply Z.eqb_neq in Hb. rewrite Hb.
  eexists. split; [reflexivity|]. apply Qred_correct.
Qed.

Lemma Qdiv_Z_bounds (a b : Z) :
  (0 <= a <= b)%Z -> (0 < b)%Z -> (0 <= inject_Z a / inject_Z b <= 1)%Q.
Proof.
  intros Ha Hb.
  assert (Hb' : (0 < inject_Z b)%Q) by (unfold Qlt; simpl; lia).
  split.
  - apply Qle_shift_div_l; [exact Hb'|]. rewrite Qmult_0_l.
    unfold Qle; simpl; lia.
  - apply Qle_shift_div_r; [exact Hb'|]. rewrite Qmult_1_l.
    unfold Qle; simpl; lia.
Qed.

Lemma Qred_inject_Z (c : Z) : Qred (inject_Z c) = inject_Z c.
Proof.
  unfold Qred, inject_Z.
  pose proof (Z.ggcd_correct_divisors c 1) as Hd. pose proof (Z.ggcd_gcd c 1) as Hg.
  destruct (Z.ggcd c 1) as [g [aa bb]]. simpl in *.
  rewrite Z.gcd_1_r in Hg. subst g. destruct Hd as [Ha Hb].
  assert (bb = 1%Z) by lia. subst bb. f_equal. lia.
Qed.

Lemma true_divide_eq_Z (a b c : Z) :
  b <> 0%Z -> (true_divide a b = Qnum (inject_Z c) <-> a = (c * b)%Z).
Proof.
  intros Hb. unfold true_divide. pose proof Hb as Hb'. apply Z.eqb_neq in Hb'. rewrite Hb'.
  assert (Hq : ~ (inject_Z b == 0)%Q).
  { intros E. apply Hb. unfold Qeq in E. simpl in E. lia. }
  split.
  - intros E.
    apply (f_equal (fun r => match r with Qnum q => q | _ => 0%Q end)) in E.
    change (Qred (inject_Z a / inject_Z b) = inject_Z c) in E.
    assert (E' : (inject_Z a / inject_Z b == inject_Z c)%Q).
    { rewrite <- (Qred_correct (inject_Z a / inject_Z b)). rewrite E. reflexivity. }
    assert (E2 : (inject_Z a == inject_Z c * inject_Z b)%Q).
    { rewrite <- E'. field. exact Hq. }
    rewrite <- inject_Z_mult in E2. unfold Qeq in E2. simpl in E2. lia.
  - intros ->. f_equal.
    replace (inject_Z c) with (Qred (inject_Z c)).
    + apply Qred_complete. rewrite inject_Z_mult. field. exact Hq.
    + apply Qred_inject_Z.
Qed.

Section Porosity.

Context {A : Type} `{Positive A} (im : ndarray A).

(** X1.  [porosity] never fails: on an image without cells the quotient is 0/0,
    not a number; on every other image it is a number, never infinite. *)
Theorem porosity_nan_iff_empty :
  (porosity im = Qnan <-> size im = 0) /\ porosity im <> Qinf.
Proof.
  rewrite porosity_unfold. pose proof (count_positive_le im) as Hle.
  unfold true_divide.
  destruct (Z.eqb_spec (Z.of_nat (size im)) 0) as [E|E].
  - replace (count_positive im) with 0 by lia. simpl.
    split; [split; [lia|reflexivity]|discriminate].
  - split; [split; [discriminate|lia]|discriminate].
Qed.

(** X2.  On an image with at least one cell, [porosity] is a number between 0
    and 1, the bounds included: there are never more positive cells than
    cells. *)
Theorem porosity_fraction :
  size im <> 0 ->
  count_positive im <= size im
  /\ exists q, porosity im = Qnum q /\ (0 <= q <= 1)%Q.
Proof.
  intros Hn. rewrite porosity_unfold. pose proof (count_positive_le im) as Hle.
  split; [exact Hle|].
  destruct (@true_divide_num (Z.of_nat (count_positive im)) (Z.of_nat (size im)))
    as (q & E & Hq); [lia|].
  exists q. split; [exact E|]. rewrite Hq.
  apply Qdiv_Z_bounds; lia.
Qed.

(** X3.  The porosity is 1 exactly when every cell of the image is positive, and
    0 exactly when none is. *)
Theorem porosity_extremes :
  size im <> 0 ->
  (porosity im = Qnum 1
   <-> forall p, in_bounds p (shape im) = true -> positive_cell (data im p) = true)
  /\ (porosity im = Qnum 0
      <-> forall p, in_bounds p (shape im) = true -> positive_cell (data im p) = false).
Proof.
  intros Hn. rewrite porosity_unfold.
  change 1%Q with (inject_Z 1). change 0%Q with (inject_Z 0).
  rewrite !true_divide_eq_Z by lia.
  unfold count_positive, size. rewrite <- length_indices.
  split.
  - rewrite Z.mul_1_l, Nat2Z.inj_iff, filter_length_all.
    split; intros Hall p Hp; apply Hall; apply indices_spec; exact Hp.
  - rewrite Z.mul_0_l. change 0%Z with (Z.of_nat 0). rewrite Nat2Z.inj_iff, filter_length_none.
    split; intros Hall p Hp; apply Hall; apply indices_spec; exact Hp.
Qed.

End Porosity.


Lemma porosity_fraction_witness :
  size half_void_2x2 <> 0
  /\ exists q, porosity half_void_2x2 = Qnum q /\ (0 <= q <= 1)%Q.
Proof.
  assert (Hn : size half_void_2x2 <> 0) by (vm_compute; lia).
  split; [exact Hn|]. apply (proj2 (@porosity_fraction bool _ half_void_2x2 Hn)).
Defined.

Lemma porosity_extremes_witness :
  size void_2x2 <> 0 /\ porosity void_2x2 = Qnum 1.
Proof.
  assert (Hn : size void_2x2 <> 0) by (vm_compute; lia).
  split; [exact Hn|].
  apply (proj1 (@porosity_extremes bool _ void_2x2 Hn)). intros p _. reflexivity.
Defined.

(** * [size_distribution] *)

Lemma insert_unique_In (x v : Z) (l : list Z) :
  In v (insert_unique x l) <-> v = x \/ In v l.
Proof.
  induction l as [|y l IH]; simpl.
  - split; intros [H|H]; auto.
  - destruct (Z.ltb_spec x y); simpl.
    + split; intros [H1|H1]; auto.
    + destruct (Z.eqb_spec x y); simpl.
      * subst y. split; [auto|]. intros [->|H1]; auto.
      * rewrite IH. split; intros [H1|[H1|H1]]; auto.
Qed.

Lemma unique_In (v : Z) (l : list Z) : In v (unique l) <-> In v l.
Proof.
  unfold unique. induction l as [|x l IH]; simpl; [reflexivity|].
  rewrite insert_unique_In, IH. split; intros [H|H]; auto.
Qed.

Lemma insert_unique_sorted (x : Z) (l : list Z) :
  StronglySorted Z.lt l -> StronglySorted Z.lt (insert_unique x l).
Proof.
  induction l as [|y l IH]; simpl; intros Hs.
  - repeat constructor.
  - apply StronglySorted_inv in Hs as [Hs Hy].
    destruct (Z.ltb_spec x y).
    + constructor; [constructor; assumption|].
      constructor; [assumption|]. eapply Forall_impl; [|exact Hy]. simpl. intros; lia.
    + destruct (Z.eqb_spec x y); [constructor; assumption|].
      constructor; [apply IH, Hs|].
      apply Forall_forall. intros v Hv. apply insert_unique_In in Hv as [->|Hv]; [lia|].
      rewrite Forall_forall in Hy. apply Hy, Hv.
Qed.

Lemma unique_sorted (l : list Z) : StronglySorted Z.lt (unique l).
Proof.
  unfold unique. induction l as [|x l IH]; simpl; [constructor|].
  apply insert_unique_sorted, IH.
Qed.

Lemma sorted_tl (l : list Z) : StronglySorted Z.lt l -> StronglySorted Z.lt (tl l).
Proof. destruct l; simpl; [auto|]. intros Hs. apply StronglySorted_inv in Hs. tauto. Qed.

Lemma sorted_increasing (l : list Z) : StronglySorted Z.lt l -> increasing l = true.
Proof.
  induction l as [|a l IH]; [reflexivity|]. intros Hs.
  apply StronglySorted_inv in Hs as [Hs Ha]. specialize (IH Hs).
  destruct l as [|b l]; [reflexivity|].
  change (((a <=? b)%Z && increasing (b :: l)) = true). rewrite IH, andb_true_r.
  apply Z.leb_le. apply Forall_inv in Ha. lia.
Qed.

Lemma length_value_counts (a edges : list Z) :
  length (value_counts a edges) = length edges - 1.
Proof.
  induction edges as [|lo [|hi more] IH]; try reflexivity.
  change (S (length (value_counts a (hi :: more))) = length (lo :: hi :: more) - 1).
  rewrite IH. simpl. lia.
Qed.

Lemma length_removelast {B} (l : list B) : length (removelast l) = length l - 1.
Proof.
  induction l as [|x [|y l] IH]; try reflexivity.
  change (S (length (removelast (y :: l))) = length (x :: y :: l) - 1).
  rewrite IH. simpl. lia.
Qed.

Lemma nth_removelast {B} (l : list B) (j : nat) (d : B) :
  S j < length l -> nth j (removelast l) d = nth j l d.
Proof.
  revert j; induction l as [|x [|y l] IH]; intros j Hj; simpl in Hj; try lia.
  destruct j as [|j]; [reflexivity|].
  change (nth j (removelast (y :: l)) d = nth j (y :: l) d).
  apply IH. simpl. lia.
Qed.

Lemma nth_last {B} (l : list B) (d : B) : nth (length l - 1) l d = last l d.
Proof.
  induction l as [|x [|y l] IH]; try reflexivity.
  change (last (x :: y :: l) d) with (last (y :: l) d). rewrite <- IH.
  simpl. rewrite Nat.sub_0_r. reflexivity.
Qed.

Lemma In_removelast_sorted (l : list Z) (v : Z) :
  StronglySorted Z.lt l ->
  (In v (removelast l) <-> In v l /\ exists hi, In hi l /\ (v < hi)%Z).
Proof.
  induction l as [|x [|y l] IH]; intros Hs.
  - simpl. tauto.
  - simpl. split; [tauto|]. intros [[<-|[]] (hi & [<-|[]] & Hlt)]. lia.
  - apply StronglySorted_inv in Hs as [Hs Hx]. specialize (IH Hs).
    change (removelast (x :: y :: l)) with (x :: removelast (y :: l)).
    rewrite Forall_forall in Hx.
    split.
    + intros [<-|Hv].
      * split; [left; reflexivity|]. exists y. split; [right; left; reflexivity|].
        apply Hx. left. reflexivity.
      * apply IH in Hv as (Hv & hi & Hhi & Hlt). split; [right; exact Hv|].
        exists hi. split; [right; exact Hhi|exact Hlt].
    + intros ([<-|Hv] & hi & Hhi & Hlt); [left; reflexivity|].
      right. apply IH. split; [exact Hv|]. exists hi. split; [|exact Hlt].
      destruct Hhi as [<-|Hhi]; [|exact Hhi]. specialize (Hx _ Hv). lia.
Qed.

Lemma In_tl_sorted (l : list Z) (v : Z) :
  StronglySorted Z.lt l ->
  (In v (tl l) <-> In v l /\ exists lo, In lo l /\ (lo < v)%Z).
Proof.
  destruct l as [|x l]; simpl; intros Hs.
  - split; [tauto|]. intros [[] _].
  - apply StronglySorted_inv in Hs as [Hs Hx]. rewrite Forall_forall in Hx.
    split.
    + intros Hv. split; [auto|]. exists x. split; [auto|]. apply Hx, Hv.
    + intros ([<-|Hv] & lo & [<-|Hlo] & Hlt); auto; try lia.
      specialize (Hx _ Hlo). lia.
Qed.

Lemma last_sorted_max (l : list Z) (d : Z) :
  StronglySorted Z.lt l -> l <> [] ->
  In (last l d) l /\ forall v, In v l -> (v <= last l d)%Z.
Proof.
  induction l as [|x [|y l] IH]; intros Hs Hne; [congruence| |].
  - simpl. split; [auto|]. intros v [<-|[]]. lia.
  - apply StronglySorted_inv in Hs as [Hs Hx]. rewrite Forall_forall in Hx.
    destruct (IH Hs ltac:(discriminate)) as [Hin Hmax].
    change (last (x :: y :: l) d) with (last (y :: l) d).
    split; [right; exact Hin|]. intros v [<-|Hv]; [|apply Hmax, Hv].
    specialize (Hx _ Hin). lia.
Qed.

Lemma filter_two_values (a : list Z) (lo hi : Z) :
  (lo < hi)%Z -> (forall x, In x a -> x = lo \/ x = hi \/ (x < lo)%Z) ->
  length (filter (fun v => (lo <=? v)%Z && (v <=? hi)%Z) a)
  = length (filter (fun x => (x =? lo)%Z) a) + length (filter (fun x => (x =? hi)%Z) a).
Proof.
  intros Hlt. induction a as [|x a IHa]; intros Ha; [reflexivity|].
  specialize (IHa (fun y Hy => Ha y (or_intror Hy))).
  cbn [filter].
  destruct (Ha x (or_introl eq_refl)) as [->|[->|Hx]].
  - replace ((lo <=? lo)%Z && (lo <=? hi)%Z) with true by lia.
    rewrite Z.eqb_refl. replace (lo =? hi)%Z with false by lia.
    simpl. lia.
  - replace ((lo <=? hi)%Z && (hi <=? hi)%Z) with true by lia.
    rewrite Z.eqb_refl. replace (hi =? lo)%Z with false by lia.
    simpl. lia.
  - replace ((lo <=? x)%Z && (x <=? hi)%Z) with false by lia.
    replace (x =? lo)%Z with false by lia. replace (x =? hi)%Z with false by lia.
    exact IHa.
Qed.

(** The count of one bin of sorted edges taken from the values themselves:
    the values equal to its left edge, and for the last bin those equal to
    its right edge as well. *)
Lemma value_counts_sorted (a edges : list Z) :
  StronglySorted Z.lt edges ->
  (forall x, In x a -> In x edges \/ (x < hd 0 edges)%Z) ->
  forall j, S j < length edges ->
    nth j (value_counts a edges) 0%Z
    = (Z.of_nat (length (filter (fun x => (x =? nth j edges 0)%Z) a))
       + (if (S (S j) =? length edges)%nat
          then Z.of_nat (length (filter (fun x => (x =? nth (S j) edges 0)%Z) a))
          else 0))%Z.
Proof.
  induction edges as [|lo [|hi more] IH]; intros Hs Ha j Hj; simpl in Hj; try lia.
  apply StronglySorted_inv in Hs as [Hs Hlo]. rewrite Forall_forall in Hlo.
  assert (Hhi : forall x, In x more -> (hi < x)%Z).
  { apply StronglySorted_inv in Hs as [_ Hh]. rewrite Forall_forall in Hh. exact Hh. }
  assert (Hlohi : (lo < hi)%Z) by (apply Hlo; left; reflexivity).
  destruct j as [|j].
  - cbn [value_counts nth]. destruct more as [|e more].
    + simpl length. simpl Nat.eqb. cbv iota.
      rewrite <- Nat2Z.inj_add. f_equal. apply filter_two_values; [exact Hlohi|].
      intros x Hx. destruct (Ha x Hx) as [[H|[H|[]]]|H]; auto.
    + simpl length. simpl Nat.eqb. cbv iota. rewrite Z.add_0_r. do 2 f_equal.
      apply filter_ext_in. intros x Hx.
      destruct (Ha x Hx) as [[H|[H|H]]|H]; simpl in H.
      * subst x. rewrite Z.eqb_refl. lia.
      * subst x. replace (hi =? lo)%Z with false by lia. lia.
      * assert (hi < x)%Z by (apply Hhi; exact H).
        replace (x =? lo)%Z with false by lia. lia.
      * replace (x =? lo)%Z with false by lia. lia.
  - change (nth (S j) (value_counts a (lo :: hi :: more)) 0%Z)
      with (nth j (value_counts a (hi :: more)) 0%Z).
    rewrite IH; [reflexivity|exact Hs| |simpl; lia].
    intros x Hx. destruct (Ha x Hx) as [[H|H]|H]; simpl in *; [right; lia|left; exact H|right; lia].
Qed.

Lemma filter_filter_length {B} (f g : B -> bool) (l : list B) :
  length (filter f (filter g l)) = length (filter (fun x => g x && f x) l).
Proof.
  induction l as [|x l IH]; simpl; [reflexivity|].
  destruct (g x); simpl; [destruct (f x); simpl|]; rewrite IH; reflexivity.
Qed.

Section SizeDistribution.

Variable im : ndarray Z.

Let u : list Z := unique (flatten im).
Let positive : list Z :=
  map (data im) (filter (fun p => (0 <? data im p)%Z) (indices (shape im))).

Lemma size_distribution_unfold :
  size_distribution im = Ok (removelast (tl u), value_counts positive (tl u)).
Proof.
  unfold size_distribution, histogram_values. fold u.
  rewrite sorted_increasing by (apply sorted_tl, unique_sorted). reflexivity.
Qed.

Lemma positive_count (v : Z) :
  Z.of_nat (length (filter (fun x => (x =? v)%Z) positive)) = count_cells im v.
Proof.
  unfold positive, count_cells. rewrite filter_map_length, filter_filter_length. reflexivity.
Qed.

Lemma positive_In (x : Z) : In x positive -> In x u.
Proof.
  unfold positive, u. intros Hx. apply in_map_iff in Hx as (p & <- & Hp).
  apply filter_In in Hp as [Hp _]. apply unique_In. unfold flatten. apply in_map, Hp.
Qed.

(** X4.  An image with at least two distinct values always gets a result: as
    many radii as counts, two fewer than there are distinct values. *)
Theorem size_distribution_lengths :
  2 <= length (unique (flatten im)) ->
  exists radii counts,
    size_distribution im = Ok (radii, counts)
    /\ length radii = length (unique (flatten im)) - 2
    /\ length counts = length radii.
Proof.
  intros Hu. rewrite size_distribution_unfold. do 2 eexists. split; [reflexivity|].
  rewrite length_removelast, length_value_counts. fold u in Hu |- *.
  destruct u; simpl in *; lia.
Qed.

(** X5.  The radii are the values of the image other than its smallest and its
    largest value, in increasing order. *)
Theorem size_distribution_radii (radii counts : list Z) :
  size_distribution im = Ok (radii, counts) ->
  StronglySorted Z.lt radii
  /\ forall v, In v radii <->
       In v (flatten im)
       /\ (exists lo, In lo (flatten im) /\ (lo < v)%Z)
       /\ (exists hi, In hi (flatten im) /\ (v < hi)%Z).
Proof.
  rewrite size_distribution_unfold. intros E. injection E as <- _.
  pose proof (unique_sorted (flatten im)) as Hs. fold u in Hs.
  pose proof (sorted_tl Hs) as Hs'.
  split.
  - clear - Hs'. induction (tl u) as [|x [|y l] IH]; [constructor|constructor|].
    apply StronglySorted_inv in Hs' as [Hs1 Hx].
    change (removelast (x :: y :: l)) with (x :: removelast (y :: l)).
    constructor; [apply IH, Hs1|].
    apply Forall_forall. intros v Hv. apply In_removelast_sorted in Hv as [Hv _]; [|exact Hs1].
    rewrite Forall_forall in Hx. apply Hx, Hv.
  - intros v. rewrite (In_removelast_sorted v Hs'), (In_tl_sorted v Hs).
    assert (Hu : forall x, In x u <-> In x (flatten im)) by (intros x; apply unique_In).
    split.
    + intros ((Hv & lo & Hlo & Hlt) & hi & Hhi & Hlt').
      apply (In_tl_sorted hi Hs) in Hhi as [Hhi _].
      split; [apply Hu, Hv|]. split; [exists lo|exists hi]; split; auto; apply Hu; auto.
    + intros (Hv & (lo & Hlo & Hlt) & hi & Hhi & Hlt').
      apply Hu in Hv, Hlo, Hhi. split; [eauto|].
      exists hi. split; [|exact Hlt']. apply (In_tl_sorted hi Hs). split; [exact Hhi|].
      exists lo. split; [exact Hlo|lia].
Qed.

(** X6.  Every count is the number of positive cells that hold its radius, but
    the last count, which takes in the cells of the largest value as well. *)
Theorem size_distribution_counts (radii counts : list Z) :
  size_distribution im = Ok (radii, counts) ->
  exists vmax,
    (radii <> [] ->
     In vmax (flatten im) /\ forall v, In v (flatten im) -> (v <= vmax)%Z)
    /\ forall j, j < length radii ->
         nth j counts 0%Z
         = (count_cells im (nth j radii 0%Z)
            + (if (S j =? length radii)%nat then count_cells im vmax else 0))%Z.
Proof.
  rewrite size_distribution_unfold. intros E. injection E as <- <-.
  pose proof (unique_sorted (flatten im)) as Hs. fold u in Hs.
  pose proof (sorted_tl Hs) as Hs'.
  exists (last u 0%Z). split.
  - intros Hne. assert (Hu : u <> []).
    { intros E. rewrite E in Hne. apply Hne. reflexivity. }
    destruct (last_sorted_max 0%Z Hs Hu) as [Hin Hmax]. split.
    + apply unique_In, Hin.
    + intros v Hv. apply Hmax, unique_In, Hv.
  - intros j Hj. rewrite length_removelast in Hj |- *.
    rewrite value_counts_sorted; [|exact Hs'| |lia].
    + rewrite nth_removelast by lia. rewrite !positive_count.
      replace (S (S j) =? length (tl u)) with (S j =? length (tl u) - 1)
        by (destruct (Nat.eqb_spec (S j) (length (tl u) - 1)),
                     (Nat.eqb_spec (S (S j)) (length (tl u))); auto; lia).
      destruct (Nat.eqb_spec (S j) (length (tl u) - 1)) as [El|El]; [|reflexivity].
      do 2 f_equal.
      replace (S j) with (length (tl u) - 1) by lia. rewrite nth_last.
      destruct u as [|x [|y l]]; simpl in Hj; try lia. reflexivity.
    + intros x Hx. apply positive_In in Hx.
      destruct u as [|x0 l]; [destruct Hx|]. simpl tl.
      destruct Hx as [<-|Hx]; [|left; exact Hx].
      right. apply StronglySorted_inv in Hs as [_ Hx0]. rewrite Forall_forall in Hx0.
      destruct l as [|y l]; [simpl in Hj; lia|]. simpl. apply Hx0. left. reflexivity.
Qed.

End SizeDistribution.

Lemma size_distribution_lengths_witness :
  2 <= length (unique (flatten sizes_2x3))
  /\ exists radii counts,
       size_distribution sizes_2x3 = Ok (radii, counts)
       /\ length radii = length (unique (flatten sizes_2x3)) - 2
       /\ length counts = length radii.
Proof.
  assert (Hu : 2 <= length (unique (flatten sizes_2x3))) by (vm_compute; lia).
  split; [exact Hu|]. apply (@size_distribution_lengths sizes_2x3 Hu).
Defined.

Lemma size_distribution_radii_witness :
  size_distribution sizes_2x3 = Ok ([1; 2]%Z, [2; 3]%Z)
  /\ StronglySorted Z.lt [1; 2]%Z
  /\ forall v, In v [1; 2]%Z <->
       In v (flatten sizes_2x3)
       /\ (exists lo, In lo (flatten sizes_2x3) /\ (lo < v)%Z)
       /\ (exists hi, In hi (flatten sizes_2x3) /\ (v < hi)%Z).
Proof.
  assert (E : size_distribution sizes_2x3 = Ok ([1; 2]%Z, [2; 3]%Z))
    by (vm_compute; reflexivity).
  split; [exact E|]. apply (@size_distribution_radii sizes_2x3 _ _ E).
Defined.

Lemma size_distribution_counts_witness :
  size_distribution sizes_2x3 = Ok ([1; 2]%Z, [2; 3]%Z)
  /\ exists vmax,
       ([1; 2]%Z <> [] ->
        In vmax (flatten sizes_2x3) /\ forall v, In v (flatten sizes_2x3) -> (v <= vmax)%Z)
       /\ forall j, j < 2 ->
            nth j [2; 3]%Z 0%Z
            = (count_cells sizes_2x3 (nth j [1; 2]%Z 0%Z)
               + (if (S j =? 2)%nat then count_cells sizes_2x3 vmax else 0))%Z.
Proof.
  assert (E : size_distribution sizes_2x3 = Ok ([1; 2]%Z, [2; 3]%Z))
    by (vm_compute; reflexivity).
  split; [exact E|]. apply (@size_distribution_counts sizes_2x3 _ _ E).
Defined.

(** * Two-point correlation: the shape of the result *)

Lemma py_range_raise (stop sp : Z) (e : exn) :
  py_range stop sp = Raise e -> e = ValueError.
Proof.
  unfold py_range. destruct (sp =? 0)%Z; [|discriminate]. congruence.
Qed.

Lemma normalize_indices_raise (sh : list nat) (cs : list Z) (e : exn) :
  normalize_indices sh cs = Raise e -> e = IndexError.
Proof.
  revert cs; induction sh as [|n sh IH]; intros [|c cs]; simpl; try congruence.
  unfold normalize_index. destruct (andb _ _); simpl; [|congruence].
  destruct (normalize_indices sh cs) as [p|e'] eqn:Ep; simpl; [discriminate|].
  intros E. injection E as <-. eapply IH, Ep.
Qed.

Lemma getitem_pts_raise {A} (im : ndarray A) (pts : list (ndarray Z)) (e : exn) :
  getitem_pts im pts = Raise e -> e = IndexError.
Proof.
  unfold getitem_pts. destruct (float_typed pts); [congruence|].
  intros E. apply mapM_raise in E as (cs & _ & E).
  destruct (normalize_indices (shape im) cs) as [p|e'] eqn:Ep; simpl in E; [discriminate|].
  injection E as <-. eapply normalize_indices_raise, Ep.
Qed.

(** What [two_point_histograms] returns, in terms of the sample points, the
    hits and the bin edges. *)
Lemma two_point_histograms_inv (im : ndarray bool) (sp : Z) (h1 h2 : list Z * list Z) :
  two_point_histograms im sp = Ok (h1, h2) ->
  exists pts crds hits bins,
    getitem_pts im pts = Ok hits
    /\ py_range (Z.of_nat (amin_shape (shape im)) / 2)%Z sp = Ok bins
    /\ h1 = (bin_counts (concat (mask hits (cdist crds crds))) bins, bins)
    /\ h2 = (bin_counts (concat (map (mask hits) (mask hits (cdist crds crds)))) bins, bins).
Proof.
  unfold two_point_histograms.
  destruct (match shape im with [] => _ | _ => _ end) as [[pts crds]|e]; simpl;
    [|discriminate].
  destruct (getitem_pts im pts) as [hits|e] eqn:Eh; simpl; [|discriminate].
  unfold mask_rows. destruct (_ =? _); simpl; [|discriminate].
  destruct (py_range _ sp) as [bins|e] eqn:Eb; simpl; [|discriminate].
  destruct (histogram _ bins) as [g1|e] eqn:Eg1; simpl; [|discriminate].
  unfold mask_cols. destruct (forallb _ _); simpl; [|discriminate].
  destruct (histogram _ (snd g1)) as [g2|e] eqn:Eg2; simpl; [|discriminate].
  intros E. injection E as <- <-.
  apply histogram_edges in Eg1, Eg2. subst g1. simpl in Eg2.
  exists pts, crds, hits, bins. auto.
Qed.

Lemma two_point_tail_raise (im : ndarray bool) (sp : Z) (pts : list (ndarray Z))
      (crds : list (list Z)) (e : exn) :
  (hits <- getitem_pts im pts ;;
   dmat <- mask_rows (cdist crds crds) hits ;;
   bins <- py_range (Z.of_nat (amin_shape (shape im)) / 2)%Z sp ;;
   h1 <- histogram dmat bins ;;
   dmat <- mask_cols dmat hits ;;
   h2 <- histogram dmat (snd h1) ;;
   Ok (h1, h2)) = Raise e ->
  e = ValueError \/ e = IndexError.
Proof.
  destruct (getitem_pts im pts) as [hits|eh] eqn:Eh; cbn [bind].
  2:{ intros E. injection E as <-. right. eapply getitem_pts_raise, Eh. }
  unfold mask_rows. destruct (_ =? _); cbn [bind]; [|intros E; injection E as <-; auto].
  destruct (py_range _ sp) as [bins|eb] eqn:Eb; cbn [bind].
  2:{ intros E. injection E as <-. left. eapply py_range_raise, Eb. }
  unfold histogram at 1. destruct (increasing bins) eqn:Ei; cbn [bind];
    [|intros E; injection E as <-; auto].
  unfold mask_cols. destruct (forallb _ _); cbn [bind]; [|intros E; injection E as <-; auto].
  unfold histogram. cbn [snd]. rewrite Ei. cbn [bind]. discriminate.
Qed.

Lemma two_point_histograms_raise (im : ndarray bool) (sp : Z) (e : exn) :
  two_point_histograms im sp = Raise e ->
  (e = UnboundLocalError /\ ~ (ndim im = 2 \/ ndim im = 3))
  \/ ((ndim im = 2 \/ ndim im = 3) /\ (e = ValueError \/ e = IndexError)).
Proof.
  unfold two_point_histograms, ndim.
  destruct (shape im) as [|s0 [|s1 [|s2 [|s3 sh]]]] eqn:Hsh; simpl length;
    try (intros E; injection E as <-; left; split; [reflexivity|intros [|]; discriminate]).
  - intros E. right. split; [left; reflexivity|]. revert E.
    destruct (py_range (Z.of_nat s0) sp) as [r0|e0] eqn:E0; cbn [bind].
    2:{ intros E. injection E as <-. left. eapply py_range_raise, E0. }
    destruct (py_range (Z.of_nat s1) sp) as [r1|e1] eqn:E1; cbn [bind].
    2:{ intros E. injection E as <-. left. eapply py_range_raise, E1. }
    cbn [fst snd]. rewrite <- Hsh. apply two_point_tail_raise.
  - intros E. right. split; [right; reflexivity|]. revert E.
    destruct (py_range (Z.of_nat s0) sp) as [r0|e0] eqn:E0; cbn [bind].
    2:{ intros E. injection E as <-. left. eapply py_range_raise, E0. }
    destruct (py_range (Z.of_nat s1) sp) as [r1|e1] eqn:E1; cbn [bind].
    2:{ intros E. injection E as <-. left. eapply py_range_raise, E1. }
    destruct (py_range (Z.of_nat s2) sp) as [r2|e2] eqn:E2; cbn [bind].
    2:{ intros E. injection E as <-. left. eapply py_range_raise, E2. }
    cbn [fst snd]. rewrite <- Hsh. apply two_point_tail_raise.
Qed.

(** X7.  A grid that has neither two nor three axes is not refused by a check:
    the sample points are never assigned, and reading them fails.  This is
    the only way in which the function raises UnboundLocalError. *)
Theorem two_point_correlation_dimension_error (im : ndarray bool) (sp : Z) :
  two_point_correlation_bf im sp = Raise UnboundLocalError
  <-> ~ (ndim im = 2 \/ ndim im = 3).
Proof.
  unfold two_point_correlation_bf.
  destruct (two_point_histograms im sp) as [h|e] eqn:E; simpl.
  - split; [discriminate|]. intros Hk. exfalso. apply Hk.
    destruct h as [h1 h2]. revert E. unfold two_point_histograms, ndim.
    destruct (shape im) as [|s0 [|s1 [|s2 [|s3 sh]]]]; simpl; auto; discriminate.
  - apply two_point_histograms_raise in E as [[-> Hk]|[Hk [-> | ->]]].
    + tauto.
    + split; [discriminate|tauto].
    + split; [discriminate|tauto].
Qed.

Lemma length_bin_counts (a edges : list Z) :
  length (bin_counts a edges) = length edges - 1.
Proof.
  induction edges as [|lo [|hi more] IH]; try reflexivity.
  change (S (length (bin_counts a (hi :: more))) = length (lo :: hi :: more) - 1).
  rewrite IH. simpl. lia.
Qed.

Lemma length_zip_with {A B C} (f : A -> B -> C) (l1 : list A) (l2 : list B) :
  length (zip_with f l1 l2) = Nat.min (length l1) (length l2).
Proof.
  revert l2; induction l1 as [|x l1 IH]; intros [|y l2]; simpl; auto.
Qed.

Lemma removelast_map_seq {B} (f : nat -> B) (n : nat) :
  removelast (map f (seq 0 n)) = map f (seq 0 (n - 1)).
Proof.
  destruct n as [|n]; [reflexivity|].
  rewrite seq_S, map_app. simpl. rewrite removelast_last. f_equal. f_equal. lia.
Qed.

Lemma py_range_count (stop sp : Z) (i : nat) :
  (0 < sp)%Z -> (0 <= stop)%Z ->
  (S i < Z.to_nat ((stop + sp - 1) / sp) <-> (Z.of_nat (S i) * sp < stop)%Z).
Proof.
  intros Hsp Hstop.
  assert (H0 : (0 <= (stop + sp - 1) / sp)%Z) by (apply Z.div_pos; lia).
  pose proof (Z.mul_div_le (stop + sp - 1) sp Hsp) as H1.
  pose proof (Z.mul_succ_div_gt (stop + sp - 1) sp Hsp) as H2.
  split; intros H; nia.
Qed.

(** X8.  For a positive spacing on a grid of two or three axes of extent 2 or
    more a pair of sequences of one length is returned; the distances are the multiples
    of the spacing that leave room for one more multiple below half the
    smallest extent. *)
Theorem two_point_correlation_bins (im : ndarray bool) (sp : Z) :
  ndim im = 2 \/ ndim im = 3 -> (0 < sp)%Z -> Forall (fun s => 2 <= s) (shape im) ->
  exists x y,
    two_point_correlation_bf im sp = Ok (x, y)
    /\ length y = length x
    /\ (forall i, i < length x -> nth i x 0%Z = (Z.of_nat i * sp)%Z)
    /\ (forall i, i < length x
                  <-> (Z.of_nat (S i) * sp < Z.of_nat (amin_shape (shape im)) / 2)%Z).
Proof.
  intros Hk Hsp H2. unfold two_point_correlation_bf.
  destruct (@two_point_histograms_total im sp Hk Hsp (no_extent_0_ge2 H2))
    as [[h1 h2] E]. rewrite E.
  apply two_point_histograms_inv in E as (pts & crds & hits & bins & _ & Eb & -> & ->).
  cbn [bind fst snd]. do 2 eexists. split; [reflexivity|].
  rewrite length_zip_with, !length_bin_counts, length_removelast, Nat.min_id.
  split; [reflexivity|].
  unfold py_range in Eb. replace (sp =? 0)%Z with false in Eb by lia.
  replace (0 <? sp)%Z with true in Eb by lia. injection Eb as <-.
  set (m := (Z.of_nat (amin_shape (shape im)) / 2)%Z).
  assert (Hm : (0 <= m)%Z) by (apply Z.div_pos; lia).
  rewrite removelast_map_seq, length_map, length_seq.
  split.
  - intros i Hi. rewrite nth_map_seq by lia. reflexivity.
  - intros i. rewrite <- (py_range_count i Hsp Hm). lia.
Qed.

(** * Two-point correlation: the ratios *)

Lemma filter_mask_le {B} (f : B -> bool) (hits : list bool) (l : list B) :
  length (filter f (mask hits l)) <= length (filter f l).
Proof.
  revert l; induction hits as [|h hits IH]; intros [|x l]; simpl; try lia.
  specialize (IH l). destruct h; simpl; destruct (f x); simpl; lia.
Qed.

Lemma filter_concat_mask_le {B} (f : B -> bool) (hits : list bool) (m : list (list B)) :
  length (filter f (concat (map (mask hits) m))) <= length (filter f (concat m)).
Proof.
  induction m as [|row m IH]; simpl; [lia|].
  rewrite !filter_app, !length_app. pose proof (filter_mask_le f hits row). lia.
Qed.

Lemma bin_counts_le (a b edges : list Z) :
  (forall f, length (filter f a) <= length (filter f b)) ->
  Forall2 (fun c2 c1 => (0 <= c2 <= c1)%Z) (bin_counts a edges) (bin_counts b edges).
Proof.
  intros Hab. induction edges as [|lo [|hi more] IH]; try constructor.
  - split; [lia|]. apply Nat2Z.inj_le, Hab.
  - exact IH.
Qed.

Lemma true_divide_probability (c2 c1 : Z) :
  (0 <= c2 <= c1)%Z -> probability (true_divide c2 c1).
Proof.
  intros Hc. unfold probability, true_divide.
  destruct (Z.eqb_spec c1 0) as [E|E].
  - replace (c2 =? 0)%Z with true by lia. left. reflexivity.
  - right. eexists. split; [reflexivity|]. rewrite Qred_correct.
    apply Qdiv_Z_bounds; lia.
Qed.

Lemma zip_with_Forall2 {B C D} (P : B -> C -> Prop) (Q : D -> Prop) (f : B -> C -> D)
      (l1 : list B) (l2 : list C) :
  (forall x y, P x y -> Q (f x y)) -> Forall2 P l1 l2 -> Forall Q (zip_with f l1 l2).
Proof.
  intros Hf H. induction H; simpl; constructor; auto.
Qed.

(** X9.  In every bin the pairs with both points void are among the pairs whose
    first point is void: every returned ratio is a fraction between 0 and 1,
    or not a number where no pair was counted; it is never infinite. *)
Theorem two_point_correlation_probabilities (im : ndarray bool) (sp : Z)
        (x : list Z) (y : list quotient) :
  two_point_correlation_bf im sp = Ok (x, y) ->
  (exists h1 h2, two_point_histograms im sp = Ok (h1, h2)
     /\ Forall2 (fun c2 c1 => (0 <= c2 <= c1)%Z) (fst h2) (fst h1))
  /\ Forall probability y.
Proof.
  unfold two_point_correlation_bf.
  destruct (two_point_histograms im sp) as [[h1 h2]|e] eqn:E; cbn [bind fst snd];
    [|discriminate].
  intros E'. injection E' as <- <-.
  assert (Hle : Forall2 (fun c2 c1 => (0 <= c2 <= c1)%Z) (fst h2) (fst h1)).
  { apply two_point_histograms_inv in E as (pts & crds & hits & bins & _ & _ & -> & ->).
    cbn [fst]. apply bin_counts_le. intros f. apply filter_concat_mask_le. }
  split; [eauto|]. eapply zip_with_Forall2; [|exact Hle].
  intros c2 c1. apply true_divide_probability.
Qed.

Lemma two_point_correlation_probabilities_witness :
  two_point_correlation_bf (void_grid [4; 4]) 1 = Ok ([0%Z], [Qnum 1])
  /\ Forall probability [Qnum 1].
Proof.
  assert (E : two_point_correlation_bf (void_grid [4; 4]) 1 = Ok ([0%Z], [Qnum 1]))
    by (vm_compute; reflexivity).
  split; [exact E|]. apply (proj2 (two_point_correlation_probabilities _ _ E)).
Defined.

Lemma getitem_pts_solid (im : ndarray bool) (pts : list (ndarray Z)) (hits : list bool) :
  all_solid im -> getitem_pts im pts = Ok hits -> Forall (fun h => h = false) hits.
Proof.
  intros Hv E. unfold getitem_pts in E.
  destruct (float_typed pts); [discriminate|]. apply mapM_ok in E.
  induction E as [|cs h l hs Hh _ IH]; constructor; auto.
  destruct (normalize_indices (shape im) cs) as [p|e] eqn:Ep; simpl in Hh; [|discriminate].
  injection Hh as <-. apply Hv. eapply normalize_indices_ok, Ep.
Qed.

Lemma mask_all_false {B} (hits : list bool) (l : list B) :
  Forall (fun h => h = false) hits -> mask hits l = [].
Proof.
  intros H. revert l. induction H as [|h hits -> _ IH]; intros [|x l]; simpl; auto.
Qed.

Lemma bin_counts_nil (edges : list Z) :
  Forall (fun c => c = 0%Z) (bin_counts [] edges).
Proof.
  induction edges as [|lo [|hi more] IH]; try constructor; [reflexivity|exact IH].
Qed.

(** X10.  On a grid without void cells (two or three axes of extent 2 or more,
    positive spacing) no pair is counted in any bin, and every returned
    ratio is 0/0, not a number; nothing is raised. *)
Theorem two_point_correlation_solid (im : ndarray bool) (sp : Z) :
  ndim im = 2 \/ ndim im = 3 -> (0 < sp)%Z -> Forall (fun s => 2 <= s) (shape im) ->
  all_solid im ->
  exists x y,
    two_point_correlation_bf im sp = Ok (x, y)
    /\ length y = length x
    /\ Forall (fun r => r = Qnan) y.
Proof.
  intros Hk Hsp H2 Hs. unfold two_point_correlation_bf.
  destruct (@two_point_histograms_total im sp Hk Hsp (no_extent_0_ge2 H2))
    as [[h1 h2] E]. rewrite E.
  apply two_point_histograms_inv in E as (pts & crds & hits & bins & Eh & _ & -> & ->).
  cbn [bind fst snd]. do 2 eexists. split; [reflexivity|].
  rewrite length_zip_with, !length_bin_counts, length_removelast, Nat.min_id.
  split; [reflexivity|].
  apply getitem_pts_solid in Eh; [|exact Hs].
  rewrite (mask_all_false _ Eh). simpl concat.
  pose proof (bin_counts_nil bins) as H0.
  induction H0 as [|c l -> _ IH]; simpl; constructor; [reflexivity|exact IH].
Qed.

Lemma two_point_correlation_solid_witness :
  (ndim solid_10x10 = 2 \/ ndim solid_10x10 = 3) /\ (0 < 2)%Z
  /\ Forall (fun s => 2 <= s) (shape solid_10x10) /\ all_solid solid_10x10
  /\ exists x y,
       two_point_correlation_bf solid_10x10 2 = Ok (x, y)
       /\ length y = length x
       /\ Forall (fun r => r = Qnan) y.
Proof.
  assert (Hk : ndim solid_10x10 = 2 \/ ndim solid_10x10 = 3) by (left; reflexivity).
  assert (Hsp : (0 < 2)%Z) by lia.
  assert (H0 : Forall (fun s => 2 <= s) (shape solid_10x10)) by (repeat constructor).
  assert (Hs : all_solid solid_10x10) by (intros p _; reflexivity).
  repeat (split; [assumption|]).
  apply (@two_point_correlation_solid solid_10x10 2 Hk Hsp H0 Hs).
Defined.

Lemma two_point_correlation_bins_witness :
  (ndim void_10x10 = 2 \/ ndim void_10x10 = 3) /\ (0 < 2)%Z
  /\ Forall (fun s => 2 <= s) (shape void_10x10)
  /\ exists x y,
       two_point_correlation_bf void_10x10 2 = Ok (x, y)
       /\ length y = length x
       /\ (forall i, i < length x -> nth i x 0%Z = (Z.of_nat i * 2)%Z)
       /\ (forall i, i < length x
                     <-> (Z.of_nat (S i) * 2 < Z.of_nat (amin_shape (shape void_10x10)) / 2)%Z).
Proof.
  assert (Hk : ndim void_10x10 = 2 \/ ndim void_10x10 = 3) by (left; reflexivity).
  assert (Hsp : (0 < 2)%Z) by lia.
  assert (H0 : Forall (fun s => 2 <= s) (shape void_10x10)) by (repeat constructor).
  repeat (split; [assumption|]).
  apply (@two_point_correlation_bins void_10x10 2 Hk Hsp H0).
Defined.

(** * [chord_length_distribution]: empty images and bounds on the lengths *)

Section ChordBounds.

Context {A : Type} `{Truthy A} (im : ndarray A).

Let fg : index -> bool := fun p => truthy (data im p).
Let lab : index -> nat := fst (label_table fg (shape im)).
Let N : nat := snd (label_table fg (shape im)).

Lemma components_zero_iff :
  N = 0 <-> forall p, in_bounds p (shape im) = true -> truthy (data im p) = false.
Proof.
  pose proof (label_table_correct fg (shape im)) as Hc. split.
  - intros HN p Hp. destruct (truthy (data im p)) eqn:Ep; [|reflexivity].
    assert (Hcell : cell fg (shape im) p) by (split; assumption).
    pose proof (proj2 (label_nonzero fg (shape im) p) Hcell) as Hnz.
    destruct (@sc_cell fg (shape im) _ _ Hc p Hnz) as [_ Hle].
    fold N in Hle. lia.
  - intros Hno. destruct (Nat.eq_dec N 0) as [E|E]; [exact E|]. exfalso.
    destruct (@sc_used fg (shape im) _ _ Hc 1) as [p Hp]; [fold N; lia|].
    assert (Hp' : fst (label_table fg (shape im)) p <> 0) by lia.
    apply (@sc_cell fg (shape im) _ _ Hc p) in Hp' as [[Hb Hf] _].
    unfold fg in Hf. rewrite (Hno p Hb) in Hf. discriminate.
Qed.

Lemma components_le_cells : N <= count_nonzero im.
Proof.
  pose proof (label_table_correct fg (shape im)) as Hc.
  unfold count_nonzero. fold fg.
  rewrite <- (length_seq N 1) at 1.
  rewrite <- (length_map lab (filter fg (indices (shape im)))).
  apply NoDup_incl_length; [apply seq_NoDup|].
  intros l Hl. apply in_seq in Hl.
  destruct (@sc_used fg (shape im) _ _ Hc l) as [p Hp]; [fold N; lia|].
  apply in_map_iff. exists p. split; [exact Hp|].
  assert (Hp' : fst (label_table fg (shape im)) p <> 0) by lia.
  apply (@sc_cell fg (shape im) _ _ Hc p) in Hp' as [[Hb Hf] _].
  apply filter_In. split; [apply indices_spec, Hb|exact Hf].
Qed.

Lemma side_bounds (l : nat) (b : box) (m : Z) :
  1 <= l -> bounding_box (fun p => lab p = l) b -> length b = ndim im ->
  In m (side_lengths b) ->
  (1 <= m)%Z /\ exists d, d < ndim im /\ (m <= Z.of_nat (nth d (shape im) 0%nat))%Z.
Proof.
  intros Hl Hbb Hlen Hm.
  pose proof (label_table_correct fg (shape im)) as Hc.
  apply side_lengths_In in Hm as (d & lo & hi & Hd & ->).
  destruct (Hbb d lo hi Hd) as (Hall & (p1 & Hp1 & E1) & (p2 & Hp2 & E2)).
  assert (Hdlt : d < ndim im).
  { rewrite <- Hlen. apply nth_error_Some. congruence. }
  pose proof (Hall p1 Hp1) as Hr.
  assert (Hb2 : in_bounds p2 (shape im) = true).
  { apply (@sc_cell fg (shape im) _ _ Hc p2). change (lab p2 <> 0). lia. }
  apply in_bounds_nth in Hb2 as [_ Hb2]. specialize (Hb2 d Hdlt).
  split; [lia|]. exists d. split; [exact Hdlt|lia].
Qed.

End ChordBounds.

(** X11.  On an image with at least one axis, [chord_length_distribution]
    fails with the ValueError of [find_objects] exactly when the image has
    no cell at all (an axis of extent 0).  Otherwise a sequence is returned;
    it is empty exactly when the image has no non-zero cell, and it never has
    more lengths than the image has non-zero cells. *)
Theorem chord_length_distribution_empty {A} `{Truthy A} (im : ndarray A) :
  ndim im <> 0 ->
  (chord_length_distribution im = Raise ValueError <-> size im = 0)
  /\ (size im <> 0 ->
      (chord_length_distribution im = Ok []
       <-> forall p, in_bounds p (shape im) = true -> truthy (data im p) = false)
      /\ exists lens, chord_length_distribution im = Ok lens
                      /\ length lens <= count_nonzero im).
Proof.
  intros Hk. split.
  - split; [|apply chord_length_distribution_no_cells].
    intros E. destruct (Nat.eq_dec (size im) 0) as [Hs|Hs]; [exact Hs|].
    destruct (chord_length_distribution_entries im Hk Hs) as (lens & E' & _).
    congruence.
  - intros Hs.
    destruct (chord_length_distribution_entries im Hk Hs) as (lens & E & Hlen & _).
    split.
    + rewrite <- components_zero_iff, <- Hlen, E. split.
      * intros E'. injection E' as ->. reflexivity.
      * intros E'. apply length_zero_iff_nil in E'. congruence.
    + exists lens. split; [exact E|]. rewrite Hlen. apply components_le_cells.
Qed.

(** X12.  On an image with at least one axis and at least one cell, every
    reported length is at least 1 and at most the extent of the image along
    one of its axes. *)
Theorem chord_length_distribution_bounds {A} `{Truthy A} (im : ndarray A) :
  ndim im <> 0 -> size im <> 0 ->
  exists lens,
    chord_length_distribution im = Ok lens
    /\ Forall (fun m => (1 <= m)%Z
                        /\ exists d, d < ndim im /\ (m <= Z.of_nat (nth d (shape im) 0%nat))%Z)
              lens.
Proof.
  intros Hk Hs.
  destruct (chord_length_distribution_entries im Hk Hs) as (lens & E & Hlen & Hent).
  exists lens. split; [exact E|].
  apply Forall_forall. intros m Hm.
  apply (In_nth _ _ 0%Z) in Hm as (i & Hi & <-).
  destruct (Hent (S i)) as (b & Hbb & Hb & [Hin _]); [lia|].
  replace (S i - 1) with i in Hin by lia.
  eapply side_bounds; [|exact Hbb|exact Hb|exact Hin]. lia.
Qed.

Lemma chord_length_distribution_empty_witness :
  ndim solid_10x10 <> 0 /\ size solid_10x10 <> 0
  /\ chord_length_distribution solid_10x10 = Ok [].
Proof.
  assert (Hk : ndim solid_10x10 <> 0) by (vm_compute; lia).
  assert (Hs : size solid_10x10 <> 0) by (vm_compute; lia).
  split; [exact Hk|]. split; [exact Hs|].
  apply (proj1 (proj2 (@chord_length_distribution_empty bool _ solid_10x10 Hk) Hs)).
  intros p _. reflexivity.
Defined.

Lemma chord_length_distribution_bounds_witness :
  ndim two_runs_4x6 <> 0 /\ size two_runs_4x6 <> 0
  /\ exists lens,
       chord_length_distribution two_runs_4x6 = Ok lens
       /\ Forall (fun m => (1 <= m)%Z
                           /\ exists d, d < ndim two_runs_4x6
                                        /\ (m <= Z.of_nat (nth d (shape two_runs_4x6) 0%nat))%Z)
                 lens.
Proof.
  assert (Hk : ndim two_runs_4x6 <> 0) by (vm_compute; lia).
  assert (Hs : size two_runs_4x6 <> 0) by (vm_compute; lia).
  split; [exact Hk|]. split; [exact Hs|].
  apply (@chord_length_distribution_bounds bool _ two_runs_4x6 Hk Hs).
Defined.

(** * Face neighbours and borders, coordinate by coordinate *)

Lemma neighbours_spec (p q : index) :
  In q (neighbours p) <->
  length q = length p
  /\ exists d, d < length p
       /\ (nth d q 0 = S (nth d p 0) \/ S (nth d q 0) = nth d p 0)
       /\ forall e, e < length p -> e <> d -> nth e q 0 = nth e p 0.
Proof.
  revert q; induction p as [|c p IH]; intros q.
  - simpl. split; [intros []|]. intros (_ & d & Hd & _). lia.
  - rewrite neighbours_cons. split.
    + intros [(c' & -> & Hc)|(p' & -> & Hp)].
      * split; [reflexivity|]. exists 0. split; [simpl; lia|]. split; [simpl; lia|].
        intros [|e] He Hne; [lia|reflexivity].
      * apply IH in Hp as (Hlen & d & Hd & Hdiff & Hsame).
        split; [simpl; congruence|]. exists (S d). split; [simpl; lia|].
        split; [exact Hdiff|].
        intros [|e] He Hne; [reflexivity|]. simpl. apply Hsame; simpl in He; lia.
    + intros (Hlen & d & Hd & Hdiff & Hsame).
      destruct q as [|c' q]; [discriminate|]. simpl in Hlen. injection Hlen as Hlen.
      destruct d as [|d].
      * left. exists c'. split; [|simpl in Hdiff; lia]. f_equal.
        apply index_ext; [exact Hlen|]. intros e He.
        apply (Hsame (S e)); simpl; lia.
      * right. exists q. assert (c' = c) by (apply (Hsame 0); simpl; lia). subst c'.
        split; [reflexivity|]. apply IH. split; [exact Hlen|].
        exists d. split; [simpl in Hd; lia|]. split; [exact Hdiff|].
        intros e He Hne. apply (Hsame (S e)); simpl; lia.
Qed.

Lemma on_border_spec (p : index) (sh : list nat) :
  length p = length sh ->
  (on_border p sh = true <->
   exists d, d < length sh /\ (nth d p 0 = 0 \/ S (nth d p 0) = nth d sh 0)).
Proof.
  revert sh; induction p as [|c p IH]; intros [|n sh] Hlen; simpl in Hlen; try discriminate.
  - simpl. split; [discriminate|]. intros (d & Hd & _). lia.
  - injection Hlen as Hlen. cbn [on_border].
    rewrite !orb_true_iff, !Nat.eqb_eq, (IH sh Hlen). split.
    + intros [[H|H]|(d & Hd & H)].
      * exists 0. simpl. split; [lia|left; exact H].
      * exists 0. simpl. split; [lia|right; exact H].
      * exists (S d). simpl. split; [lia|exact H].
    + intros ([|d] & Hd & H); simpl in H; [tauto|].
      right. exists d. split; [simpl in Hd; lia|exact H].
Qed.

Lemma mem_In (n : nat) (l : list nat) : mem n l = true <-> In n l.
Proof.
  induction l as [|x l IH]; simpl; [split; [discriminate|tauto]|].
  rewrite orb_true_iff, Nat.eqb_eq, IH. split; intros [H|H]; auto.
Qed.

(** * [clear_border] after [label]: the components that touch the border *)

Lemma cleared_table_spec (fg : index -> bool) (sh : list nat) (c : ndarray nat) :
  clear_border {| shape := sh; data := fst (label_table fg sh) |} = Ok c ->
  forall p, data c p <> 0 <-> cell fg sh p /\ ~ touches_border fg sh p.
Proof.
  unfold clear_border. cbn [shape data].
  destruct (existsb _ sh); [discriminate|].
  destruct (orb _ _); [discriminate|]. intros E. injection E as <-.
  intros p. cbn [data].
  set (lab := fst (label_table fg sh)).
  set (bl := map lab (filter (fun q => on_border q sh) (indices sh))).
  assert (Hbl : cell fg sh p -> (mem (lab p) bl = true <-> touches_border fg sh p)).
  { intros Hc. rewrite mem_In. unfold bl. rewrite in_map_iff. split.
    - intros (q & Hq & Hin). apply filter_In in Hin as [_ Hb].
      exists q. split; [|exact Hb]. apply (proj1 (@label_same fg sh p q Hc)). exact Hq.
    - intros (q & Hq & Hb). exists q. split.
      + apply (proj2 (@label_same fg sh p q Hc)). exact Hq.
      + apply filter_In. split; [|exact Hb]. apply indices_spec.
        apply (conn_cell_r Hq). }
  split.
  - intros Hnz. assert (Hc : cell fg sh p).
    { apply (proj1 (@label_nonzero fg sh p)). fold lab.
      destruct (mem (lab p) bl); [congruence|exact Hnz]. }
    split; [exact Hc|]. intros Ht. apply (Hbl Hc) in Ht. rewrite Ht in Hnz. congruence.
  - intros [Hc Hnt]. destruct (mem (lab p) bl) eqn:Em.
    + exfalso. apply Hnt, (Hbl Hc). reflexivity.
    + apply (proj2 (@label_nonzero fg sh p)). exact Hc.
Qed.

Lemma cleared_table_ext (fg1 fg2 : index -> bool) (sh : list nat) (c : ndarray nat) :
  (forall p, in_bounds p sh = true -> fg1 p = fg2 p) ->
  clear_border {| shape := sh; data := fst (label_table fg1 sh) |} = Ok c ->
  exists c', clear_border {| shape := sh; data := fst (label_table fg2 sh) |} = Ok c'
             /\ forall p, data c' p = data c p.
Proof.
  intros Hfg. destruct (label_table_ext fg1 fg2 sh Hfg) as [Hl _].
  unfold clear_border. cbn [shape data].
  destruct (existsb _ sh); [discriminate|].
  destruct (orb _ _); [discriminate|]. intros E. injection E as <-.
  eexists. split; [reflexivity|]. intros p. cbn [data].
  rewrite (map_ext _ _ Hl), Hl. reflexivity.
Qed.

(** * Connectivity under a change of coordinates *)

Section Transport.

Variables (fg fg' : index -> bool) (sh sh' : list nat) (phi : index -> index).
Hypothesis phi_bounds : forall p, in_bounds p sh = true -> in_bounds (phi p) sh' = true.
Hypothesis phi_fg : forall p, in_bounds p sh = true -> fg p = true -> fg' (phi p) = true.
Hypothesis phi_neighbours :
  forall p q, in_bounds p sh = true -> in_bounds q sh = true ->
              In q (neighbours p) -> In (phi q) (neighbours (phi p)).

Lemma cell_transport (p : index) : cell fg sh p -> cell fg' sh' (phi p).
Proof.
  intros [Hb Hf]. split; [apply phi_bounds, Hb|]. apply phi_fg; assumption.
Qed.

Lemma conn_transport (p q : index) :
  conn fg sh p q -> conn fg' sh' (phi p) (phi q).
Proof.
  induction 1 as [p Hp|p q r Hpq IH Hr Hn].
  - apply conn_refl, cell_transport, Hp.
  - eapply conn_step; [exact IH|apply cell_transport, Hr|].
    apply phi_neighbours; [apply (conn_cell_r Hpq)|apply Hr|exact Hn].
Qed.

End Transport.

(** * The exchange of two axes *)

Lemma swap_axis_lt (a n d : nat) : a < n -> d < n -> swap_axis a d < n.
Proof. unfold swap_axis. intros. destruct (d =? 0), (d =? a); lia. Qed.

Lemma swap_axis_invol (a d : nat) : swap_axis a (swap_axis a d) = d.
Proof.
  unfold swap_axis.
  destruct (Nat.eqb_spec d 0) as [->|H0].
  - destruct (Nat.eqb_spec a 0) as [->|Ha]; [reflexivity|]. rewrite Nat.eqb_refl. reflexivity.
  - destruct (Nat.eqb_spec d a) as [->|Ha].
    + reflexivity.
    + destruct (Nat.eqb_spec d 0); [contradiction|].
      destruct (Nat.eqb_spec d a); [contradiction|reflexivity].
Qed.

Lemma length_swap_axes (a : nat) (p : index) : length (swap_axes a p) = length p.
Proof. unfold swap_axes. rewrite length_map, length_seq. reflexivity. Qed.

Lemma nth_swap_axes (a : nat) (p : index) (d : nat) :
  d < length p -> nth d (swap_axes a p) 0 = nth (swap_axis a d) p 0.
Proof. intros Hd. unfold swap_axes. rewrite nth_map_seq by exact Hd. reflexivity. Qed.

Lemma swap_axes_invol (a : nat) (p : index) :
  a < length p -> swap_axes a (swap_axes a p) = p.
Proof.
  intros Ha. apply index_ext.
  - rewrite !length_swap_axes. reflexivity.
  - intros d Hd. rewrite !length_swap_axes in Hd.
    rewrite nth_swap_axes by (rewrite length_swap_axes; exact Hd).
    rewrite nth_swap_axes by (apply swap_axis_lt; assumption).
    rewrite swap_axis_invol. reflexivity.
Qed.

Lemma in_bounds_swap (a : nat) (p : index) (sh : list nat) :
  a < length sh -> in_bounds p sh = true ->
  in_bounds (swap_axes a p) (swap_axes a sh) = true.
Proof.
  intros Ha Hp. apply in_bounds_nth in Hp as [Hlen Hp].
  apply in_bounds_nth. rewrite !length_swap_axes. split; [exact Hlen|].
  intros d Hd. rewrite !nth_swap_axes by lia. apply Hp, swap_axis_lt; assumption.
Qed.

Lemma neighbours_swap (a : nat) (p q : index) :
  a < length p -> In q (neighbours p) ->
  In (swap_axes a q) (neighbours (swap_axes a p)).
Proof.
  intros Ha Hq. apply neighbours_spec in Hq as (Hlen & d & Hd & Hdiff & Hsame).
  apply neighbours_spec. rewrite !length_swap_axes. split; [exact Hlen|].
  exists (swap_axis a d). split; [apply swap_axis_lt; assumption|].
  assert (Hsd : swap_axis a d < length p) by (apply swap_axis_lt; assumption).
  split.
  - rewrite !nth_swap_axes by lia. rewrite swap_axis_invol. exact Hdiff.
  - intros e He Hne. rewrite !nth_swap_axes by lia. apply Hsame.
    + apply swap_axis_lt; assumption.
    + intros E. apply Hne. rewrite <- E. symmetry. apply swap_axis_invol.
Qed.

Lemma on_border_swap (a : nat) (p : index) (sh : list nat) :
  a < length sh -> in_bounds p sh = true ->
  (on_border (swap_axes a p) (swap_axes a sh) = true <-> on_border p sh = true).
Proof.
  intros Ha Hp. pose proof (in_bounds_length _ _ Hp) as Hlen.
  rewrite !on_border_spec by (rewrite ?length_swap_axes; exact Hlen).
  rewrite length_swap_axes.
  split; intros (d & Hd & H); exists (swap_axis a d);
    (split; [apply swap_axis_lt; assumption|]).
  - rewrite !nth_swap_axes in H by lia. exact H.
  - rewrite !nth_swap_axes by (try apply swap_axis_lt; lia).
    rewrite swap_axis_invol. exact H.
Qed.

(** Connectivity and contact with the border are the same in the image with
    the axes 0 and [a] exchanged. *)
Lemma conn_swap (a : nat) (fg : index -> bool) (sh : list nat) (p q : index) :
  a < length sh ->
  conn fg sh p q ->
  conn (fun p' => fg (swap_axes a p')) (swap_axes a sh) (swap_axes a p) (swap_axes a q).
Proof.
  intros Ha.
  apply (@conn_transport fg (fun p' => fg (swap_axes a p')) sh (swap_axes a sh) (swap_axes a)).
  - intros r Hr. apply in_bounds_swap; assumption.
  - intros r Hr Hf. rewrite swap_axes_invol; [exact Hf|].
    rewrite (in_bounds_length _ _ Hr). exact Ha.
  - intros r s Hr _ Hn. apply neighbours_swap; [|exact Hn].
    rewrite (in_bounds_length _ _ Hr). exact Ha.
Qed.

Lemma conn_mono (fg1 fg2 : index -> bool) (sh : list nat) (p q : index) :
  (forall r, in_bounds r sh = true -> fg1 r = true -> fg2 r = true) ->
  conn fg1 sh p q -> conn fg2 sh p q.
Proof.
  intros Hfg. apply (@conn_transport fg1 fg2 sh sh (fun r => r)); auto.
Qed.

Lemma touches_border_swap (a : nat) (fg : index -> bool) (sh : list nat) (p : index) :
  a < length sh -> in_bounds p sh = true ->
  (touches_border (fun p' => fg (swap_axes a p')) (swap_axes a sh) (swap_axes a p)
   <-> touches_border fg sh p).
Proof.
  intros Ha Hp. pose proof (in_bounds_length _ _ Hp) as Hlen.
  assert (Ha' : a < length (swap_axes a sh)) by (rewrite length_swap_axes; exact Ha).
  split.
  - intros (q' & Hc & Hb).
    pose proof (conn_cell_r Hc) as [Hq' _].
    apply (conn_swap (a := a)) in Hc; [|exact Ha'].
    rewrite !swap_axes_invol in Hc by lia.
    exists (swap_axes a q'). split.
    + eapply conn_mono; [|exact Hc]. intros r Hr. cbn beta.
      rewrite swap_axes_invol; [auto|]. rewrite (in_bounds_length _ _ Hr). exact Ha.
    + apply (in_bounds_swap (a := a)) in Hq' as Hq''; [|exact Ha'].
      rewrite swap_axes_invol in Hq'' by exact Ha.
      apply (on_border_swap (a := a)) in Hq''; [|exact Ha].
      apply Hq''. rewrite swap_axes_invol; [exact Hb|].
      rewrite (in_bounds_length _ _ Hq'). exact Ha'.
  - intros (q & Hc & Hb). exists (swap_axes a q). split.
    + apply conn_swap; assumption.
    + apply on_border_swap; [exact Ha|apply (conn_cell_r Hc)|exact Hb].
Qed.

(** * The chords of [apply_chords], cell by cell *)

Lemma in_slice_0 (st c : nat) : in_slice (mk_slice 0 st) c = (c mod st =? 0).
Proof. unfold in_slice. cbn [start step]. rewrite Nat.sub_0_r. reflexivity. Qed.

Ltac finish_cell :=
  unfold swap_axes, swap_axis, raw_chords, sampled, truthy, Truthy_bool;
  cbn [data nth length seq map forallb Nat.eqb orb andb];
  rewrite ?in_slice_0, ?Nat.Div0.mod_0_l; cbn [Nat.eqb];
  repeat match goal with |- context [?x mod ?s =? 0] => destruct (x mod s =? 0) end;
  repeat match goal with |- context [0 <? ?x] => destruct (0 <? x) end;
  repeat match goal with |- context [andb (?f ?x) _] => is_var f; destruct (f x) end;
  reflexivity.

Ltac open_bounds Hp :=
  first [ apply in_bounds_3 in Hp as (?i & ?j & ?k & -> & _)
        | apply in_bounds_2 in Hp as (?i & ?j & -> & _) ].

Ltac keep_trim :=
  match goal with
  | |- bind (bind (clear_border ?l) _) _ = _ -> _ =>
      let c := fresh "c" in let e := fresh "e" in let Ec := fresh "Ec" in
      destruct (clear_border l) as [c|e] eqn:Ec; cbn [bind];
      [ let Hsh := fresh "Hsh" in
        pose proof (clear_border_ok _ Ec) as Hsh; cbn [shape] in Hsh;
        let shc := fresh "shc" in let dc := fresh "dc" in
        destruct c as [shc dc]; cbn [shape] in Hsh; subst shc; cbn [shape data]
      | try discriminate ]
  end.

Ltac struct_goal :=
  let E := fresh "E" in
  intros E; injection E as <-; split; [reflexivity|];
  split;
  [ unfold no_extent; cbn [existsb];
    repeat match goal with H : (_ =? 1) = false |- _ => rewrite H end; reflexivity | ];
  lazymatch goal with
  | Ec : clear_border _ = Ok _ |- _ =>
      let c' := fresh "c'" in let Ec' := fresh "Ec'" in let Hc' := fresh "Hc'" in
      eapply cleared_table_ext in Ec as (c' & Ec' & Hc');
      [ exists c'; split; [exact Ec'|];
        let p := fresh "p" in let Hp := fresh "Hp" in
        intros p Hp; open_bounds Hp; rewrite Hc'; finish_cell
      | let p := fresh "p" in let Hp := fresh "Hp" in
        intros p Hp; open_bounds Hp; finish_cell ]
  | _ =>
      let p := fresh "p" in let Hp := fresh "Hp" in
      intros p Hp; open_bounds Hp; finish_cell
  end.

Lemma apply_chords_2d_struct (d : index -> bool) (s0 s1 : nat) (sp : Z) (a : nat)
      (trim : bool) (out : ndarray bool) :
  a < 2 ->
  apply_chords {| shape := [s0; s1]; data := d |} sp (Z.of_nat a) trim = Ok out ->
  let im := {| shape := [s0; s1]; data := d |} in
  let raw := raw_chords im (stride sp) a in
  shape out = [s0; s1]
  /\ no_extent 1 [s0; s1] = true
  /\ if trim
     then exists c,
            clear_border {| shape := swap_axes a [s0; s1];
                            data := fst (label_table (fun p' => raw (swap_axes a p'))
                                                     (swap_axes a [s0; s1])) |} = Ok c
            /\ forall p, in_bounds p [s0; s1] = true ->
                         data out p = (0 <? data c (swap_axes a p)) && raw p
     else forall p, in_bounds p [s0; s1] = true -> data out p = raw p.
Proof.
  intros Ha. unfold stride.
  destruct a as [|[|a]]; [| |lia]; cbn [Z.of_nat Pos.of_succ_nat];
    enter_apply_chords sp; unfold_arrays;
    destruct (s0 =? 1) eqn:E0, (s1 =? 1) eqn:E1, trim; simpl;
    try keep_trim; unfold moveaxis; simpl; try discriminate; struct_goal.
Qed.

Lemma apply_chords_3d_struct (d : index -> bool) (s0 s1 s2 : nat) (sp : Z) (a : nat)
      (trim : bool) (out : ndarray bool) :
  a < 3 ->
  apply_chords {| shape := [s0; s1; s2]; data := d |} sp (Z.of_nat a) trim = Ok out ->
  let im := {| shape := [s0; s1; s2]; data := d |} in
  let raw := raw_chords im (stride sp) a in
  shape out = [s0; s1; s2]
  /\ no_extent 1 [s0; s1; s2] = true
  /\ if trim
     then exists c,
            clear_border {| shape := swap_axes a [s0; s1; s2];
                            data := fst (label_table (fun p' => raw (swap_axes a p'))
                                                     (swap_axes a [s0; s1; s2])) |} = Ok c
            /\ forall p, in_bounds p [s0; s1; s2] = true ->
                         data out p = (0 <? data c (swap_axes a p)) && raw p
     else forall p, in_bounds p [s0; s1; s2] = true -> data out p = raw p.
Proof.
  intros Ha. unfold stride.
  destruct a as [|[|[|a]]]; [| | |lia]; cbn [Z.of_nat Pos.of_succ_nat Pos.succ];
    enter_apply_chords sp; unfold_arrays;
    destruct (s0 =? 1) eqn:E0, (s1 =? 1) eqn:E1, (s2 =? 1) eqn:E2, trim; simpl;
    try keep_trim; unfold moveaxis; simpl; try discriminate; struct_goal.
Qed.

Lemma apply_chords_struct (im : ndarray bool) (sp : Z) (a : nat) (trim : bool)
      (out : ndarray bool) :
  ndim im = 2 \/ ndim im = 3 -> a < ndim im ->
  apply_chords im sp (Z.of_nat a) trim = Ok out ->
  let raw := raw_chords im (stride sp) a in
  shape out = shape im
  /\ no_extent 1 (shape im) = true
  /\ if trim
     then exists c,
            clear_border {| shape := swap_axes a (shape im);
                            data := fst (label_table (fun p' => raw (swap_axes a p'))
                                                     (swap_axes a (shape im))) |} = Ok c
            /\ forall p, in_bounds p (shape im) = true ->
                         data out p = (0 <? data c (swap_axes a p)) && raw p
     else forall p, in_bounds p (shape im) = true -> data out p = raw p.
Proof.
  intros Hk. apply ndim_2_or_3 in Hk as [(d & s0 & s1 & ->)|(d & s0 & s1 & s2 & ->)];
    unfold ndim; cbn [shape length]; intros Ha E.
  - eapply apply_chords_2d_struct; eassumption.
  - eapply apply_chords_3d_struct; eassumption.
Qed.

Lemma apply_chords_ok_inv (im : ndarray bool) (sp ax : Z) (trim : bool) (out : ndarray bool) :
  apply_chords im sp ax trim = Ok out -> (0 <= sp)%Z.
Proof.
  unfold apply_chords. destruct (Z.ltb_spec sp 0); [discriminate|]. intros _. lia.
Qed.

(** X13.  Without trimming, on a grid of two or three axes none of extent 1,
    [apply_chords] marks exactly the void cells of the sample lines along the
    axis: the cells all of whose other coordinates are multiples of
    [4 + 2*spacing]. *)
Theorem apply_chords_sample_lines (im : ndarray bool) (sp : Z) (a : nat) :
  ndim im = 2 \/ ndim im = 3 -> (0 <= sp)%Z -> a < ndim im ->
  no_extent 1 (shape im) = true ->
  exists out,
    apply_chords im sp (Z.of_nat a) false = Ok out
    /\ shape out = shape im
    /\ forall p, in_bounds p (shape im) = true ->
         data out p = data im p && sampled (stride sp) a p.
Proof.
  intros Hk Hsp Ha H1.
  destruct (@apply_chords_ok im sp (Z.of_nat a) false Hk Hsp) as [out E];
    [lia|exact H1|discriminate|].
  exists out. split; [exact E|].
  destruct (@apply_chords_struct im sp a false out Hk Ha E) as (Hs & _ & Hd). auto.
Qed.

Lemma apply_chords_sample_lines_witness :
  (ndim void_10x10 = 2 \/ ndim void_10x10 = 3) /\ (0 <= 1)%Z /\ 1 < ndim void_10x10
  /\ no_extent 1 (shape void_10x10) = true
  /\ exists out,
       apply_chords void_10x10 1 1 false = Ok out
       /\ shape out = [10; 10]
       /\ forall p, in_bounds p [10; 10] = true ->
            data out p = data void_10x10 p && sampled (stride 1) 1 p.
Proof.
  assert (Hk : ndim void_10x10 = 2 \/ ndim void_10x10 = 3) by (left; reflexivity).
  assert (Hsp : (0 <= 1)%Z) by lia.
  assert (Ha : 1 < ndim void_10x10) by (vm_compute; lia).
  assert (H1 : no_extent 1 (shape void_10x10) = true) by reflexivity.
  repeat (split; [assumption|]).
  apply (@apply_chords_sample_lines void_10x10 1 1 Hk Hsp Ha H1).
Defined.

(** The components of the untrimmed chords that are kept by the trimming. *)
Lemma apply_chords_trim_spec (im : ndarray bool) (sp : Z) (a : nat) (out : ndarray bool) :
  ndim im = 2 \/ ndim im = 3 -> a < ndim im ->
  apply_chords im sp (Z.of_nat a) true = Ok out ->
  let raw := raw_chords im (stride sp) a in
  shape out = shape im
  /\ forall p, in_bounds p (shape im) = true ->
       (data out p = true <-> raw p = true /\ ~ touches_border raw (shape im) p).
Proof.
  intros Hk Ha E raw.
  destruct (@apply_chords_struct im sp a true out Hk Ha E) as (Hs & _ & c & Ec & Hout).
  fold raw in Ec, Hout.
  split; [exact Hs|]. intros p Hp.
  pose proof (@cleared_table_spec _ _ c Ec (swap_axes a p)) as Hspec.
  assert (Hlen : a < length p).
  { rewrite (in_bounds_length _ _ Hp). exact Ha. }
  rewrite (Hout p Hp), andb_true_iff, Nat.ltb_lt.
  rewrite (@touches_border_swap a raw (shape im) p Ha Hp) in Hspec.
  split.
  - intros [Hc Hr]. split; [exact Hr|]. apply Hspec. lia.
  - intros [Hr Hnt]. split; [|exact Hr].
    assert (Hnz : data c (swap_axes a p) <> 0); [|lia].
    apply Hspec. split; [|exact Hnt]. split.
    + apply in_bounds_swap; assumption.
    + cbn beta. rewrite swap_axes_invol by exact Hlen. exact Hr.
Qed.

(** X14.  With trimming, [apply_chords] keeps exactly the chords no cell of which
    lies on the border of the image: a cell is marked when it is marked
    without trimming and its connected component in the untrimmed mask does
    not touch the border. *)
Theorem apply_chords_trimmed (im : ndarray bool) (sp : Z) (a : nat) :
  ndim im = 2 \/ ndim im = 3 -> (0 <= sp)%Z -> a < ndim im ->
  no_extent 1 (shape im) = true -> no_extent 0 (shape im) = true ->
  let raw := raw_chords im (stride sp) a in
  exists out,
    apply_chords im sp (Z.of_nat a) true = Ok out
    /\ shape out = shape im
    /\ forall p, in_bounds p (shape im) = true ->
         (data out p = true <-> raw p = true /\ ~ touches_border raw (shape im) p).
Proof.
  intros Hk Hsp Ha H1 H0 raw.
  destruct (@apply_chords_ok im sp (Z.of_nat a) true Hk Hsp) as [out E];
    [lia|exact H1|intros _; exact H0|].
  exists out. split; [exact E|]. apply (@apply_chords_trim_spec im sp a out Hk Ha E).
Qed.

Lemma apply_chords_trimmed_witness :
  (ndim void_10x10 = 2 \/ ndim void_10x10 = 3) /\ (0 <= 0)%Z /\ 1 < ndim void_10x10
  /\ no_extent 1 (shape void_10x10) = true /\ no_extent 0 (shape void_10x10) = true
  /\ exists out,
       apply_chords void_10x10 0 1 true = Ok out
       /\ shape out = [10; 10]
       /\ forall p, in_bounds p [10; 10] = true ->
            (data out p = true
             <-> raw_chords void_10x10 (stride 0) 1 p = true
                 /\ ~ touches_border (raw_chords void_10x10 (stride 0) 1) [10; 10] p).
Proof.
  assert (Hk : ndim void_10x10 = 2 \/ ndim void_10x10 = 3) by (left; reflexivity).
  assert (Hsp : (0 <= 0)%Z) by lia.
  assert (Ha : 1 < ndim void_10x10) by (vm_compute; lia).
  assert (H1 : no_extent 1 (shape void_10x10) = true) by reflexivity.
  assert (H0 : no_extent 0 (shape void_10x10) = true) by reflexivity.
  repeat (split; [assumption|]).
  apply (@apply_chords_trimmed void_10x10 0 1 Hk Hsp Ha H1 H0).
Defined.

(** X15.  A trimmed mask lies inside the untrimmed one and marks no cell of the
    border of the image. *)
Theorem apply_chords_trimmed_inside (im : ndarray bool) (sp : Z) (a : nat)
        (out : ndarray bool) :
  ndim im = 2 \/ ndim im = 3 -> a < ndim im ->
  apply_chords im sp (Z.of_nat a) true = Ok out ->
  exists raw,
    apply_chords im sp (Z.of_nat a) false = Ok raw
    /\ shape raw = shape out
    /\ (forall p, in_bounds p (shape im) = true -> data out p = true -> data raw p = true)
    /\ (forall p, in_bounds p (shape im) = true -> on_border p (shape im) = true ->
                  data out p = false).
Proof.
  intros Hk Ha E.
  destruct (@apply_chords_trim_spec im sp a out Hk Ha E) as [Hs Hout].
  assert (Hraw : exists raw, apply_chords im sp (Z.of_nat a) false = Ok raw).
  { destruct (@apply_chords_struct im sp a true out Hk Ha E) as (_ & H1 & _).
    apply apply_chords_ok; auto; [eapply apply_chords_ok_inv; eassumption|lia|discriminate]. }
  destruct Hraw as [raw Er]. exists raw. split; [exact Er|].
  destruct (@apply_chords_struct im sp a false raw Hk Ha Er) as (Hsr & _ & Hraw).
  split; [congruence|]. split.
  - intros p Hp Ho. rewrite (Hraw p Hp). apply (Hout p Hp), Ho.
  - intros p Hp Hb. destruct (data out p) eqn:Ho; [|reflexivity]. exfalso.
    apply (Hout p Hp) in Ho as [Hr Hnt]. apply Hnt. exists p. split; [|exact Hb].
    apply conn_refl. split; assumption.
Qed.

Lemma apply_chords_trimmed_inside_witness :
  (ndim void_10x10 = 2 \/ ndim void_10x10 = 3) /\ 1 < ndim void_10x10
  /\ exists out raw,
       apply_chords void_10x10 0 1 true = Ok out
       /\ apply_chords void_10x10 0 1 false = Ok raw
       /\ shape raw = shape out
       /\ (forall p, in_bounds p [10; 10] = true -> data out p = true -> data raw p = true)
       /\ (forall p, in_bounds p [10; 10] = true -> on_border p [10; 10] = true ->
                     data out p = false).
Proof.
  assert (Hk : ndim void_10x10 = 2 \/ ndim void_10x10 = 3) by (left; reflexivity).
  assert (Ha : 1 < ndim void_10x10) by (vm_compute; lia).
  split; [exact Hk|]. split; [exact Ha|].
  destruct (@apply_chords_ok void_10x10 0 1 true Hk) as [out E];
    [lia|simpl; lia|reflexivity|reflexivity|].
  destruct (@apply_chords_trimmed_inside void_10x10 0 1 out Hk Ha E) as (raw & Er & H).
  exists out, raw. split; [exact E|]. split; [exact Er|exact H].
Defined.

(** * Chords are straight and separated *)

Lemma sampled_nth (st a : nat) (p : index) (d : nat) :
  sampled st a p = true -> d < length p -> d <> a -> nth d p 0 mod st = 0.
Proof.
  unfold sampled. intros Hs Hd Hne. rewrite forallb_forall in Hs.
  specialize (Hs d). rewrite orb_true_iff, !Nat.eqb_eq in Hs.
  destruct Hs as [Hs|Hs]; [apply in_seq; lia|contradiction|exact Hs].
Qed.

Lemma no_consecutive_multiples (st x : nat) :
  2 <= st -> x mod st = 0 -> S x mod st = 0 -> False.
Proof.
  intros Hst Hx Hsx.
  apply Nat.Div0.mod_divides in Hx as [k Hk]. apply Nat.Div0.mod_divides in Hsx as [k' Hk'].
  destruct (Nat.le_gt_cases k' k) as [H|H].
  - assert (st * k' <= st * k) by (apply Nat.mul_le_mono_l; exact H). lia.
  - assert (st * S k <= st * k') by (apply Nat.mul_le_mono_l; lia). lia.
Qed.

(** Two face-adjacent chord cells are consecutive cells of one sample line. *)
Lemma raw_chords_neighbours (im : ndarray bool) (st a : nat) (p q : index) :
  2 <= st ->
  raw_chords im st a p = true -> raw_chords im st a q = true ->
  In q (neighbours p) ->
  forall d, d <> a -> nth d q 0 = nth d p 0.
Proof.
  intros Hst Hp Hq Hn d Hd.
  unfold raw_chords in Hp, Hq. apply andb_true_iff in Hp as [_ Hp], Hq as [_ Hq].
  apply neighbours_spec in Hn as (Hlen & e & He & Hdiff & Hsame).
  destruct (Nat.lt_ge_cases d (length p)) as [Hdl|Hdl].
  2:{ rewrite !nth_overflow by lia. reflexivity. }
  destruct (Nat.eq_dec d e) as [->|Hde]; [|apply Hsame; assumption].
  exfalso.
  pose proof (@sampled_nth st a p e Hp He Hd) as Mp.
  pose proof (@sampled_nth st a q e Hq ltac:(lia) Hd) as Mq.
  destruct Hdiff as [E|E].
  - rewrite E in Mq. exact (@no_consecutive_multiples st (nth e p 0) Hst Mp Mq).
  - rewrite <- E in Mp. exact (@no_consecutive_multiples st (nth e q 0) Hst Mq Mp).
Qed.

Lemma raw_chords_straight (im : ndarray bool) (st a : nat) (p q : index) :
  2 <= st ->
  conn (raw_chords im st a) (shape im) p q ->
  forall d, d <> a -> nth d q 0 = nth d p 0.
Proof.
  intros Hst Hc. induction Hc as [p Hp|p q r Hpq IH Hr Hn]; intros d Hd; [reflexivity|].
  rewrite <- (IH d Hd).
  apply (@raw_chords_neighbours im st a q r Hst); auto.
  - apply (conn_cell_r Hpq).
  - apply Hr.
Qed.

Lemma apply_chords_inside_raw (im : ndarray bool) (sp : Z) (a : nat) (trim : bool)
      (out : ndarray bool) :
  ndim im = 2 \/ ndim im = 3 -> a < ndim im ->
  apply_chords im sp (Z.of_nat a) trim = Ok out ->
  forall p, in_bounds p (shape im) = true -> data out p = true ->
            raw_chords im (stride sp) a p = true.
Proof.
  intros Hk Ha E p Hp Ho.
  destruct (@apply_chords_struct im sp a trim out Hk Ha E) as (_ & _ & H).
  destruct trim.
  - destruct H as (c & _ & H). rewrite (H p Hp) in Ho.
    apply andb_true_iff in Ho. tauto.
  - rewrite <- (H p Hp). exact Ho.
Qed.

(** X16.  The marked cells lie on void cells of the sample lines, which are
    [4 + 2*spacing] apart; two marked cells that are face neighbours differ
    along the axis of the chords only, so chords never lie side by side. *)
Theorem apply_chords_separated (im : ndarray bool) (sp : Z) (a : nat) (trim : bool)
        (out : ndarray bool) :
  ndim im = 2 \/ ndim im = 3 -> a < ndim im ->
  apply_chords im sp (Z.of_nat a) trim = Ok out ->
  (forall p, in_bounds p (shape im) = true -> data out p = true ->
     data im p = true
     /\ forall d, d < ndim im -> d <> a -> nth d p 0 mod Z.to_nat (4 + 2 * sp) = 0)
  /\ (forall p q, in_bounds p (shape im) = true -> in_bounds q (shape im) = true ->
        data out p = true -> data out q = true -> In q (neighbours p) ->
        forall d, d <> a -> nth d q 0 = nth d p 0).
Proof.
  intros Hk Ha E.
  pose proof (@apply_chords_ok_inv im sp _ trim out E) as Hsp.
  pose proof (@apply_chords_inside_raw im sp a trim out Hk Ha E) as Hraw.
  split.
  - intros p Hp Ho. specialize (Hraw p Hp Ho). unfold raw_chords in Hraw.
    apply andb_true_iff in Hraw as [Hv Hs]. split; [exact Hv|].
    intros d Hd Hne. apply (@sampled_nth _ a p d Hs); [|exact Hne].
    rewrite (in_bounds_length _ _ Hp). exact Hd.
  - intros p q Hp Hq Hop Hoq Hn.
    apply (@raw_chords_neighbours im (stride sp) a p q); auto.
    pose proof (stride_ge_4 Hsp). lia.
Qed.

Lemma apply_chords_separated_witness :
  (ndim void_10x10 = 2 \/ ndim void_10x10 = 3) /\ 0 < ndim void_10x10
  /\ exists out,
       apply_chords void_10x10 0 0 false = Ok out
       /\ (forall p, in_bounds p [10; 10] = true -> data out p = true ->
             data void_10x10 p = true
             /\ forall d, d < 2 -> d <> 0 -> nth d p 0 mod 4 = 0)
       /\ (forall p q, in_bounds p [10; 10] = true -> in_bounds q [10; 10] = true ->
             data out p = true -> data out q = true -> In q (neighbours p) ->
             forall d, d <> 0 -> nth d q 0 = nth d p 0).
Proof.
  assert (Hk : ndim void_10x10 = 2 \/ ndim void_10x10 = 3) by (left; reflexivity).
  assert (Ha : 0 < ndim void_10x10) by (vm_compute; lia).
  split; [exact Hk|]. split; [exact Ha|].
  destruct (@apply_chords_ok void_10x10 0 0 false Hk) as [out E];
    [lia|simpl; lia|reflexivity|discriminate|].
  exists out. split; [exact E|].
  apply (@apply_chords_separated void_10x10 0 0 false out Hk Ha E).
Defined.

(** * The lengths of the chords of [apply_chords] *)

(** The bounding box of a component of a mask returned by [apply_chords]:
    its side along the axis is its longest side, every other side is 1. *)
Lemma chord_box_sides (im : ndarray bool) (sp : Z) (a : nat) (trim : bool)
      (out : ndarray bool) (l : nat) (b : box) :
  ndim im = 2 \/ ndim im = 3 -> a < ndim im ->
  apply_chords im sp (Z.of_nat a) trim = Ok out ->
  1 <= l -> bounding_box (fun p => data (fst (label out)) p = l) b ->
  length b = ndim out ->
  exists lo hi,
    nth_error b a = Some (lo, hi) /\ lo < hi
    /\ (forall d lo' hi', d <> a -> nth_error b d = Some (lo', hi') -> hi' = S lo')
    /\ forall m, longest_side b m -> m = (Z.of_nat hi - Z.of_nat lo)%Z.
Proof.
  intros Hk Ha E Hl Hbb Hb.
  pose proof (@apply_chords_ok_inv im sp _ trim out E) as Hsp.
  pose proof (stride_ge_4 Hsp) as Hst.
  pose proof (@apply_chords_inside_raw im sp a trim out Hk Ha E) as Hraw.
  destruct (@apply_chords_struct im sp a trim out Hk Ha E) as (Hs & _ & _).
  cbn [label fst data] in Hbb.
  set (fg := fun p => truthy (data out p)) in *.
  assert (Hthin : forall d lo' hi', d <> a -> nth_error b d = Some (lo', hi') -> hi' = S lo').
  { intros d lo' hi' Hd Hnth.
    destruct (Hbb d lo' hi' Hnth) as (_ & (p1 & Hp1 & E1) & (p2 & Hp2 & E2)).
    assert (Hc1 : cell fg (shape out) p1).
    { apply (proj1 (@label_nonzero fg (shape out) p1)). lia. }
    assert (Hc : conn fg (shape out) p1 p2).
    { apply (proj1 (@label_same fg (shape out) p1 p2 Hc1)). congruence. }
    apply (@conn_mono fg (raw_chords im (stride sp) a) (shape out)) in Hc.
    - rewrite Hs in Hc.
      pose proof (@raw_chords_straight im (stride sp) a p1 p2 ltac:(lia) Hc d Hd). lia.
    - intros r Hr Hf. rewrite Hs in Hr. apply (Hraw r Hr). exact Hf. }
  assert (Hside : exists lo hi, nth_error b a = Some (lo, hi)).
  { destruct (nth_error b a) as [[lo hi]|] eqn:En; [eauto|].
    apply nth_error_None in En. unfold ndim in *. rewrite Hs in Hb. lia. }
  destruct Hside as (lo & hi & Ea). exists lo, hi.
  assert (Hpos : lo < hi).
  { destruct (Hbb a lo hi Ea) as (Hall & (p1 & Hp1 & _) & _). specialize (Hall p1 Hp1). lia. }
  split; [exact Ea|]. split; [exact Hpos|]. split; [exact Hthin|].
  intros m [Hin Hmax].
  assert (Hge : (Z.of_nat hi - Z.of_nat lo <= m)%Z).
  { apply Hmax. apply side_lengths_In. exists a, lo, hi. auto. }
  apply side_lengths_In in Hin as (d & lo' & hi' & Hd & Em).
  destruct (Nat.eq_dec d a) as [->|Hne].
  - rewrite Ea in Hd. injection Hd as <- <-. exact Em.
  - pose proof (Hthin d lo' hi' Hne Hd). lia.
Qed.

(** X17.  [chord_length_distribution] applied to a mask returned by
    [apply_chords] for an image without an empty axis: every component is
    one cell thick in every direction but that of the axis, and the length
    reported for it is its extent along the axis. *)
Theorem chord_lengths_of_chords (im : ndarray bool) (sp : Z) (a : nat) (trim : bool)
        (out : ndarray bool) :
  ndim im = 2 \/ ndim im = 3 -> a < ndim im -> no_extent 0 (shape im) = true ->
  apply_chords im sp (Z.of_nat a) trim = Ok out ->
  let labels := fst (label out) in
  exists lens,
    chord_length_distribution out = Ok lens
    /\ length lens = snd (label out)
    /\ forall l, 1 <= l <= length lens ->
         exists b lo hi,
           bounding_box (fun p => data labels p = l) b
           /\ nth_error b a = Some (lo, hi)
           /\ nth (l - 1) lens 0%Z = (Z.of_nat hi - Z.of_nat lo)%Z
           /\ forall d lo' hi', d <> a -> nth_error b d = Some (lo', hi') -> hi' = S lo'.
Proof.
  intros Hk Ha H0 E labels.
  destruct (@apply_chords_struct im sp a trim out Hk Ha E) as (Hs & _ & _).
  assert (Hnd : ndim out <> 0) by (unfold ndim in *; rewrite Hs; lia).
  assert (Hsz : size out <> 0) by (apply size_no_extent; rewrite Hs; exact H0).
  destruct (chord_length_distribution_entries out Hnd Hsz) as (lens & El & Hlen & Hent).
  exists lens. split; [exact El|]. split; [exact Hlen|].
  intros l Hl. rewrite Hlen in Hl.
  destruct (Hent l Hl) as (b & Hbb & Hb & Hm).
  destruct (@chord_box_sides im sp a trim out l b Hk Ha E (proj1 Hl) Hbb Hb)
    as (lo & hi & Ea & _ & Hthin & Hlong).
  exists b, lo, hi. split; [exact Hbb|]. split; [exact Ea|].
  split; [apply Hlong, Hm|exact Hthin].
Qed.

Lemma chord_lengths_of_chords_witness :
  (ndim void_10x10 = 2 \/ ndim void_10x10 = 3) /\ 0 < ndim void_10x10
  /\ no_extent 0 (shape void_10x10) = true
  /\ exists out lens,
       apply_chords void_10x10 0 0 false = Ok out
       /\ chord_length_distribution out = Ok lens
       /\ length lens = snd (label out)
       /\ forall l, 1 <= l <= length lens ->
            exists b lo hi,
              bounding_box (fun p => data (fst (label out)) p = l) b
              /\ nth_error b 0 = Some (lo, hi)
              /\ nth (l - 1) lens 0%Z = (Z.of_nat hi - Z.of_nat lo)%Z
              /\ forall d lo' hi', d <> 0 -> nth_error b d = Some (lo', hi') -> hi' = S lo'.
Proof.
  assert (Hk : ndim void_10x10 = 2 \/ ndim void_10x10 = 3) by (left; reflexivity).
  assert (Ha : 0 < ndim void_10x10) by (vm_compute; lia).
  assert (H0 : no_extent 0 (shape void_10x10) = true) by reflexivity.
  split; [exact Hk|]. split; [exact Ha|]. split; [exact H0|].
  destruct (@apply_chords_ok void_10x10 0 0 false Hk) as [out E];
    [lia|simpl; lia|reflexivity|discriminate|].
  destruct (@chord_lengths_of_chords void_10x10 0 0 false out Hk Ha H0 E) as (lens & H).
  exists out, lens. split; [exact E|exact H].
Defined.

(** * The exceptions of [apply_chords] and [apply_chords_3D] *)

Lemma setitem_raise (l : list Z) (i v : Z) (e : exn) :
  setitem l i v = Raise e -> e = IndexError.
Proof. unfold setitem. destruct (andb _ _); [discriminate|]. congruence. Qed.

Lemma apply_chords_raise (im : ndarray bool) (sp ax : Z) (trim : bool) (e : exn) :
  apply_chords im sp ax trim = Raise e ->
  (e = bad_spacing /\ (sp < 0)%Z)
  \/ ((0 <= sp)%Z
      /\ (e = IndexError \/ e = AxisError \/ e = ValueError
          \/ (e = NotImplementedError /\ trim = true))).
Proof.
  unfold apply_chords. destruct (Z.ltb_spec sp 0) as [Hsp|Hsp].
  - intros E. injection E as <-. left. split; [reflexivity|exact Hsp].
  - intros E. right. split; [exact Hsp|]. revert E.
    destruct (setitem _ ax 0%Z) as [d1|e1] eqn:E1; cbn [bind].
    2:{ intros E. injection E as <-. left. eapply setitem_raise, E1. }
    destruct (setitem d1 0%Z ax) as [d2|e2] eqn:E2; cbn [bind].
    2:{ intros E. injection E as <-. left. eapply setitem_raise, E2. }
    destruct (moveaxis im _ _) as [im'|e3] eqn:E3; cbn [bind].
    2:{ intros E. injection E as <-. right.
        destruct (moveaxis_raise _ _ _ E3) as [->| ->]; auto. }
    destruct trim.
    + destruct (clear_border _) as [c|e4] eqn:E4; cbn [bind].
      * intros E. right. destruct (moveaxis_raise _ _ _ E) as [->| ->]; auto.
      * intros E. injection E as <-. right. right.
        apply clear_border_raise in E4 as [[-> _]|[-> _]]; auto.
    + cbn [bind]. intros E. right. destruct (moveaxis_raise _ _ _ E) as [->| ->]; auto.
Qed.

(** X18.  [apply_chords] raises its own exception exactly for a negative spacing:
    the check comes first, whatever the axis and the image; every other
    failure is an error of an array operation: an IndexError or an AxisError
    of the permutation of the axes, or, with trimming only, the ValueError or
    the NotImplementedError of [clear_border]. *)
Theorem apply_chords_spacing_error (im : ndarray bool) (sp ax : Z) (trim : bool) :
  (apply_chords im sp ax trim = Raise bad_spacing <-> (sp < 0)%Z)
  /\ forall e, apply_chords im sp ax trim = Raise e ->
       e = bad_spacing \/ e = IndexError \/ e = AxisError \/ e = ValueError
       \/ (e = NotImplementedError /\ trim = true).
Proof.
  split.
  - split.
    + intros E. apply apply_chords_raise in E as [[_ H]|[_ [H|[H|[H|[H _]]]]]];
        [exact H|discriminate..].
    + apply apply_chords_negative_spacing.
  - intros e E. apply apply_chords_raise in E as [[H _]|[_ H]]; tauto.
Qed.

(** X19.  [apply_chords_3D] checks the number of axes before the spacing: a
    negative spacing is reported on a grid of three or more axes only; the
    only other failures are those of [clear_border], with trimming: the
    ValueError on a grid with an empty axis, and the NotImplementedError on
    a grid of more than three axes none of which is empty. *)
Theorem apply_chords_3D_spacing_error (im : ndarray bool) (sp : Z) (trim : bool) :
  (apply_chords_3D im sp trim = Raise bad_spacing <-> 3 <= ndim im /\ (sp < 0)%Z)
  /\ forall e, apply_chords_3D im sp trim = Raise e ->
       e = not_3d \/ e = bad_spacing
       \/ (e = ValueError /\ trim = true /\ no_extent 0 (shape im) = false)
       \/ (e = NotImplementedError /\ trim = true /\ no_extent 0 (shape im) = true
           /\ 3 < ndim im).
Proof.
  unfold apply_chords_3D.
  destruct (Nat.ltb_spec (ndim im) 3) as [Hk|Hk].
  { split; [split; [discriminate|lia]|]. intros e E. injection E as <-. auto. }
  destruct (Z.ltb_spec sp 0) as [Hsp|Hsp].
  { split; [split; [auto|reflexivity]|]. intros e E. injection E as <-. auto. }
  destruct trim.
  - destruct (clear_border _) as [c|e'] eqn:Ec; cbn [bind].
    + split; [split; [discriminate|lia]|]. discriminate.
    + apply clear_border_raise in Ec as [[-> Hex]|(-> & Hex & Hn)];
        cbn [shape amap full_like assign amap2 label fst] in Hex;
        (split; [split; [discriminate|lia]|]); intros e E; injection E as <-;
        right; right; [left|right]; (split; [reflexivity|]);
        (split; [reflexivity|]).
      * unfold no_extent. apply negb_false_iff. exact Hex.
      * split; [unfold no_extent; apply negb_true_iff; exact Hex|].
        change (~ 1 <= ndim im <= 3) in Hn. lia.
  - split; [split; [discriminate|lia]|]. discriminate.
Qed.

(** * Trimming in [apply_chords_3D] *)

Lemma apply_chords_3D_untrimmed (im : ndarray bool) (sp : Z) :
  3 <= ndim im -> (0 <= sp)%Z ->
  apply_chords_3D im sp false
  = Ok {| shape := shape im; data := raw_labels im (stride sp) |}.
Proof.
  intros Hk Hsp. unfold apply_chords_3D.
  replace (ndim im <? 3) with false by (symmetry; apply Nat.ltb_ge; exact Hk).
  replace (sp <? 0)%Z with false by lia. reflexivity.
Qed.

(** X20.  With trimming, on a grid of three axes none of which is empty,
    [apply_chords_3D] keeps the label of a cell exactly when the connected
    component of the cell among the labelled cells does not touch the border
    of the image; the other cells are 0, in particular every cell of the
    border. *)
Theorem apply_chords_3D_trimmed (im : ndarray bool) (sp : Z) :
  ndim im = 3 -> (0 <= sp)%Z -> no_extent 0 (shape im) = true ->
  let raw := raw_labels im (stride sp) in
  let fg := fun q => (0 <? raw q)%Z in
  apply_chords_3D im sp false = Ok {| shape := shape im; data := raw |}
  /\ exists out,
       apply_chords_3D im sp true = Ok out
       /\ shape out = shape im
       /\ (forall p, data out p = 0%Z \/ data out p = raw p)
       /\ (forall p, data out p <> 0%Z
                     <-> cell fg (shape im) p /\ ~ touches_border fg (shape im) p)
       /\ (forall p, on_border p (shape im) = true -> data out p = 0%Z).
Proof.
  intros Hk Hsp H0 raw fg. split; [apply apply_chords_3D_untrimmed; [lia|assumption]|].
  unfold apply_chords_3D.
  replace (ndim im <? 3) with false by (symmetry; apply Nat.ltb_ge; lia).
  replace (sp <? 0)%Z with false by lia.
  match goal with |- context [clear_border ?l] =>
    destruct (@clear_border_total l) as [c Ec] end.
  { change (1 <= ndim im <= 3). lia. }
  { unfold no_extent in H0. apply negb_true_iff in H0. exact H0. }
  rewrite Ec. cbn [bind]. eexists. split; [reflexivity|].
  pose proof (clear_border_ok _ Ec) as Hsh. simpl in Hsh.
  pose proof (@cleared_table_spec fg (shape im) c Ec) as Hspec.
  assert (Hd : forall p, data c p <> 0 -> (0 < raw p)%Z).
  { intros p Hp. apply Hspec in Hp as [[_ Hf] _]. unfold fg in Hf. lia. }
  cbn [shape data amap2 amap assign full_like].
  assert (Hcases : forall p, (data c p <> 0 /\ (0 < raw p)%Z)
                             \/ (data c p = 0 /\ (0 <? data c p) = false)).
  { intros p. destruct (Nat.eq_dec (data c p) 0) as [E|E].
    - right. rewrite E. auto.
    - left. auto. }
  split; [exact Hsh|].
  split; [|split]; intros p;
    match goal with |- context [(?u * Z.b2z (data im p))%Z] =>
      change (u * Z.b2z (data im p))%Z with (raw p) end.
  - destruct (Hcases p) as [[Hc Hr]|[Hc Hf]].
    + replace (0 <? data c p) with true by (symmetry; apply Nat.ltb_lt; lia).
      cbn [Z.b2z]. rewrite Z.mul_1_l. right. reflexivity.
    + rewrite Hf. left. reflexivity.
  - rewrite <- Hspec. destruct (Hcases p) as [[Hc Hr]|[Hc Hf]].
    + replace (0 <? data c p) with true by (symmetry; apply Nat.ltb_lt; lia).
      cbn [Z.b2z]. rewrite Z.mul_1_l. split; [auto|lia].
    + rewrite Hf. cbn [Z.b2z]. rewrite Z.mul_0_l. split; [congruence|lia].
  - intros Hb. destruct (Hcases p) as [[Hc Hr]|[Hc Hf]].
    + exfalso. apply Hspec in Hc as [Hcell Hnt]. apply Hnt. exists p.
      split; [apply conn_refl, Hcell|exact Hb].
    + rewrite Hf. reflexivity.
Qed.

Lemma apply_chords_3D_trimmed_witness :
  ndim void_5x5x5 = 3 /\ (0 <= 0)%Z /\ no_extent 0 (shape void_5x5x5) = true
  /\ exists out,
       apply_chords_3D void_5x5x5 0 true = Ok out
       /\ shape out = [5; 5; 5]
       /\ forall p, on_border p [5; 5; 5] = true -> data out p = 0%Z.
Proof.
  assert (Hk : ndim void_5x5x5 = 3) by reflexivity.
  assert (Hsp : (0 <= 0)%Z) by lia.
  assert (H0 : no_extent 0 (shape void_5x5x5) = true) by reflexivity.
  repeat (split; [assumption|]).
  destruct (@apply_chords_3D_trimmed void_5x5x5 0 Hk Hsp H0)
    as (_ & out & E & Hs & _ & _ & Hb).
  exists out. split; [exact E|]. split; [exact Hs|exact Hb].
Defined.

(** * The X chords of [apply_chords_3D] and the chords of [apply_chords] *)

Lemma in_slice_all (c : nat) : in_slice sl_all c = true.
Proof. unfold in_slice, sl_all. cbn [start step]. rewrite Nat.mod_1_r. reflexivity. Qed.

Lemma x_pattern_sampled (st : nat) (p : index) :
  length p = 3 -> selected (x_pattern st) p = sampled st 0 p.
Proof.
  destruct p as [|i [|j [|k [|? ?]]]]; try discriminate. intros _.
  unfold x_pattern, sampled. cbn [selected length seq forallb Nat.eqb orb].
  rewrite in_slice_all, !in_slice_0. reflexivity.
Qed.

(** X21.  On a grid of three axes none of extent 1 the cells labelled 1 by
    [apply_chords_3D] are the cells marked by [apply_chords] along the axis
    0, both without trimming. *)
Theorem apply_chords_3D_x_chords (im : ndarray bool) (sp : Z) :
  ndim im = 3 -> (0 <= sp)%Z -> no_extent 1 (shape im) = true ->
  exists labels mask,
    apply_chords_3D im sp false = Ok labels
    /\ apply_chords im sp 0 false = Ok mask
    /\ forall p, in_bounds p (shape im) = true ->
         (data labels p = 1%Z <-> data mask p = true).
Proof.
  intros Hk Hsp H1.
  assert (Hk' : ndim im = 2 \/ ndim im = 3) by (right; exact Hk).
  destruct (@apply_chords_ok im sp 0 false Hk' Hsp) as [mask Em];
    [lia|exact H1|discriminate|].
  destruct (@apply_chords_struct im sp 0 false mask Hk' ltac:(lia) Em) as (_ & _ & Hm).
  unfold raw_chords in Hm.
  exists {| shape := shape im; data := raw_labels im (stride sp) |}, mask.
  split; [apply apply_chords_3D_untrimmed; [lia|exact Hsp]|].
  split; [exact Em|].
  intros p Hp. rewrite (Hm p Hp). cbn [data]. unfold raw_labels.
  rewrite <- x_pattern_sampled by (rewrite (in_bounds_length _ _ Hp); exact Hk).
  destruct (patterns_disjoint p (stride_ge_4 Hsp)) as (Hxy & Hxz & _).
  unfold pattern_label.
  destruct (data im p); cbn [Z.b2z andb];
    destruct (selected (x_pattern (stride sp)) p),
             (selected (y_pattern (stride sp)) p),
             (selected (z_pattern (stride sp)) p);
    simpl in Hxy, Hxz; try discriminate; simpl; split; intros; try lia; try discriminate;
    reflexivity.
Qed.

Lemma apply_chords_3D_x_chords_witness :
  ndim void_5x5x5 = 3 /\ (0 <= 0)%Z /\ no_extent 1 (shape void_5x5x5) = true
  /\ exists labels mask,
       apply_chords_3D void_5x5x5 0 false = Ok labels
       /\ apply_chords void_5x5x5 0 0 false = Ok mask
       /\ forall p, in_bounds p [5; 5; 5] = true ->
            (data labels p = 1%Z <-> data mask p = true).
Proof.
  assert (Hk : ndim void_5x5x5 = 3) by reflexivity.
  assert (Hsp : (0 <= 0)%Z) by lia.
  assert (H1 : no_extent 1 (shape void_5x5x5) = true) by reflexivity.
  repeat (split; [assumption|]).
  apply (@apply_chords_3D_x_chords void_5x5x5 0 Hk Hsp H1).
Defined.

(** * [apply_chords] applied to its own result *)

Lemma apply_chords_trim_nonempty (im : ndarray bool) (sp : Z) (a : nat) (out : ndarray bool) :
  ndim im = 2 \/ ndim im = 3 -> a < ndim im ->
  apply_chords im sp (Z.of_nat a) true = Ok out ->
  no_extent 0 (shape im) = true.
Proof.
  intros Hk Ha E.
  destruct (@apply_chords_struct im sp a true out Hk Ha E) as (_ & _ & c & Ec & _).
  unfold clear_border in Ec. cbn [shape] in Ec.
  destruct (existsb _ (swap_axes a (shape im))) eqn:Ex; [discriminate|]. clear Ec.
  apply ndim_2_or_3 in Hk as [(d & s0 & s1 & ->)|(d & s0 & s1 & s2 & ->)];
    unfold ndim in Ha; cbn [shape length] in *; unfold no_extent.
  - destruct a as [|[|a]]; [| |lia]; cbn in Ex; cbn [existsb];
      destruct (s0 =? 0), (s1 =? 0); try discriminate; reflexivity.
  - destruct a as [|[|[|a]]]; [| | |lia]; cbn in Ex; cbn [existsb];
      destruct (s0 =? 0), (s1 =? 0), (s2 =? 0); try discriminate; reflexivity.
Qed.

(** X22.  Applying [apply_chords] to a mask it returned, with the same spacing,
    axis and trimming, returns that mask again. *)
Theorem apply_chords_idempotent (im : ndarray bool) (sp : Z) (a : nat) (trim : bool)
        (out : ndarray bool) :
  ndim im = 2 \/ ndim im = 3 -> a < ndim im ->
  apply_chords im sp (Z.of_nat a) trim = Ok out ->
  exists out2,
    apply_chords out sp (Z.of_nat a) trim = Ok out2
    /\ shape out2 = shape out
    /\ forall p, in_bounds p (shape out) = true -> data out2 p = data out p.
Proof.
  intros Hk Ha E.
  pose proof (@apply_chords_ok_inv im sp _ trim out E) as Hsp.
  pose proof (stride_ge_4 Hsp) as Hst.
  pose proof (@apply_chords_inside_raw im sp a trim out Hk Ha E) as Hraw.
  destruct (@apply_chords_struct im sp a trim out Hk Ha E) as (Hs & H1 & Hstr).
  assert (Hk2 : ndim out = 2 \/ ndim out = 3) by (unfold ndim in *; rewrite Hs; exact Hk).
  assert (Ha2 : a < ndim out) by (unfold ndim in *; rewrite Hs; exact Ha).
  assert (Hsub : forall p, in_bounds p (shape out) = true ->
                   raw_chords out (stride sp) a p = data out p).
  { intros p Hp. unfold raw_chords. destruct (data out p) eqn:Ho; [|reflexivity].
    rewrite Hs in Hp. specialize (Hraw p Hp Ho). unfold raw_chords in Hraw.
    apply andb_true_iff in Hraw as [_ ->]. reflexivity. }
  destruct (@apply_chords_ok out sp (Z.of_nat a) trim Hk2 Hsp) as [out2 E2].
  { unfold ndim in *. lia. }
  { rewrite Hs. exact H1. }
  { intros ->. rewrite Hs. eapply apply_chords_trim_nonempty; eassumption. }
  exists out2. split; [exact E2|].
  destruct trim.
  - destruct (@apply_chords_trim_spec out sp a out2 Hk2 Ha2 E2) as [Hs2 Hout2].
    destruct (@apply_chords_trim_spec im sp a out Hk Ha E) as [_ Hout].
    split; [exact Hs2|]. intros p Hp.
    pose proof Hp as Hp'. rewrite Hs in Hp'.
    apply eq_true_iff_eq. rewrite (Hout2 p Hp), (Hsub p Hp). split; [tauto|].
    intros Ho. split; [exact Ho|]. intros (q & Hc & Hb).
    apply (Hout p Hp') in Ho as [_ Hnt]. apply Hnt. exists q.
    split; [|rewrite <- Hs; exact Hb].
    rewrite <- Hs.
    apply (@conn_mono (raw_chords out (stride sp) a) (raw_chords im (stride sp) a)
                      (shape out)); [|exact Hc].
    intros r Hr Hf. rewrite (Hsub r Hr) in Hf. rewrite Hs in Hr. apply (Hraw r Hr Hf).
  - destruct (@apply_chords_struct out sp a false out2 Hk2 Ha2 E2) as (Hs2 & _ & Hd2).
    split; [exact Hs2|]. intros p Hp. rewrite (Hd2 p Hp). apply Hsub, Hp.
Qed.

Lemma apply_chords_idempotent_witness :
  (ndim void_10x10 = 2 \/ ndim void_10x10 = 3) /\ 0 < ndim void_10x10
  /\ exists out out2,
       apply_chords void_10x10 0 0 false = Ok out
       /\ apply_chords out 0 0 false = Ok out2
       /\ shape out2 = shape out
       /\ forall p, in_bounds p (shape out) = true -> data out2 p = data out p.
Proof.
  assert (Hk : ndim void_10x10 = 2 \/ ndim void_10x10 = 3) by (left; reflexivity).
  assert (Ha : 0 < ndim void_10x10) by (vm_compute; lia).
  split; [exact Hk|]. split; [exact Ha|].
  destruct (@apply_chords_ok void_10x10 0 0 false Hk) as [out E];
    [lia|simpl; lia|reflexivity|discriminate|].
  destruct (@apply_chords_idempotent void_10x10 0 0 false out Hk Ha E) as (out2 & H).
  exists out, out2. split; [exact E|exact H].
Defined.

(** * Two-point correlation: only the sample points are read *)

Lemma mapM_ext_in {B C} (f g : B -> result C) (l : list B) :
  (forall x, In x l -> f x = g x) -> mapM f l = mapM g l.
Proof.
  induction l as [|x l IH]; intros H; simpl; [reflexivity|].
  rewrite (H x (or_introl eq_refl)), IH; [reflexivity|].
  intros y Hy. apply H. right. exact Hy.
Qed.

Lemma py_range_multiples (stop sp : Z) (l : list Z) :
  (0 < sp)%Z -> py_range stop sp = Ok l ->
  forall c, In c l -> (0 <= c)%Z /\ (c mod sp = 0)%Z.
Proof.
  intros Hsp E c Hc. unfold py_range in E.
  replace (sp =? 0)%Z with false in E by lia. injection E as <-.
  apply in_map_iff in Hc as (i & <- & _). split; [nia|].
  apply Z.mod_mul. lia.
Qed.

Lemma normalize_index_nonneg (n : nat) (c : Z) (i : nat) :
  (0 <= c)%Z -> normalize_index n c = Ok i -> Z.of_nat i = c.
Proof.
  intros Hc. unfold normalize_index. destruct (andb _ _); [|discriminate].
  replace (c <? 0)%Z with false by lia. intros E. injection E as <-. lia.
Qed.

Lemma normalize_indices_sample (sp : Z) (sh : list nat) (cs : list Z) (p : index) :
  Forall (fun c => (0 <= c)%Z /\ (c mod sp = 0)%Z) cs ->
  normalize_indices sh cs = Ok p -> sample_point sp p.
Proof.
  intros Hcs. revert sh p. induction Hcs as [|c cs [Hc Hm] _ IH]; intros [|n sh] p; simpl;
    try discriminate.
  - intros E. injection E as <-. constructor.
  - destruct (normalize_index n c) as [i|] eqn:Ei; simpl; [|discriminate].
    destruct (normalize_indices sh cs) as [q|] eqn:Eq; simpl; [|discriminate].
    intros E. injection E as <-. constructor; [|eapply IH, Eq].
    rewrite (normalize_index_nonneg _ Hc Ei). exact Hm.
Qed.

Lemma getitem_pts_ext (im1 im2 : ndarray bool) (pts : list (ndarray Z)) :
  shape im1 = shape im2 ->
  (forall cs p, In cs (vstack_T (map (@flatten Z) pts)) ->
                normalize_indices (shape im1) cs = Ok p -> data im1 p = data im2 p) ->
  getitem_pts im1 pts = getitem_pts im2 pts.
Proof.
  intros Hsh H. unfold getitem_pts. destruct (float_typed pts); [reflexivity|].
  apply mapM_ext_in. intros cs Hcs.
  rewrite <- Hsh. destruct (normalize_indices (shape im1) cs) as [p|e] eqn:Ep; simpl;
    [|reflexivity].
  rewrite (H cs p Hcs Ep). reflexivity.
Qed.

Lemma meshgrid2_rows (l0 l1 : list Z) (cs : list Z) :
  In cs (vstack_T (map (@flatten Z) (meshgrid2 l0 l1))) ->
  exists c0 c1, cs = [c0; c1] /\ In c0 l0 /\ In c1 l1.
Proof.
  intros Hcs. unfold meshgrid2, vstack_T in Hcs. cbn [map] in Hcs.
  apply in_map_iff in Hcs as (i & <- & Hi). apply in_seq in Hi.
  rewrite length_flatten in Hi. cbn [shape] in Hi.
  destruct (@nth_flatten Z {| shape := [length l1; length l0];
                              data := fun p => nth (nth 1 p 0) l0 0%Z |} i 0%Z)
    as (p & Hp & ->); [cbn [shape]; lia|].
  destruct (@nth_flatten Z {| shape := [length l1; length l0];
                              data := fun p => nth (nth 0 p 0) l1 0%Z |} i 0%Z)
    as (q & Hq & ->); [cbn [shape]; lia|].
  cbn [shape data] in *.
  apply in_bounds_2 in Hp as (a & b & -> & Ha & Hb).
  apply in_bounds_2 in Hq as (a' & b' & -> & Ha' & Hb').
  cbn [nth]. do 2 eexists. split; [reflexivity|]. split; apply nth_In; assumption.
Qed.

Lemma meshgrid3_rows (l0 l1 l2 : list Z) (cs : list Z) :
  In cs (vstack_T (map (@flatten Z) (meshgrid3 l0 l1 l2))) ->
  exists c0 c1 c2, cs = [c0; c1; c2] /\ In c0 l0 /\ In c1 l1 /\ In c2 l2.
Proof.
  intros Hcs. unfold meshgrid3, vstack_T in Hcs. cbn [map] in Hcs.
  apply in_map_iff in Hcs as (i & <- & Hi). apply in_seq in Hi.
  rewrite length_flatten in Hi. cbn [shape] in Hi.
  destruct (@nth_flatten Z {| shape := [length l1; length l0; length l2];
                              data := fun p => nth (nth 1 p 0) l0 0%Z |} i 0%Z)
    as (p & Hp & ->); [cbn [shape]; lia|].
  destruct (@nth_flatten Z {| shape := [length l1; length l0; length l2];
                              data := fun p => nth (nth 0 p 0) l1 0%Z |} i 0%Z)
    as (q & Hq & ->); [cbn [shape]; lia|].
  destruct (@nth_flatten Z {| shape := [length l1; length l0; length l2];
                              data := fun p => nth (nth 2 p 0) l2 0%Z |} i 0%Z)
    as (r & Hr & ->); [cbn [shape]; lia|].
  cbn [shape data] in *.
  apply in_bounds_3 in Hp as (a & b & c & -> & Ha & Hb & Hc).
  apply in_bounds_3 in Hq as (a' & b' & c' & -> & Ha' & Hb' & Hc').
  apply in_bounds_3 in Hr as (a'' & b'' & c'' & -> & Ha'' & Hb'' & Hc'').
  cbn [nth]. do 3 eexists. split; [reflexivity|]. repeat split; apply nth_In; assumption.
Qed.

(** X23.  The image is read at the sample points only: two images of one shape
    that agree on every cell all of whose coordinates are multiples of the
    spacing get the same result. *)
Theorem two_point_correlation_reads_samples (im1 im2 : ndarray bool) (sp : Z) :
  (0 < sp)%Z -> shape im1 = shape im2 ->
  (forall p, in_bounds p (shape im1) = true -> sample_point sp p ->
             data im1 p = data im2 p) ->
  two_point_histograms im1 sp = two_point_histograms im2 sp
  /\ two_point_correlation_bf im1 sp = two_point_correlation_bf im2 sp.
Proof.
  intros Hsp Hsh Hag.
  assert (Hh : two_point_histograms im1 sp = two_point_histograms im2 sp).
  { unfold two_point_histograms. rewrite <- Hsh.
    destruct (shape im1) as [|s0 [|s1 [|s2 [|s3 sh]]]] eqn:E1; try reflexivity.
    - destruct (py_range (Z.of_nat s0) sp) as [r0|] eqn:E0; cbn [bind]; [|reflexivity].
      destruct (py_range (Z.of_nat s1) sp) as [r1|] eqn:Er1; cbn [bind]; [|reflexivity].
      cbn [fst snd].
      rewrite (@getitem_pts_ext im1 im2 (meshgrid2 r0 r1)); [reflexivity|congruence|].
      intros cs p Hcs Ep. apply Hag; [rewrite <- E1; eapply normalize_indices_ok, Ep|].
      apply meshgrid2_rows in Hcs as (c0 & c1 & -> & H0 & H1).
      eapply normalize_indices_sample; [|exact Ep].
      constructor; [exact (@py_range_multiples _ sp r0 Hsp E0 c0 H0)|].
      constructor; [exact (@py_range_multiples _ sp r1 Hsp Er1 c1 H1)|constructor].
    - destruct (py_range (Z.of_nat s0) sp) as [r0|] eqn:E0; cbn [bind]; [|reflexivity].
      destruct (py_range (Z.of_nat s1) sp) as [r1|] eqn:Er1; cbn [bind]; [|reflexivity].
      destruct (py_range (Z.of_nat s2) sp) as [r2|] eqn:Er2; cbn [bind]; [|reflexivity].
      cbn [fst snd].
      rewrite (@getitem_pts_ext im1 im2 (meshgrid3 r0 r1 r2)); [reflexivity|congruence|].
      intros cs p Hcs Ep. apply Hag; [rewrite <- E1; eapply normalize_indices_ok, Ep|].
      apply meshgrid3_rows in Hcs as (c0 & c1 & c2 & -> & H0 & H1 & H2).
      eapply normalize_indices_sample; [|exact Ep].
      constructor; [exact (@py_range_multiples _ sp r0 Hsp E0 c0 H0)|].
      constructor; [exact (@py_range_multiples _ sp r1 Hsp Er1 c1 H1)|].
      constructor; [exact (@py_range_multiples _ sp r2 Hsp Er2 c2 H2)|constructor]. }
  split; [exact Hh|]. unfold two_point_correlation_bf. rewrite Hh. reflexivity.
Qed.

Lemma two_point_correlation_reads_samples_witness :
  (0 < 2)%Z /\ shape even_void_4x4 = shape void_4x4
  /\ data even_void_4x4 [1; 1] <> data void_4x4 [1; 1]
  /\ two_point_correlation_bf even_void_4x4 2 = two_point_correlation_bf void_4x4 2.
Proof.
  assert (Hsp : (0 < 2)%Z) by lia.
  assert (Hsh : shape even_void_4x4 = shape void_4x4) by reflexivity.
  split; [exact Hsp|]. split; [exact Hsh|]. split; [discriminate|].
  apply (@two_point_correlation_reads_samples even_void_4x4 void_4x4 2 Hsp Hsh).
  intros p Hp Hs. apply in_bounds_2 in Hp as (i & j & -> & Hi & Hj).
  unfold sample_point in Hs.
  pose proof (Forall_inv Hs) as H0. pose proof (Forall_inv (Forall_inv_tail Hs)) as H1.
  cbn [even_void_4x4 void_4x4 void_grid data nth].
  assert (Ei : i mod 2 = 0) by (apply Nat2Z.inj; rewrite Nat2Z.inj_mod; exact H0).
  assert (Ej : j mod 2 = 0) by (apply Nat2Z.inj; rewrite Nat2Z.inj_mod; exact H1).
  rewrite Ei, Ej. reflexivity.
Defined.

(** * The number of cells of a chord *)

Section StraightComponents.

Variables (fg : index -> bool) (sh : list nat) (a : nat).
Hypothesis a_axis : a < length sh.
Hypothesis straight_step :
  forall p q, cell fg sh p -> cell fg sh q -> In q (neighbours p) ->
              forall d, d <> a -> nth d q 0 = nth d p 0.

Lemma straight_conn (p q : index) :
  conn fg sh p q -> forall d, d <> a -> nth d q 0 = nth d p 0.
Proof.
  induction 1 as [p Hp|p q r Hpq IH Hr Hn]; intros d Hd; [reflexivity|].
  rewrite <- (IH d Hd). apply (straight_step (conn_cell_r Hpq) Hr Hn Hd).
Qed.

Lemma straight_neighbour (p q : index) :
  cell fg sh p -> cell fg sh q -> In q (neighbours p) ->
  nth a q 0 = S (nth a p 0) \/ S (nth a q 0) = nth a p 0.
Proof.
  intros Hp Hq Hn. pose proof (straight_step Hp Hq Hn) as Hs.
  apply neighbours_spec in Hn as (_ & e & He & Hdiff & _).
  destruct (Nat.eq_dec e a) as [->|Hne]; [exact Hdiff|].
  specialize (Hs e Hne). lia.
Qed.

(** A path along a line passes through every coordinate between those of
    its ends. *)
Lemma conn_interval (p q : index) :
  conn fg sh p q ->
  forall t, Nat.min (nth a p 0) (nth a q 0) <= t <= Nat.max (nth a p 0) (nth a q 0) ->
            exists r, conn fg sh p r /\ nth a r 0 = t.
Proof.
  induction 1 as [p Hp|p q r Hpq IH Hr Hn]; intros t Ht.
  - exists p. split; [apply conn_refl, Hp|lia].
  - pose proof (straight_neighbour (conn_cell_r Hpq) Hr Hn) as Hstep.
    destruct (Nat.eq_dec t (nth a r 0)) as [->|Hne].
    + exists r. split; [|reflexivity]. eapply conn_step; eassumption.
    + apply IH. lia.
Qed.

Lemma straight_injective (p q r : index) :
  conn fg sh p q -> conn fg sh p r -> nth a q 0 = nth a r 0 -> q = r.
Proof.
  intros Hq Hr E.
  pose proof (in_bounds_length _ _ (proj1 (conn_cell_r Hq))) as Lq.
  pose proof (in_bounds_length _ _ (proj1 (conn_cell_r Hr))) as Lr.
  apply index_ext; [congruence|]. intros d _.
  destruct (Nat.eq_dec d a) as [->|Hd]; [exact E|].
  rewrite (straight_conn Hq Hd), (straight_conn Hr Hd). reflexivity.
Qed.

(** A component that lies on one line has as many cells as its extent along
    the line. *)
Lemma straight_component_size (l lo hi : nat) (b : box) :
  let lab := fst (label_table fg sh) in
  1 <= l -> bounding_box (fun p => lab p = l) b -> nth_error b a = Some (lo, hi) ->
  length (filter (fun p => lab p =? l) (indices sh)) = hi - lo.
Proof.
  intros lab Hl Hbb Ea.
  destruct (Hbb a lo hi Ea) as (Hall & (p1 & Hp1 & E1) & (p2 & Hp2 & E2)).
  assert (Hcell : forall p, lab p = l -> cell fg sh p).
  { intros p Hp. apply (proj1 (@label_nonzero fg sh p)). fold lab. lia. }
  assert (Hconn : forall p, lab p = l <-> conn fg sh p1 p).
  { intros p. rewrite <- (@label_same fg sh p1 p (Hcell p1 Hp1)). fold lab.
    rewrite Hp1. reflexivity. }
  set (S := filter (fun p => lab p =? l) (indices sh)).
  assert (HS : forall p, In p S <-> lab p = l).
  { intros p. unfold S. rewrite filter_In, Nat.eqb_eq, indices_spec. split; [tauto|].
    intros Hp. split; [apply (Hcell p Hp)|exact Hp]. }
  change (length S = hi - lo).
  rewrite <- (length_map (fun p : index => nth a p 0) S), <- (length_seq (hi - lo) lo).
  assert (Hnd : NoDup (map (fun p : index => nth a p 0) S)).
  { apply NoDup_map_NoDup_ForallPairs.
    - intros p q Hp Hq E. apply HS, Hconn in Hp. apply HS, Hconn in Hq.
      eapply straight_injective; eassumption.
    - apply NoDup_filter, indices_NoDup. }
  apply Nat.le_antisymm.
  - apply NoDup_incl_length; [exact Hnd|].
    intros t Ht. apply in_map_iff in Ht as (p & <- & Hp). apply HS in Hp.
    specialize (Hall p Hp). apply in_seq. lia.
  - apply NoDup_incl_length; [apply seq_NoDup|].
    intros t Ht. apply in_seq in Ht.
    destruct (@conn_interval p1 p2 (proj1 (Hconn p2) Hp2) t) as (r & Hr & <-); [lia|].
    apply in_map_iff. exists r. split; [reflexivity|]. apply HS, Hconn, Hr.
Qed.

End StraightComponents.

(** X24.  For a mask returned by [apply_chords] for an image without an
    empty axis, the lengths reported by [chord_length_distribution] are the
    numbers of cells of the chords: the entry of a component is the number
    of cells that carry its label. *)
Theorem chord_lengths_count_cells (im : ndarray bool) (sp : Z) (a : nat) (trim : bool)
        (out : ndarray bool) :
  ndim im = 2 \/ ndim im = 3 -> a < ndim im -> no_extent 0 (shape im) = true ->
  apply_chords im sp (Z.of_nat a) trim = Ok out ->
  let labels := fst (label out) in
  exists lens,
    chord_length_distribution out = Ok lens
    /\ length lens = snd (label out)
    /\ forall l, 1 <= l <= length lens ->
         nth (l - 1) lens 0%Z
         = Z.of_nat (length (filter (fun p => data labels p =? l) (indices (shape out)))).
Proof.
  intros Hk Ha H0 E labels.
  pose proof (@apply_chords_ok_inv im sp _ trim out E) as Hsp.
  pose proof (stride_ge_4 Hsp) as Hst.
  pose proof (@apply_chords_inside_raw im sp a trim out Hk Ha E) as Hraw.
  destruct (@apply_chords_struct im sp a trim out Hk Ha E) as (Hs & _ & _).
  assert (Hnd : ndim out <> 0) by (unfold ndim in *; rewrite Hs; lia).
  assert (Hsz : size out <> 0) by (apply size_no_extent; rewrite Hs; exact H0).
  destruct (chord_length_distribution_entries out Hnd Hsz) as (lens & El & Hlen & Hent).
  exists lens. split; [exact El|]. split; [exact Hlen|].
  intros l Hl. rewrite Hlen in Hl.
  destruct (Hent l Hl) as (b & Hbb & Hb & Hm).
  destruct (@chord_box_sides im sp a trim out l b Hk Ha E (proj1 Hl) Hbb Hb)
    as (lo & hi & Ea & Hpos & _ & Hlong).
  rewrite (Hlong _ Hm).
  assert (Hcount : length (filter (fun p => data labels p =? l) (indices (shape out)))
                   = hi - lo).
  { apply (@straight_component_size (fun p => truthy (data out p)) (shape out) a)
      with (b := b); [| |lia|exact Hbb|exact Ea].
    - unfold ndim in *. rewrite Hs. exact Ha.
    - intros p q [Hp Hfp] [Hq Hfq] Hn. rewrite Hs in Hp, Hq.
      apply (@raw_chords_neighbours im (stride sp) a p q); auto; lia. }
  rewrite Hcount. lia.
Qed.

Lemma chord_lengths_count_cells_witness :
  (ndim void_10x10 = 2 \/ ndim void_10x10 = 3) /\ 0 < ndim void_10x10
  /\ no_extent 0 (shape void_10x10) = true
  /\ exists out lens,
       apply_chords void_10x10 0 0 false = Ok out
       /\ chord_length_distribution out = Ok lens
       /\ length lens = snd (label out)
       /\ forall l, 1 <= l <= length lens ->
            nth (l - 1) lens 0%Z
            = Z.of_nat (length (filter (fun p => data (fst (label out)) p =? l)
                                       (indices (shape out)))).
Proof.
  assert (Hk : ndim void_10x10 = 2 \/ ndim void_10x10 = 3) by (left; reflexivity).
  assert (Ha : 0 < ndim void_10x10) by (vm_compute; lia).
  assert (H0 : no_extent 0 (shape void_10x10) = true) by reflexivity.
  split; [exact Hk|]. split; [exact Ha|]. split; [exact H0|].
  destruct (@apply_chords_ok void_10x10 0 0 false Hk) as [out E];
    [lia|simpl; lia|reflexivity|discriminate|].
  destruct (@chord_lengths_count_cells void_10x10 0 0 false out Hk Ha H0 E) as (lens & H).
  exists out, lens. split; [exact E|exact H].
Defined.
